(** * OPTICS ordering and hierarchical cluster extraction

    A shallow embedding of [sklearn/cluster/optics_.py]: the function
    [hierarchical_extraction], the registry [EXTRACTION_FUNCTIONS] and the
    entry point [optics].

    Python integers are [Z]; a Python list or a one-dimensional numpy array
    is a [list]; indexing follows Python (a negative index counts from the
    end, an index out of range raises [IndexError]).  An exception is a value
    of [exn] and a computation that may raise returns an [outcome].  The
    [Node] objects of the extraction live in a store and are referred to by
    reference.  The entry point also returns the log of the distance rows it
    requested from [cdist].

    Floating-point numbers are kept abstract: the development is
    parametrised by a type [F] with the operations the source applies to
    floats (class [Float]); what depends on their order is proved for every
    [F] whose comparison is a total preorder (class [FloatOrder], i.e. no
    NaN among the values compared).

    The loop of [optics] and the recursion of [cluster_tree] are bounded by
    a fuel argument; the lemmas [in_time_optics] and
    [in_time_hierarchical_extraction] show that the bound is never
    reached.

    The file has the model first, then the definitions the statements use,
    then the lemmas and the theorems of the claims C1 to C10, and further
    theorems (X1 to X27) on the ordering engine, the extraction and the
    entry point. *)

From Stdlib Require Import ZArith QArith List Lia Bool String Ascii.
From stdpp Require Import gmap strings sorting.

Local Open Scope Z_scope.

(** ** Exceptions *)

Inductive exn : Type :=
| IndexError
| ValueError (msg : string)
| TypeError (msg : string)
| AttributeError
| OutOfFuel.      (* the model's bound on iterations or nested calls *)

Inductive outcome (A : Type) : Type :=
| Return (a : A)
| Raise (e : exn).
Arguments Return {A} a.
Arguments Raise {A} e.

(** Sequencing: [x ← c; k] runs [c] and, unless it raised, continues with
    [k]. *)
#[global] Instance outcome_ret : MRet outcome := @Return.
#[global] Instance outcome_bind : MBind outcome := λ A B k c,
  match c with
  | Return a => k a
  | Raise e => Raise e
  end.

(** [for x in l: acc = f acc x], stopping at the first exception. *)
Fixpoint foldM {A B} (f : B → A → outcome B) (l : list A) (acc : B) : outcome B :=
  match l with
  | [] => Return acc
  | x :: l' => acc' ← f acc x; foldM f l' acc'
  end.

(** [[f x for x in l]], stopping at the first exception. *)
Fixpoint mapM' {A B} (f : A → outcome B) (l : list A) : outcome (list B) :=
  match l with
  | [] => Return []
  | x :: l' => y ← f x; ys ← mapM' f l'; Return (y :: ys)
  end.

(** ** Python lists and numpy arrays *)

Definition len {A} (l : list A) : Z := Z.of_nat (length l).

(** [xrange(a, b)] *)
Definition xrange (a b : Z) : list Z :=
  map (fun k => a + Z.of_nat k) (seq 0 (Z.to_nat (b - a))).

(** [l[i]]: a negative [i] counts from the end. *)
Definition py_get {A} (l : list A) (i : Z) : outcome A :=
  let j := if i <? 0 then i + len l else i in
  if (0 <=? j) && (j <? len l) then
    match l !! Z.to_nat j with
    | Some a => Return a
    | None => Raise IndexError
    end
  else Raise IndexError.

(** [l[i] = v] *)
Definition py_set {A} (l : list A) (i : Z) (v : A) : outcome (list A) :=
  let j := if i <? 0 then i + len l else i in
  if (0 <=? j) && (j <? len l) then Return (<[Z.to_nat j := v]> l)
  else Raise IndexError.

(** The bound of a slice: a negative bound counts from the end, and the
    result is clamped to [0, len l]. *)
Definition slice_bound {A} (l : list A) (i : Z) : Z :=
  if i <? 0 then Z.max 0 (i + len l) else Z.min i (len l).

(** [l[a:b]] *)
Definition py_slice {A} (l : list A) (a b : Z) : list A :=
  let s := slice_bound l a in
  let e := slice_bound l b in
  firstn (Z.to_nat (e - s)) (skipn (Z.to_nat s) l).

(** [l.remove(x)]: drops the first occurrence, [ValueError] when absent. *)
Fixpoint py_remove (l : list Z) (x : Z) : outcome (list Z) :=
  match l with
  | [] => Raise (ValueError "list.remove(x): x not in list")
  | y :: l' => if y =? x then Return l'
               else l'' ← py_remove l' x; Return (y :: l'')
  end.

(** [l.remove(x)] on a list of object references (identity comparison). *)
Fixpoint remove_ref (l : list nat) (x : nat) : outcome (list nat) :=
  match l with
  | [] => Raise (ValueError "list.remove(x): x not in list")
  | y :: l' => if Nat.eqb y x then Return l'
               else l'' ← remove_ref l' x; Return (y :: l'')
  end.

(** [l.pop()] on a non-empty list: the list without its last element, and
    that element. *)
Definition py_pop {A} (l : list A) : option (list A * A) :=
  match rev l with
  | [] => None
  | x :: r => Some (rev r, x)
  end.

(** [a[idx]] for an index array [idx] (numpy fancy indexing). *)
Definition np_take {A} (a : list A) (idx : list Z) : outcome (list A) :=
  mapM' (py_get a) idx.

(** [a[idx] = vals] for an index array [idx]: element-wise, in order. *)
Definition np_put {A} (a : list A) (idx : list Z) (vals : list A) : outcome (list A) :=
  foldM (fun a '(i, v) => py_set a i v) (combine idx vals) a.

(** [np.where(mask)[0]]: the positions at which the mask holds. *)
Fixpoint np_where_from (k : Z) (mask : list bool) : list Z :=
  match mask with
  | [] => []
  | b :: mask' => (if b then [k] else []) ++ np_where_from (k + 1) mask'
  end.
Definition np_where (mask : list bool) : list Z := np_where_from 0 mask.

(** ** Floating-point values *)

Class Float (F : Type) : Type := {
  fzero : F;                       (* 0.0 *)
  finf : F;                        (* float('inf') *)
  fleb : F → F → bool;             (* x <= y *)
  fmul : F → F → F;                (* x * y *)
  fdiv : F → F → F;                (* x / y *)
  fmean : list F → F;              (* np.mean of a non-empty array *)
  fconst : Q → F                   (* a decimal literal such as 0.75 *)
}.

(** The comparison is a total preorder on the values compared (no NaN). *)
Class FloatOrder (F : Type) `{Float F} : Prop := {
  fleb_total : ∀ x y : F, fleb x y = true ∨ fleb y x = true;
  fleb_trans : ∀ x y z : F, fleb x y = true → fleb y z = true → fleb x z = true
}.

Section Numpy.
Context {F : Type} `{Float F}.

(** [x < y] *)
Definition fltb (x y : F) : bool := negb (fleb y x).

(** [np.maximum(x, y)] on scalars *)
Definition fmax (x y : F) : F := if fleb x y then y else x.

(** [np.maximum(a, b)] *)
Definition np_maximum (a b : list F) : list F :=
  map (fun '(x, y) => fmax x y) (combine a b).

(** Scan for [np.argmax]: [best] is the position of the first greatest
    value seen so far, [bv] that value, [k] the position of the head of
    [l]. *)
Fixpoint argmax_from (best : Z) (bv : F) (k : Z) (l : list F) : Z :=
  match l with
  | [] => best
  | x :: l' => if fltb bv x then argmax_from k x (k + 1) l'
               else argmax_from best bv (k + 1) l'
  end.

(** [np.argmax(a)]: the first position of the greatest value. *)
Definition np_argmax (a : list F) : outcome Z :=
  match a with
  | [] => Raise (ValueError "attempt to get argmax of an empty sequence")
  | x :: a' => Return (argmax_from 0 x 1 a')
  end.

Fixpoint argmin_from (best : Z) (bv : F) (k : Z) (l : list F) : Z :=
  match l with
  | [] => best
  | x :: l' => if fltb x bv then argmin_from k x (k + 1) l'
               else argmin_from best bv (k + 1) l'
  end.

(** [np.argmin(a)]: the first position of the least value. *)
Definition np_argmin (a : list F) : outcome Z :=
  match a with
  | [] => Raise (ValueError "attempt to get argmin of an empty sequence")
  | x :: a' => Return (argmin_from 0 x 1 a')
  end.

(** [np.sort(a)] *)
Fixpoint sort_insert (x : F) (l : list F) : list F :=
  match l with
  | [] => [x]
  | y :: l' => if fleb x y then x :: l else y :: sort_insert x l'
  end.
Definition np_sort (a : list F) : list F := foldr sort_insert [] a.

(** [L.sort(key=...)]: a stable sort of the items by their keys. *)
Fixpoint key_insert (x : F * Z) (l : list (F * Z)) : list (F * Z) :=
  match l with
  | [] => [x]
  | y :: l' => if fleb (fst x) (fst y) then x :: l else y :: key_insert x l'
  end.
Definition sort_by_key (keys : list F) (items : list Z) : list Z :=
  map snd (foldr key_insert [] (combine keys items)).

(** [np.mean(a) if a.size > 0 else 0] *)
Definition avg_reach (a : list F) : F :=
  match a with
  | [] => fzero
  | _ => fmean a
  end.
End Numpy.

(** [[x for x in l if p x]] for a test that may raise. *)
Fixpoint filterM {A} (p : A → outcome bool) (l : list A) : outcome (list A) :=
  match l with
  | [] => Return []
  | x :: l' => b ← p x; r ← filterM p l'; Return (if b : bool then x :: r else r)
  end.

(** [enumerate(l)] *)
Definition enumerate {A} (l : list A) : list (Z * A) :=
  combine (xrange 0 (len l)) l.

(** ** The cluster tree of the extraction

    [Node] objects live in a store and are referred to by their position in
    it (object identity); [leaves] is the list the closure [cluster_tree]
    appends to. *)

Record Node : Type := mkNode {
  left : Z;
  right : Z;
  split : option Z;            (* the attribute is absent until it is set *)
  children : list nat
}.

Record heap : Type := mkHeap {
  nodes : list Node;
  leaves : list nat
}.

Definition node_at (st : heap) (id : nat) : Node :=
  default (mkNode 0 0 None []) (nodes st !! id).

(** [Node(l, r)]: a fresh object; returns its reference. *)
Definition new_node (l r : Z) (st : heap) : nat * heap :=
  (length (nodes st), mkHeap (nodes st ++ [mkNode l r None []]) (leaves st)).

Definition update_node (id : nat) (f : Node → Node) (st : heap) : heap :=
  mkHeap (alter f id (nodes st)) (leaves st).

(** [node.split = s] *)
Definition set_split (id : nat) (s : Z) : heap → heap :=
  update_node id (fun nd => mkNode (left nd) (right nd) (Some s) (children nd)).

(** [node.children.append(c)] *)
Definition append_child (id c : nat) : heap → heap :=
  update_node id (fun nd => mkNode (left nd) (right nd) (split nd) (children nd ++ [c])).

(** [parent.children.remove(node)] *)
Definition remove_child (id c : nat) (st : heap) : outcome heap :=
  cs ← remove_ref (children (node_at st id)) c;
  Return (update_node id (fun nd => mkNode (left nd) (right nd) (split nd) cs) st).

(** [leaves.append(node)] *)
Definition add_leaf (id : nat) (st : heap) : heap :=
  mkHeap (nodes st) (leaves st ++ [id]).

(** [node.split], an [AttributeError] while the attribute is unset. *)
Definition get_split (st : heap) (id : nat) : outcome Z :=
  match split (node_at st id) with
  | Some s => Return s
  | None => Raise AttributeError
  end.

Section Extraction.
Context {F : Type} `{Float F}.

(** *** Local maxima (lines 61-70) *)

Definition local_maxima (R : list F) (n min_cluster_size : Z) : outcome (list Z) :=
  L ← foldM (fun L i =>
         a ← np_argmax (py_slice R 0 (i + min_cluster_size + 1));
         let L := if a =? i then L ++ [i] else L in
         b ← np_argmax (py_slice R (n - 2 * min_cluster_size + i) n);
         let L := if b =? i then L ++ [n - min_cluster_size + i] else L in
         Return L)
       (xrange 0 min_cluster_size) [];
  foldM (fun L i =>
     a ← np_argmax (py_slice R (i - min_cluster_size) (i + min_cluster_size + 1));
     Return (if a =? min_cluster_size then L ++ [i] else L))
    (xrange min_cluster_size (n - min_cluster_size)) L.

(** *** The closure [cluster_tree] (lines 83-129)

    [R], [n], [min_cluster_size] and the two ratios are the variables the
    closure captures.  Every recursive call receives a list shorter than
    the caller's, so a call on [L] nests at most [length L] further calls;
    [fuel] bounds the nesting. *)

Variable R : list F.
Variable n : Z.
Variable min_cluster_size : Z.
Variables significant_ratio similarity_ratio : F.

(** Lines 93-105: the test [avg_reach_left <= significant_ratio * R[s] >=
    avg_reach_right]; [Rs] is [R[s]]. *)
Definition significant (st : heap) (child_left child_right : nat) (Rs : F) : bool :=
  let cl := node_at st child_left in
  let cr := node_at st child_right in
  let R_left := py_slice R (left cl) (right cl) in
  let R_right := py_slice R (left cr) (right cr) in
  let avg_reach_left := avg_reach R_left in
  let avg_reach_right := avg_reach R_right in
  fleb avg_reach_left (fmul significant_ratio Rs)
  && fleb avg_reach_right (fmul significant_ratio Rs).

(** Lines 106-112: the children that are large enough or touch an end of the
    plot, each with its candidates. *)
Definition kept_children (st : heap) (child_left child_right : nat)
    (L_left L_right : list Z) : list (nat * list Z) :=
  let cl := node_at st child_left in
  let cr := node_at st child_right in
  let children := [] in
  let left_size := right cl - left cl in
  let children :=
    if (min_cluster_size <=? left_size) || (left_size =? right cl)
    then children ++ [(child_left, L_left)] else children in
  let right_size := right cr - left cr in
  let children :=
    if (min_cluster_size <=? right_size) || (right_size =? n - left cr)
    then children ++ [(child_right, L_right)] else children in
  children.

(** Lines 117-125: the kept children replace [node] under its parent when
    the split is similar to the parent's, and hang under [node] otherwise;
    the result is the node [p] and the store. *)
Definition attach_children (node : nat) (parent : option nat) (Rs : F)
    (kids : list (nat * list Z)) (st : heap) : outcome (nat * heap) :=
  match parent with
  | Some par =>
    ps ← get_split st par;
    Rp ← py_get R ps;
    if fleb similarity_ratio (fdiv Rs Rp) then
      let st := foldl (fun st '(child, _) => append_child par child st) st kids in
      st ← remove_child par node st;
      Return (par, st)
    else
      Return (node, foldl (fun st '(child, _) => append_child node child st) st kids)
  | None =>
    Return (node, foldl (fun st '(child, _) => append_child node child st) st kids)
  end.

Fixpoint cluster_tree (fuel : nat) (node : nat) (parent : option nat)
    (L : list Z) (st : heap) : outcome heap :=
  match fuel with
  | O => Raise OutOfFuel
  | S fuel =>
    match py_pop L with
    | None => Return (add_leaf node st)
    | Some (L, s) =>
      let st := set_split node s st in
      let '(child_left, st) := new_node (left (node_at st node)) s st in
      let '(child_right, st) := new_node s (right (node_at st node)) st in
      L_left ← np_take L (np_where (map (fun x => x <? s) L));
      L_right ← np_take L (np_where (map (fun x => s <? x) L));
      Rs ← py_get R s;
      if significant st child_left child_right Rs then
        match kept_children st child_left child_right L_left L_right with
        | [] => Return (add_leaf node st)
        | kids =>
          '(p, st) ← attach_children node parent Rs kids st;
          foldM (fun st '(child, L) => cluster_tree fuel child (Some p) L st) kids st
        end
      else cluster_tree fuel node parent L st
    end
  end.
End Extraction.

Section HierarchicalExtraction.
Context {F : Type} `{Float F}.

(** Lines 58-132: the reachability plot, the split candidates and the
    tree; the result is the store, whose [leaves] are in discovery
    order. *)
Definition extraction_tree (ordering : list Z) (reachability_distances : list F)
    (min_cluster_size : Z) (significant_ratio similarity_ratio min_reach_ratio : F)
    : outcome heap :=
  R ← mapM' (py_get reachability_distances) ordering;
  let n := len ordering in
  L ← local_maxima R n min_cluster_size;
  keys ← mapM' (py_get R) L;
  let L := sort_by_key keys L in
  last ← py_get L (-1);
  R_max ← py_get R last;
  L ← filterM (fun x => Rx ← py_get R x; Return (fleb (fmul min_reach_ratio R_max) Rx)) L;
  let '(root, st) := new_node 0 n (mkHeap [] []) in
  cluster_tree R n min_cluster_size significant_ratio similarity_ratio
    (S (length L)) root None L st.

(** Lines 134-137.  Labels are whole numbers (the source stores them in a
    float array). *)
Definition assign_labels (ordering : list Z) (n : Z) (st : heap) : outcome (list Z) :=
  foldM (fun labels '(i, leaf) =>
      foldM (fun labels j => p ← py_get ordering j; py_set labels p i)
        (xrange (left (node_at st leaf)) (right (node_at st leaf))) labels)
    (enumerate (leaves st)) (replicate (Z.to_nat n) (-1)).

Definition hierarchical_extraction (ordering : list Z) (reachability_distances : list F)
    (min_cluster_size : Z) (significant_ratio similarity_ratio min_reach_ratio : F)
    : outcome (list Z) :=
  st ← extraction_tree ordering reachability_distances min_cluster_size
         significant_ratio similarity_ratio min_reach_ratio;
  assign_labels ordering (len ordering) st.
End HierarchicalExtraction.

(** ** The registry of extraction functions (lines 141-143) *)

Section Registry.
Context {F : Type} `{Float F}.

(** The call [func(ordering, reachability_distances, min_samples,
    **ext_kwargs)] with [func = hierarchical_extraction]: the first three
    parameters are bound by position, so a keyword may only name one of
    the three ratios; any other key (a name that is no parameter, or one
    already bound by position) is a [TypeError].  A ratio without keyword
    takes its default. *)
Definition hierarchical_extraction_kw (ordering : list Z)
    (reachability_distances : list F) (min_cluster_size : Z)
    (ext_kwargs : gmap string F) : outcome (list Z) :=
  if bool_decide (dom ext_kwargs ⊆
       ({[ "significant_ratio"%string; "similarity_ratio"%string;
           "min_reach_ratio"%string ]} : gset string))
  then
    hierarchical_extraction ordering reachability_distances min_cluster_size
      (default (fconst 0.75) (ext_kwargs !! "significant_ratio"%string))
      (default (fconst 0.4) (ext_kwargs !! "similarity_ratio"%string))
      (default (fconst 0.1) (ext_kwargs !! "min_reach_ratio"%string))
  else Raise (TypeError "hierarchical_extraction() got an unexpected keyword argument or multiple values for a parameter").

Definition EXTRACTION_FUNCTIONS
  : gmap string (list Z → list F → Z → gmap string F → outcome (list Z)) :=
  {[ "hierarchical"%string := hierarchical_extraction_kw ]}.
End Registry.

(** ** The entry point [optics] (lines 145-254) *)

(** The values the parameter [extraction] may hold. *)
Inductive pyvalue : Type :=
| PyStr (s : string)
| PyUnicode (s : string)
| PyInt (z : Z)
| PyNone.

(** [s.lower()] *)
Definition lower_ascii (c : ascii) : ascii :=
  let k := nat_of_ascii c in
  if (65 <=? k)%nat && (k <=? 90)%nat then ascii_of_nat (k + 32) else c.

Fixpoint lower (s : string) : string :=
  match s with
  | EmptyString => EmptyString
  | String c s' => String (lower_ascii c) (lower s')
  end.

(** The local variables of the ordering loop; [current] is the variable
    [i]. *)
Record loop_state (F : Type) : Type := mkLoop {
  seeds : list Z;
  ordering : list Z;
  core_distances : list (option F);   (* [None]: not yet written (np.ndarray) *)
  reachability_distances : list F;
  current : Z
}.
Arguments mkLoop {F}.
Arguments seeds {F}.
Arguments ordering {F}.
Arguments core_distances {F}.
Arguments reachability_distances {F}.
Arguments current {F}.

Section Optics.
Context {F : Type} `{Float F}.
(** A sample is a value of [P]; [dist] is the distance [cdist] computes
    between two samples. *)
Context {P : Type} (dist : P → P → F).

Variable X : list P.
Variable eps : F.
Variable min_samples : Z.

(** [cdist([X[i]], X).reshape(len(X))] *)
Definition cdist_row (i : Z) : outcome (list F) :=
  xi ← py_get X i;
  Return (map (dist xi) X).

(** Lines 216-218: the current point leaves the seeds and joins the
    ordering. *)
Definition take_current (st : loop_state F) : outcome (loop_state F) :=
  seeds' ← py_remove (seeds st) (current st);
  Return (mkLoop seeds' (ordering st ++ [current st]) (core_distances st)
            (reachability_distances st) (current st)).

(** Lines 220-237: the rest of the loop body. *)
Definition process_current (st : loop_state F) : outcome (loop_state F) :=
  let i := current st in
  D ← cdist_row i;
  core_dist ← py_get (np_sort D) min_samples;
  core_distances' ← py_set (core_distances st) i (Some core_dist);
  if fleb core_dist eps then
    let seeds_array := seeds st in
    D_seeds ← np_take D (seeds st);
    neighbors ← np_take seeds_array (np_where (map (fun d => fleb d eps) D_seeds));
    let cd := replicate (length neighbors) core_dist in
    d ← np_take D neighbors;
    let new_reach_dists := np_maximum cd d in
    reach ← np_put (reachability_distances st) neighbors new_reach_dists;
    reach_seeds ← np_take reach (seeds st);
    k ← np_argmin reach_seeds;
    i' ← py_get (seeds st) k;
    Return (mkLoop (seeds st) (ordering st) core_distances' reach i')
  else
    i' ← py_get (seeds st) 0;
    Return (mkLoop (seeds st) (ordering st) core_distances'
              (reachability_distances st) i').

Definition loop_body (st : loop_state F) : outcome (loop_state F) :=
  st' ← take_current st; process_current st'.

(** Lines 214-237.  The second component of the argument and of the result
    is the log of the distance rows requested from [cdist] so far, which
    is kept when the loop ends with an exception. *)
Fixpoint ordering_loop (fuel : nat) (st : loop_state F) (log : list Z)
    : list Z * outcome (loop_state F) :=
  if 1 <? len (seeds st) then
    match fuel with
    | O => (log, Raise OutOfFuel)
    | S fuel =>
      match take_current st with
      | Raise e => (log, Raise e)
      | Return st1 =>
        let log := log ++ [current st1] in
        match process_current st1 with
        | Raise e => (log, Raise e)
        | Return st2 => ordering_loop fuel st2 log
        end
      end
    end
  else (log, Return st).

(** Lines 205-212 *)
Definition initial_state : loop_state F :=
  let n := len X in
  mkLoop (xrange 0 n) [] (replicate (Z.to_nat n) None)
    (replicate (Z.to_nat n) finf) 0.

(** Lines 205-241: the ordering engine, with the log of its requests to
    [cdist]. *)
Definition ordering_engine
    : list Z * outcome (list (option F) * list Z * list F) :=
  let '(log, r) := ordering_loop (length X) initial_state [] in
  (log,
   st ← r;
   last ← py_get (seeds st) 0;
   reach ← py_set (reachability_distances st) 0 fzero;
   Return (core_distances st, ordering st ++ [last], reach)).

(** Lines 243-254 *)
Definition select_extraction (extraction : pyvalue) (ext_kwargs : gmap string F)
    (ordering : list Z) (reachability_distances : list F) : outcome (list Z) :=
  match extraction with
  | PyStr s =>
    let estr := lower s in
    match EXTRACTION_FUNCTIONS !! estr with
    | Some func => func ordering reachability_distances min_samples ext_kwargs
    | None => Raise (ValueError ("Unknown Extraction Method: " ++ estr))
    end
  | _ => Raise (TypeError "Extraction Method must be a string.")
  end.

(** The entry point.  Its parameter [metric] is never read by the body
    and is left out. *)
Definition optics (extraction : pyvalue) (ext_kwargs : gmap string F)
    : list Z * outcome (list (option F) * list Z * list F * list Z) :=
  let '(log, r) := ordering_engine in
  (log,
   '(core_distances, ordering, reachability_distances) ← r;
   labels ← select_extraction extraction ext_kwargs ordering reachability_distances;
   Return (core_distances, ordering, reachability_distances, labels)).
End Optics.

(** ** An instance: exact arithmetic on rationals with [+inf]

    Used for the concrete runs below.  On the inputs of these runs every
    value is a small integer or a fraction for which float64 arithmetic
    gives the same comparisons. *)

Module Exact.
Inductive xq : Type :=
| Fin (q : Q)
| Inf.

Definition xq_leb (x y : xq) : bool :=
  match x, y with
  | Fin a, Fin b => Qle_bool a b
  | _, Inf => true
  | Inf, Fin _ => false
  end.

Definition xq_mul (x y : xq) : xq :=
  match x, y with
  | Fin a, Fin b => Fin (Qred (a * b))
  | _, _ => Inf
  end.

(** [x / 0] is [+inf] for [x > 0]; [0 / 0] and [inf / inf] are NaN in
    float64, which every comparison rejects: they are sent to [0], which
    [ratio <= _] rejects as well for a positive ratio. *)
Definition xq_div (x y : xq) : xq :=
  match x, y with
  | Fin a, Fin b =>
    if Qeq_bool b 0 then (if Qle_bool a 0 then Fin 0 else Inf)
    else Fin (Qred (a / b))
  | Fin _, Inf => Fin 0
  | Inf, Fin _ => Inf
  | Inf, Inf => Fin 0
  end.

Fixpoint xq_sum (l : list xq) : xq :=
  match l with
  | [] => Fin 0
  | Fin a :: l' => match xq_sum l' with Fin b => Fin (a + b) | Inf => Inf end
  | Inf :: _ => Inf
  end.

Definition xq_mean (l : list xq) : xq :=
  match xq_sum l with
  | Fin s => Fin (Qred (s / inject_Z (Z.of_nat (length l))))
  | Inf => Inf
  end.

#[global] Instance xq_float : Float xq := {|
  fzero := Fin 0;
  finf := Inf;
  fleb := xq_leb;
  fmul := xq_mul;
  fdiv := xq_div;
  fmean := xq_mean;
  fconst := Fin
|}.

(** Samples on a line with integer coordinates. *)
Definition dist1 (a b : Z) : xq := Fin (inject_Z (Z.abs (a - b))).

(** An integer as a float. *)
Definition fz (z : Z) : xq := Fin (inject_Z z).
End Exact.

(** * Auxiliary definitions for the proofs *)

(** The array written by [np_put], as a function. *)
Definition put_all {A} (a : list A) (ivs : list (Z * A)) : list A :=
  foldl (fun a '(i, v) => <[Z.to_nat i := v]> a) a ivs.

Section LoopSpec.
Context {F : Type} `{Float F} {P : Type} (dist : P → P → F).
Variable X : list P.
Variable eps : F.
Variable min_samples : Z.

Definition getF (l : list F) (j : Z) : F := nth (Z.to_nat j) l fzero.

(** What holds of the variables at the loop test. *)
Record loop_inv (st : loop_state F) : Prop := {
  inv_sorted : StronglySorted Z.lt (seeds st);
  inv_perm : ordering st ++ seeds st ≡ₚ xrange 0 (len X);
  inv_current : current st ∈ seeds st;
  inv_core_len : length (core_distances st) = length X;
  inv_reach_len : length (reachability_distances st) = length X;
  inv_first : hd (current st) (ordering st) = 0
}.

(** What holds after the current point has joined the ordering. *)
Record mid_inv (st : loop_state F) : Prop := {
  mid_sorted : StronglySorted Z.lt (seeds st);
  mid_perm : ordering st ++ seeds st ≡ₚ xrange 0 (len X);
  mid_current : ∃ o, ordering st = o ++ [current st];
  mid_nonempty : seeds st ≠ [];
  mid_core_len : length (core_distances st) = length X;
  mid_reach_len : length (reachability_distances st) = length X;
  mid_first : hd 0 (ordering st) = 0
}.

(** The neighbours of the current point among the seeds (line 228). *)
Definition neighbors_of (D : list F) (sd : list Z) : list Z :=
  filter (fun j => fleb (getF D j) eps = true) sd.

(** The reachability array after line 234. *)
Definition updated_reach (c : F) (D : list F) (st : loop_state F) : list F :=
  let nb := neighbors_of D (seeds st) in
  put_all (reachability_distances st)
    (combine nb (map (fun j => fmax c (getF D j)) nb)).

(** Lines 223-237 for a core distance [c] and a distance row [D], with
    every index resolved. *)
Definition next_state (c : F) (D : list F) (st : loop_state F)
    : outcome (loop_state F) :=
  let core' := <[Z.to_nat (current st) := Some c]> (core_distances st) in
  if fleb c eps then
    let reach := updated_reach c D st in
    k ← np_argmin (map (getF reach) (seeds st));
    Return (mkLoop (seeds st) (ordering st) core' reach
              (nth (Z.to_nat k) (seeds st) 0))
  else
    Return (mkLoop (seeds st) (ordering st) core' (reachability_distances st)
              (hd 0 (seeds st))).

(** The index [min_samples] is valid for a row of distances. *)
Definition rank_ok : Prop := - len X ≤ min_samples < len X.

(** The states at the loop test. *)
Inductive reachable : loop_state F → Prop :=
| reachable_init : reachable (initial_state X)
| reachable_step (st st' : loop_state F) :
    reachable st → 1 < len (seeds st) →
    loop_body dist X eps min_samples st = Return st' → reachable st'.

(** Every point of the ordering has its core distance stored, and that
    value is the entry [min_samples] of its sorted distance row. *)
Definition core_ok (st : loop_state F) : Prop :=
  ∀ i, i ∈ ordering st →
    ∃ D c, cdist_row dist X i = Return D ∧
      core_distances st !! Z.to_nat i = Some (Some c) ∧
      py_get (np_sort D) min_samples = Return c.

End LoopSpec.

(** The range [(left, right)] of a node. *)
Definition rng (st : heap) (id : nat) : Z * Z :=
  (left (node_at st id), right (node_at st id)).

(** [chain lo hi l]: the ranges of [l] follow one another from left to
    right between [lo] and [hi]: each starts where or after the previous one
    ends. *)
Fixpoint chain (lo hi : Z) (l : list (Z * Z)) : Prop :=
  match l with
  | [] => lo ≤ hi
  | (a, b) :: l' => lo ≤ a ∧ a ≤ b ∧ chain b hi l'
  end.

(** The store [st'] has the nodes of [st], with the same ranges, and maybe
    more. *)
Definition extends (st st' : heap) : Prop :=
  (length (nodes st) ≤ length (nodes st'))%nat ∧
  ∀ id, (id < length (nodes st))%nat → rng st' id = rng st id.

(** The stores differ in [split] and [children] attributes only. *)
Definition same_shape (st st' : heap) : Prop :=
  length (nodes st') = length (nodes st) ∧ leaves st' = leaves st ∧
  ∀ id, rng st' id = rng st id.

(** The ranges of the leaves, in the order of the list [leaves]. *)
Definition leaf_ranges (st : heap) : list (Z * Z) := map (rng st) (leaves st).

(** [enumerate], by recursion. *)
Fixpoint enumerate_from {A} (k : Z) (l : list A) : list (Z * A) :=
  match l with
  | [] => []
  | x :: l' => (k, x) :: enumerate_from (k + 1) l'
  end.

(** The assignments of lines 135-137 as a list: the pair [(j, i)] stands
    for [labels[ordering[j]] = i]; [k] is the index of the first range. *)
Definition label_writes (k : Z) (ranges : list (Z * Z)) : list (Z * Z) :=
  flat_map (fun '(i, (a, b)) => map (fun j => (j, i)) (xrange a b))
    (enumerate_from k ranges).

(** The exception lines 250 and 252 raise for a value of [extraction] that
    selects no extraction function. *)
Definition config_error (extraction : pyvalue) : exn :=
  match extraction with
  | PyStr s => ValueError ("Unknown Extraction Method: " ++ lower s)
  | _ => TypeError "Extraction Method must be a string."
  end.

(** [extraction] is no string, or a string that is no key of the
    registry. *)
Definition unrecognized (extraction : pyvalue) : Prop :=
  match extraction with
  | PyStr s => lower s ≠ "hierarchical"%string
  | _ => True
  end.

(** The computation does not stop at the bound of the model. *)
Definition in_time {A} (c : outcome A) : Prop := c ≠ Raise OutOfFuel.

(** The condition under which a call [cluster_tree(node, parent, L)] can
    read [parent.split] and remove [node] from [parent.children]. *)
Definition parent_ok (n : Z) (st : heap) (node : nat) (parent : option nat) : Prop :=
  match parent with
  | None => True
  | Some par =>
    (par < length (nodes st))%nat ∧ par ≠ node ∧
    (∃ ps, split (node_at st par) = Some ps ∧ 0 ≤ ps < n) ∧
    node ∈ children (node_at st par)
  end.

(** What a call of [cluster_tree] on [node] leaves as it was, among the
    nodes below [base]: their children other than [node], and the splits of
    those other than [node]. *)
Definition frame (base node : nat) (st st' : heap) : Prop :=
  (∀ q x, (q < base)%nat → (x < base)%nat → x ≠ node →
     x ∈ children (node_at st q) → x ∈ children (node_at st' q)) ∧
  (∀ q, (q < base)%nat → q ≠ node →
     split (node_at st' q) = split (node_at st q)).

(** What a call [cluster_tree(node, parent, L)] with [fuel] needs: fuel for
    its list, a node with a range inside [0, n) that contains the candidates,
    and a parent as [parent_ok] says. *)
Definition call_ok (n : Z) (fuel : nat) (st : heap) (node : nat)
    (parent : option nat) (L : list Z) : Prop :=
  (length L < fuel)%nat ∧ (node < length (nodes st))%nat ∧
  0 ≤ (rng st node).1 ∧ (rng st node).1 ≤ (rng st node).2 ∧ (rng st node).2 ≤ n ∧
  Forall (fun x => (rng st node).1 ≤ x < (rng st node).2) L ∧
  parent_ok n st node parent.

(** The claim's notion: [k] is the arg-max of [R] over the positions
    [a <= j < b], the first one where the greatest value occurs more than
    once. *)
Definition window_argmax {F : Type} `{Float F} (R : list F) (a b k : Z) : Prop :=
  a ≤ k < b ∧
  ∃ rv, R !! Z.to_nat k = Some rv ∧
    ∀ j v, a ≤ j < b → R !! Z.to_nat j = Some v →
      fleb v rv = true ∧ (j < k → fltb v rv = true).

(** [i] comes before [j] in the list [l]. *)
Definition before (l : list Z) (i j : Z) : Prop :=
  ∃ a b : nat, l !! a = Some i ∧ l !! b = Some j ∧ (a < b)%nat.

Section ReachSpec.
Context {F : Type} `{Float F} {P : Type} (dist : P → P → F).
Variable X : list P.
Variable eps : F.
Variable min_samples : Z.

(** [r] is the value line 233 computes for the seed [j] while [i] is the
    current point: the greater of the core distance of [i] and the distance
    from [i] to [j]. *)
Definition reach_from (i j : Z) (r : F) : Prop :=
  ∃ D c d, cdist_row dist X i = Return D ∧
    py_get (np_sort D) min_samples = Return c ∧
    py_get D j = Return d ∧ r = fmax c d.

(** The same for a core point [i] that has [j] within the radius [eps]. *)
Definition reach_within (i j : Z) (r : F) : Prop :=
  ∃ D c d, cdist_row dist X i = Return D ∧
    py_get (np_sort D) min_samples = Return c ∧
    py_get D j = Return d ∧
    fleb c eps = true ∧ fleb d eps = true ∧ r = fmax c d.
End ReachSpec.

(** The test of line 105 for a split at position [s] of a node with the
    range [lo, hi): the two sides are [lo, s) and [s, hi), and [Rs] is
    [R[s]]. *)
Definition split_significant {F : Type} `{Float F} (R : list F) (significant_ratio : F)
    (lo hi s : Z) (Rs : F) : bool :=
  fleb (avg_reach (py_slice R lo s)) (fmul significant_ratio Rs)
  && fleb (avg_reach (py_slice R s hi)) (fmul significant_ratio Rs).

(** The names [hierarchical_extraction] accepts as keywords. *)
Definition ratio_names : gset string :=
  {[ "significant_ratio"%string; "similarity_ratio"%string; "min_reach_ratio"%string ]}.

(** A range of at least [m] positions, or one that touches an end of the
    plot of [n] positions: what the test of lines 107-112 lets through. *)
Definition large_or_outer (n m : Z) (ab : Z * Z) : Prop :=
  m ≤ ab.2 - ab.1 ∨ ab.1 = 0 ∨ ab.2 = n.
(** * Properties *)

(** ** Outcomes *)

Lemma bind_Return {A B} (c : outcome A) (k : A → outcome B) (b : B) :
  (c ≫= k) = Return b ↔ ∃ a, c = Return a ∧ k a = Return b.
Proof.
  destruct c as [a|e]; simpl; split.
  - eauto.
  - intros (a' & [= ->] & Hk); exact Hk.
  - discriminate.
  - intros (a' & [=] & _).
Qed.

(** Splits a hypothesis [(x ← c; k) = Return b] into its steps. *)
Ltac inv_bind H :=
  repeat (cbv beta zeta in H;
          match type of H with
          | (_ ≫= _) = Return _ =>
            let a := fresh "a" in
            let Ha := fresh "Hstep" in
            apply bind_Return in H; destruct H as (a & Ha & H)
          end).

Lemma mapM'_Return {A B} (f : A → outcome B) (l : list A) (r : list B) :
  mapM' f l = Return r ↔ Forall2 (fun x y => f x = Return y) l r.
Proof.
  revert r; induction l as [|x l IH]; intros r; simpl.
  - split; [intros [= <-]; constructor | inversion 1; reflexivity].
  - split.
    + intros Hm. inv_bind Hm. injection Hm as <-.
      constructor; [assumption | by apply IH].
    + inversion 1 as [|? y ? r' Hx Hr]; subst.
      rewrite Hx; simpl. apply IH in Hr. rewrite Hr; reflexivity.
Qed.

Lemma mapM'_ok {A B} (f : A → outcome B) (g : A → B) (l : list A) :
  Forall (fun x => f x = Return (g x)) l → mapM' f l = Return (map g l).
Proof.
  induction 1 as [|x l Hx _ IH]; simpl; [reflexivity|].
  rewrite Hx; simpl. rewrite IH; reflexivity.
Qed.

Lemma foldM_app {A B} (f : B → A → outcome B) (l1 l2 : list A) (acc : B) :
  foldM f (l1 ++ l2) acc = (foldM f l1 acc ≫= foldM f l2).
Proof.
  revert acc; induction l1 as [|x l1 IH]; intros acc; simpl; [reflexivity|].
  destruct (f acc x); simpl; [apply IH | reflexivity].
Qed.

Lemma registry_lookup {F : Type} `{Float F} (estr : string) :
  EXTRACTION_FUNCTIONS (F:=F) !! estr =
  if decide (estr = "hierarchical"%string) then Some hierarchical_extraction_kw else None.
Proof.
  unfold EXTRACTION_FUNCTIONS. destruct (decide _) as [->|Hne].
  - apply lookup_singleton_eq.
  - apply lookup_singleton_ne. congruence.
Qed.

(** ** Python lists *)

Lemma len_nonneg {A} (l : list A) : 0 ≤ len l.
Proof. unfold len; lia. Qed.

Lemma len_app {A} (l1 l2 : list A) : len (l1 ++ l2) = len l1 + len l2.
Proof. unfold len; rewrite length_app; lia. Qed.

Lemma len_replicate {A} (k : nat) (x : A) : len (replicate k x) = Z.of_nat k.
Proof. unfold len; by rewrite length_replicate. Qed.

Lemma len_map {A B} (f : A → B) (l : list A) : len (map f l) = len l.
Proof. unfold len; by rewrite length_map. Qed.

Lemma xrange_length (a b : Z) : length (xrange a b) = Z.to_nat (b - a).
Proof. unfold xrange; by rewrite length_map, length_seq. Qed.

Lemma elem_of_xrange (a b x : Z) : x ∈ xrange a b ↔ a ≤ x < b.
Proof.
  unfold xrange. rewrite list_elem_of_fmap. split.
  - intros (k & -> & Hk). apply elem_of_seq in Hk. lia.
  - intros Hx. exists (Z.to_nat (x - a)). split; [lia|].
    apply elem_of_seq. lia.
Qed.

Lemma xrange_lookup (a b : Z) (k : nat) :
  (k < Z.to_nat (b - a))%nat → xrange a b !! k = Some (a + Z.of_nat k).
Proof.
  intros Hk. unfold xrange. rewrite list_lookup_fmap, lookup_seq_lt by done.
  reflexivity.
Qed.

Lemma xrange_nil (a b : Z) : b ≤ a → xrange a b = [].
Proof. intros Hab. unfold xrange. by replace (Z.to_nat (b - a)) with 0%nat by lia. Qed.

Lemma xrange_cons (a b : Z) : a < b → xrange a b = a :: xrange (a + 1) b.
Proof.
  intros Hab. unfold xrange.
  replace (Z.to_nat (b - a)) with (S (Z.to_nat (b - (a + 1)))) by lia.
  simpl. f_equal; [lia|].
  rewrite <- seq_shift, map_map. apply map_ext. intros k. lia.
Qed.

Lemma xrange_snoc (a b : Z) : a ≤ b → xrange a (b + 1) = xrange a b ++ [b].
Proof.
  intros Hab. unfold xrange.
  replace (Z.to_nat (b + 1 - a)) with (Z.to_nat (b - a) + 1)%nat by lia.
  rewrite seq_app, map_app. simpl. do 2 f_equal. lia.
Qed.

Lemma xrange_NoDup (a b : Z) : NoDup (xrange a b).
Proof.
  unfold xrange. apply NoDup_fmap_2; [|apply NoDup_seq].
  intros x y Hxy. lia.
Qed.

(** Reading inside the bounds. *)
Lemma py_get_Return {A} (l : list A) (i : Z) (a : A) :
  0 ≤ i → py_get l i = Return a ↔ l !! Z.to_nat i = Some a.
Proof.
  intros Hi. unfold py_get.
  destruct (Z.ltb_spec i 0); [lia|].
  destruct (Z.leb_spec 0 i); [|lia]. simpl.
  destruct (Z.ltb_spec i (len l)) as [Hlt|Hge].
  - destruct (l !! Z.to_nat i) eqn:E; split; congruence.
  - split; [discriminate|].
    intros Hl. apply lookup_lt_Some in Hl. unfold len in Hge. lia.
Qed.

Lemma lookup_nth {A} (d : A) (l : list A) (i : nat) :
  (i < length l)%nat → l !! i = Some (nth i l d).
Proof. intros Hi. destruct (nth_lookup_or_length l i d); [done|lia]. Qed.

Lemma py_get_ok {A} (d : A) (l : list A) (i : Z) :
  0 ≤ i < len l → py_get l i = Return (nth (Z.to_nat i) l d).
Proof.
  intros Hi. apply py_get_Return; [lia|].
  destruct (lookup_lt_is_Some_2 l (Z.to_nat i)) as [x Hx];
    [unfold len in Hi; lia|].
  by rewrite (nth_lookup_Some _ _ d x Hx).
Qed.

Lemma py_get_bounds {A} (l : list A) (i : Z) (a : A) :
  py_get l i = Return a → - len l ≤ i < len l.
Proof.
  unfold py_get. intros Hg.
  destruct (Z.ltb_spec i 0);
    match type of Hg with (if ?c then _ else _) = _ => destruct c eqn:E end;
    try discriminate;
    rewrite andb_true_iff, Z.leb_le, Z.ltb_lt in E; lia.
Qed.

Lemma py_set_ok {A} (l : list A) (i : Z) (v : A) :
  0 ≤ i < len l → py_set l i v = Return (<[Z.to_nat i := v]> l).
Proof.
  intros Hi. unfold py_set.
  destruct (Z.ltb_spec i 0); [lia|].
  destruct (Z.leb_spec 0 i); [|lia].
  destruct (Z.ltb_spec i (len l)); [reflexivity|lia].
Qed.

Lemma py_set_length {A} (l l' : list A) (i : Z) (v : A) :
  py_set l i v = Return l' → length l' = length l.
Proof.
  unfold py_set. case_match; [|discriminate].
  intros [= <-]. apply length_insert.
Qed.

Lemma np_take_ok {A} (d : A) (a : list A) (idx : list Z) :
  Forall (fun i => 0 ≤ i < len a) idx →
  np_take a idx = Return (map (fun i => nth (Z.to_nat i) a d) idx).
Proof.
  intros Hidx. apply mapM'_ok. eapply Forall_impl; [exact Hidx|].
  intros i Hi. by apply py_get_ok.
Qed.

Lemma np_where_from_spec (k : Z) (mask : list bool) (i : Z) :
  i ∈ np_where_from k mask ↔ k ≤ i ∧ mask !! Z.to_nat (i - k) = Some true.
Proof.
  revert k; induction mask as [|b mask IH]; intros k; simpl.
  - rewrite elem_of_nil. split; [tauto|]. intros [_ Hl]. discriminate.
  - rewrite elem_of_app, IH. split.
    + intros [Hb|[Hk Hl]].
      * destruct b; [|by apply elem_of_nil in Hb].
        apply list_elem_of_singleton in Hb as ->.
        rewrite Z.sub_diag. split; [lia|reflexivity].
      * split; [lia|].
        replace (Z.to_nat (i - k)) with (S (Z.to_nat (i - (k + 1)))) by lia.
        exact Hl.
    + intros [Hk Hl]. destruct (decide (i = k)) as [->|Hne].
      * rewrite Z.sub_diag in Hl. injection Hl as ->. left. by apply list_elem_of_singleton.
      * right. split; [lia|].
        replace (Z.to_nat (i - k)) with (S (Z.to_nat (i - (k + 1)))) in Hl by lia.
        exact Hl.
Qed.

(** [l[np.where(mask)]] keeps the elements of [l] that satisfy the mask, in
    order. *)
Lemma np_take_where_from {A} (p : A → bool) (pre l : list A) :
  mapM' (py_get (pre ++ l)) (np_where_from (len pre) (map p l))
  = Return (filter (fun x => p x = true) l).
Proof.
  revert pre; induction l as [|x l IH]; intros pre; simpl; [reflexivity|].
  specialize (IH (pre ++ [x])).
  rewrite <- app_assoc in IH. simpl in IH.
  rewrite len_app in IH. change (len [x]) with 1 in IH.
  rewrite filter_cons.
  destruct (p x) eqn:Hp; simpl.
  - assert (Hg : py_get (pre ++ (x :: l)) (len pre) = Return x).
    { apply py_get_Return; [apply len_nonneg|].
      unfold len. rewrite Nat2Z.id. by rewrite list_lookup_middle. }
    rewrite Hg; simpl. rewrite IH; simpl.
    destruct (decide (true = true)); [reflexivity|congruence].
  - rewrite IH. destruct (decide (false = true)); [discriminate|reflexivity].
Qed.

Lemma np_take_where {A} (p : A → bool) (l : list A) :
  np_take l (np_where (map p l)) = Return (filter (fun x => p x = true) l).
Proof. exact (np_take_where_from p [] l). Qed.

Lemma py_pop_None {A} (l : list A) : py_pop l = None ↔ l = [].
Proof.
  unfold py_pop. destruct (rev l) eqn:E.
  - split; [|done]. intros _. apply (f_equal (@rev A)) in E.
    by rewrite rev_involutive in E.
  - split; [discriminate|]. intros ->. discriminate.
Qed.

Lemma py_pop_Some {A} (l l' : list A) (x : A) :
  py_pop l = Some (l', x) ↔ l = l' ++ [x].
Proof.
  unfold py_pop. destruct (rev l) as [|y r] eqn:E.
  - split; [discriminate|]. intros ->. rewrite rev_app_distr in E. discriminate.
  - apply (f_equal (@rev A)) in E. rewrite rev_involutive in E. simpl in E.
    split.
    + intros [= <- <-]. exact E.
    + intros ->. apply app_inj_tail in E as [-> ->]. reflexivity.
Qed.

Lemma py_remove_Return (l l' : list Z) (x : Z) :
  py_remove l x = Return l' ↔
  ∃ l1 l2, l = l1 ++ (x :: l2) ∧ (x ∉ l1) ∧ l' = l1 ++ l2.
Proof.
  revert l'; induction l as [|y l IH]; intros l'; simpl.
  - split; [discriminate|]. intros (l1 & l2 & Hl & _). by destruct l1.
  - destruct (Z.eqb_spec y x) as [->|Hne].
    + split.
      * intros [= <-]. exists [], l. split_and!; [done|apply not_elem_of_nil|done].
      * intros (l1 & l2 & Hl & Hx & ->). destruct l1 as [|z l1].
        -- injection Hl as ->. reflexivity.
        -- injection Hl as -> _. exfalso. apply Hx. left.
    + split.
      * intros Hr. inv_bind Hr. injection Hr as <-.
        apply IH in Hstep as (l1 & l2 & -> & Hx & ->).
        exists (y :: l1), l2. split_and!; [done| |done].
        rewrite not_elem_of_cons. split; [congruence|done].
      * intros (l1 & l2 & Hl & Hx & ->). destruct l1 as [|z l1].
        -- injection Hl as -> _. congruence.
        -- injection Hl as -> ->. apply not_elem_of_cons in Hx as [_ Hx].
           assert (Hr : py_remove (l1 ++ (x :: l2)) x = Return (l1 ++ l2)).
           { apply IH. eauto. }
           rewrite Hr. reflexivity.
Qed.

Lemma put_all_length {A} (a : list A) ivs : length (put_all a ivs) = length a.
Proof.
  revert a; induction ivs as [|[i v] ivs IH]; intros a; simpl; [done|].
  by rewrite IH, length_insert.
Qed.

Lemma np_put_ok {A} (a : list A) (idx : list Z) (vals : list A) :
  Forall (fun i => 0 ≤ i < len a) idx →
  np_put a idx vals = Return (put_all a (combine idx vals)).
Proof.
  unfold np_put. intros Hidx. revert a vals Hidx.
  induction idx as [|i idx IH]; intros a vals Hidx; [reflexivity|].
  destruct vals as [|v vals]; [reflexivity|].
  apply Forall_cons in Hidx as [Hi Hidx]. simpl.
  rewrite py_set_ok by done. simpl. apply IH.
  eapply Forall_impl; [exact Hidx|]. intros j Hj.
  unfold len in *. by rewrite length_insert.
Qed.

Lemma put_all_notin {A} (a : list A) ivs (j : Z) :
  0 ≤ j → Forall (fun iv => 0 ≤ fst iv) ivs → j ∉ map fst ivs →
  put_all a ivs !! Z.to_nat j = a !! Z.to_nat j.
Proof.
  intros Hj. revert a; induction ivs as [|[i v] ivs IH]; intros a Hnn Hnot; [done|].
  apply Forall_cons in Hnn as [Hi Hnn]. simpl in *.
  apply not_elem_of_cons in Hnot as [Hne Hnot].
  rewrite IH by done. apply list_lookup_insert_ne. lia.
Qed.

Lemma put_all_in {A} (a : list A) ivs (j : Z) (v : A) :
  0 ≤ j < len a → Forall (fun iv => 0 ≤ fst iv) ivs → NoDup (map fst ivs) →
  (j, v) ∈ ivs → put_all a ivs !! Z.to_nat j = Some v.
Proof.
  intros Hj. revert a Hj; induction ivs as [|[i w] ivs IH]; intros a Hj Hnn Hnd Hin.
  - by apply elem_of_nil in Hin.
  - apply Forall_cons in Hnn as [Hi Hnn]. simpl in *.
    apply NoDup_cons in Hnd as [Hfresh Hnd].
    apply elem_of_cons in Hin as [[= <- <-]|Hin].
    + rewrite put_all_notin by done.
      apply list_lookup_insert_eq. unfold len in Hj. lia.
    + apply IH; try done. unfold len in *. by rewrite length_insert.
Qed.

Section NumpyProps.
Context {F : Type} `{Float F}.

Lemma np_maximum_replicate (c : F) (d : list F) :
  np_maximum (replicate (length d) c) d = map (fmax c) d.
Proof.
  unfold np_maximum. induction d as [|x d IH]; simpl; [done|]. by rewrite IH.
Qed.

Lemma argmin_from_bounds (best : Z) (bv : F) (k : Z) (l : list F) :
  let r := argmin_from best bv k l in
  r = best ∨ k ≤ r < k + len l.
Proof.
  revert best bv k; induction l as [|x l IH]; intros best bv k; simpl; [by left|].
  unfold len; simpl length. destruct (fltb x bv).
  - destruct (IH k x (k + 1)) as [->|Hr]; right; unfold len in *; lia.
  - destruct (IH best bv (k + 1)) as [->|Hr]; [by left|right; unfold len in *; lia].
Qed.

Lemma np_argmin_bounds (l : list F) (r : Z) :
  np_argmin l = Return r → 0 ≤ r < len l.
Proof.
  destruct l as [|x l]; [discriminate|]. intros [= <-].
  unfold len; simpl length.
  destruct (argmin_from_bounds 0 x 1 l) as [->|Hr]; unfold len in *; lia.
Qed.

Lemma np_argmin_ok (l : list F) : l ≠ [] → ∃ r, np_argmin l = Return r.
Proof. destruct l; [done|]. intros _. eexists; reflexivity. Qed.

Lemma argmax_from_bounds (best : Z) (bv : F) (k : Z) (l : list F) :
  let r := argmax_from best bv k l in
  r = best ∨ k ≤ r < k + len l.
Proof.
  revert best bv k; induction l as [|x l IH]; intros best bv k; simpl; [by left|].
  unfold len; simpl length. destruct (fltb bv x).
  - destruct (IH k x (k + 1)) as [->|Hr]; right; unfold len in *; lia.
  - destruct (IH best bv (k + 1)) as [->|Hr]; [by left|right; unfold len in *; lia].
Qed.

Lemma np_argmax_bounds (l : list F) (r : Z) :
  np_argmax l = Return r → 0 ≤ r < len l.
Proof.
  destruct l as [|x l]; [discriminate|]. intros [= <-].
  unfold len; simpl length.
  destruct (argmax_from_bounds 0 x 1 l) as [->|Hr]; unfold len in *; lia.
Qed.

Lemma sort_insert_perm (x : F) (l : list F) : sort_insert x l ≡ₚ x :: l.
Proof.
  induction l as [|y l IH]; simpl; [done|].
  destruct (fleb x y); [done|]. rewrite IH. apply Permutation_swap.
Qed.

Lemma np_sort_perm (a : list F) : np_sort a ≡ₚ a.
Proof.
  unfold np_sort. induction a as [|x a IH]; simpl; [done|].
  by rewrite sort_insert_perm, IH.
Qed.

Lemma np_sort_length (a : list F) : length (np_sort a) = length a.
Proof. apply Permutation_length, np_sort_perm. Qed.

Section Order.
Context `{!FloatOrder F}.

Lemma fleb_refl (x : F) : fleb x x = true.
Proof. by destruct (fleb_total x x). Qed.

Lemma fltb_fleb (x y : F) : fltb x y = true → fleb x y = true.
Proof.
  unfold fltb. destruct (fleb y x) eqn:E; [discriminate|]. intros _.
  destruct (fleb_total x y); congruence.
Qed.

Lemma fltb_fleb_trans (x y z : F) :
  fltb x y = true → fleb y z = true → fltb x z = true.
Proof.
  unfold fltb. intros Hxy Hyz. apply negb_true_iff in Hxy.
  apply negb_true_iff. destruct (fleb z x) eqn:E; [|done].
  assert (fleb y x = true) by (eapply fleb_trans; eassumption).
  congruence.
Qed.

Lemma sort_insert_sorted (x : F) (l : list F) :
  Sorted (fun a b => fleb a b = true) l →
  Sorted (fun a b => fleb a b = true) (sort_insert x l).
Proof.
  induction 1 as [|y l Hl IH Hhd]; simpl.
  - repeat constructor.
  - destruct (fleb x y) eqn:E.
    + constructor; [by constructor|]. by constructor.
    + constructor; [exact IH|].
      assert (Hyx : fleb y x = true) by (destruct (fleb_total x y); congruence).
      destruct l as [|z l]; simpl; [by constructor|].
      destruct (fleb x z); constructor; [done|]. by inversion Hhd.
Qed.

Lemma np_sort_sorted (a : list F) :
  Sorted (fun x y => fleb x y = true) (np_sort a).
Proof.
  unfold np_sort. induction a as [|x a IH]; simpl; [constructor|].
  by apply sort_insert_sorted.
Qed.

(** [argmin_from] continues a scan of [pre ++ l] that is at the end of
    [pre]: it returns a position of a least value, the first one. *)
Lemma argmin_from_spec (pre l : list F) (best : nat) (bv : F) :
  pre !! best = Some bv →
  (∀ j v, pre !! j = Some v → fleb bv v = true) →
  (∀ j v, pre !! j = Some v → (j < best)%nat → fltb bv v = true) →
  ∃ (r : nat) (rv : F),
    argmin_from (Z.of_nat best) bv (len pre) l = Z.of_nat r ∧
    (pre ++ l) !! r = Some rv ∧
    (∀ j v, (pre ++ l) !! j = Some v → fleb rv v = true) ∧
    (∀ j v, (pre ++ l) !! j = Some v → (j < r)%nat → fltb rv v = true).
Proof.
  revert pre best bv; induction l as [|x l IH]; intros pre best bv Hb Hle Hlt; simpl.
  - exists best, bv. rewrite app_nil_r. done.
  - replace (pre ++ (x :: l)) with ((pre ++ [x]) ++ l) by by rewrite <- app_assoc.
    replace (len pre + 1) with (len (pre ++ [x])) by by rewrite len_app.
    destruct (fltb x bv) eqn:Hx.
    + replace (len pre) with (Z.of_nat (length pre)) at 1 by done.
      apply IH.
      * by rewrite lookup_app_r, Nat.sub_diag.
      * intros j v Hj. apply lookup_app_Some in Hj as [Hj|[_ Hj]].
        -- apply fltb_fleb. eapply fltb_fleb_trans; [exact Hx|]. by eapply Hle.
        -- apply list_lookup_singleton_Some in Hj as [_ <-]. apply fleb_refl.
      * intros j v Hj Hjk. apply lookup_app_Some in Hj as [Hj|[Hge _]]; [|lia].
        eapply fltb_fleb_trans; [exact Hx|]. by eapply Hle.
    + apply IH.
      * by apply lookup_app_l_Some.
      * intros j v Hj. apply lookup_app_Some in Hj as [Hj|[_ Hj]]; [by eapply Hle|].
        apply list_lookup_singleton_Some in Hj as [_ <-].
        unfold fltb in Hx. by apply negb_false_iff in Hx.
      * intros j v Hj Hjb. apply lookup_app_Some in Hj as [Hj|[Hge _]].
        -- by eapply Hlt.
        -- apply lookup_lt_Some in Hb. lia.
Qed.

Lemma np_argmin_spec (l : list F) (k : Z) :
  np_argmin l = Return k →
  ∃ (r : nat) (rv : F), k = Z.of_nat r ∧ l !! r = Some rv ∧
    (∀ j v, l !! j = Some v → fleb rv v = true) ∧
    (∀ j v, l !! j = Some v → (j < r)%nat → fltb rv v = true).
Proof.
  destruct l as [|x l]; [discriminate|]. intros [= <-].
  destruct (argmin_from_spec [x] l 0 x) as (r & rv & Hr & Hrest); try done.
  - intros [|j] v; [|done]. intros [= <-]. apply fleb_refl.
  - intros; lia.
  - exists r, rv. split; [exact Hr|exact Hrest].
Qed.
End Order.
End NumpyProps.

Lemma bind_ret_l {A B} (a : A) (k : A → outcome B) : (Return a ≫= k) = k a.
Proof. reflexivity. Qed.

Lemma xrange_sorted (a b : Z) : StronglySorted Z.lt (xrange a b).
Proof.
  destruct (Z.le_gt_cases b a) as [Hle|Hlt]; [rewrite xrange_nil by done; constructor|].
  remember (Z.to_nat (b - a)) as k eqn:Hk.
  revert a Hlt Hk; induction k as [|k IH]; intros a Hlt Hk; [lia|].
  rewrite xrange_cons by done. constructor.
  - destruct (Z.le_gt_cases b (a + 1)); [rewrite xrange_nil by done; constructor|].
    apply IH; lia.
  - apply Forall_forall. intros x Hx. apply elem_of_xrange in Hx. lia.
Qed.

Lemma StronglySorted_lt_NoDup (l : list Z) : StronglySorted Z.lt l → NoDup l.
Proof.
  induction 1 as [|x l _ IH Hx]; constructor; [|done].
  intros Hin. rewrite Forall_forall in Hx. specialize (Hx _ Hin). lia.
Qed.

(** ** The ordering loop *)

Section OrderingProps.
Context {F : Type} `{Float F} {P : Type} (dist : P → P → F).
Variable X : list P.
Variable eps : F.
Variable min_samples : Z.

Lemma initial_inv : 1 ≤ len X → loop_inv X (initial_state X).
Proof.
  intros Hn. unfold initial_state. constructor; simpl.
  - apply xrange_sorted.
  - done.
  - apply elem_of_xrange. lia.
  - rewrite length_replicate. unfold len. lia.
  - rewrite length_replicate. unfold len. lia.
  - done.
Qed.

Lemma seeds_in_range (o s : list Z) (j : Z) :
  o ++ s ≡ₚ xrange 0 (len X) → j ∈ o ++ s → 0 ≤ j < len X.
Proof. intros Hp Hj. rewrite Hp in Hj. by apply elem_of_xrange in Hj. Qed.

Lemma take_current_spec (st : loop_state F) :
  loop_inv X st → 1 < len (seeds st) →
  ∃ l1 l2,
    seeds st = l1 ++ (current st :: l2) ∧
    take_current st =
      Return (mkLoop (l1 ++ l2) (ordering st ++ [current st]) (core_distances st)
                (reachability_distances st) (current st)) ∧
    mid_inv X (mkLoop (l1 ++ l2) (ordering st ++ [current st]) (core_distances st)
               (reachability_distances st) (current st)).
Proof.
  intros [Hs Hp Hc Hcl Hrl Hf] Hlen.
  apply list_elem_of_split in Hc as (l1 & l2 & Hsplit).
  assert (Hnd : NoDup (seeds st)) by by apply StronglySorted_lt_NoDup.
  assert (Hnot : current st ∉ l1).
  { rewrite Hsplit in Hnd. apply NoDup_app in Hnd as (_ & Hd & _).
    intros Hin. apply (Hd _ Hin). left. }
  exists l1, l2. split; [done|]. split.
  - unfold take_current.
    assert (Hr : py_remove (seeds st) (current st) = Return (l1 ++ l2)).
    { apply py_remove_Return. eauto. }
    rewrite Hr. reflexivity.
  - constructor; simpl.
    + rewrite Hsplit in Hs. apply StronglySorted_app in Hs as (H12 & H1 & H2).
      apply StronglySorted_app. split_and!; [|done|by inversion H2].
      intros x1 x2 Hx1 Hx2. apply H12; [done|by right].
    + rewrite <- Hp, Hsplit. rewrite <- !app_assoc. apply Permutation_app_head.
      simpl. by rewrite Permutation_middle.
    + eauto.
    + rewrite Hsplit in Hlen. unfold len in Hlen.
      rewrite length_app in Hlen. simpl in Hlen.
      intros Hnil. apply app_eq_nil in Hnil as [-> ->]. simpl in Hlen. lia.
    + done.
    + done.
    + destruct (ordering st); simpl in *; [done|done].
Qed.

Lemma take_current_seeds (st st1 : loop_state F) :
  take_current st = Return st1 →
  ∃ l1 l2, seeds st = l1 ++ (current st :: l2) ∧ (current st ∉ l1) ∧
    st1 = mkLoop (l1 ++ l2) (ordering st ++ [current st]) (core_distances st)
            (reachability_distances st) (current st).
Proof.
  unfold take_current. intros Ht. inv_bind Ht. injection Ht as <-.
  apply py_remove_Return in Hstep as (l1 & l2 & Hs & Hn & ->). eauto.
Qed.

Lemma mid_seeds_range (st : loop_state F) :
  mid_inv X st → Forall (fun j => 0 ≤ j < len X) (seeds st).
Proof.
  intros Hm. apply Forall_forall. intros j Hj.
  eapply seeds_in_range; [apply (mid_perm _ _ Hm)|].
  apply elem_of_app. by right.
Qed.

Lemma mid_current_range (st : loop_state F) :
  mid_inv X st → 0 ≤ current st < len X.
Proof.
  intros Hm. destruct (mid_current _ _ Hm) as [o Ho].
  eapply seeds_in_range; [apply (mid_perm _ _ Hm)|].
  rewrite Ho. rewrite !elem_of_app. left; right. by apply list_elem_of_singleton.
Qed.

Lemma process_current_eq (st : loop_state F) :
  mid_inv X st →
  ∃ xi, X !! Z.to_nat (current st) = Some xi ∧
    process_current dist X eps min_samples st =
    (c ← py_get (np_sort (map (dist xi) X)) min_samples;
     next_state eps c (map (dist xi) X) st).
Proof.
  intros Hm.
  pose proof (mid_current_range _ Hm) as Hi.
  pose proof (mid_seeds_range _ Hm) as Hsd.
  destruct (lookup_lt_is_Some_2 X (Z.to_nat (current st))) as [xi Hxi];
    [unfold len in Hi; lia|].
  exists xi. split; [done|].
  unfold process_current, cdist_row.
  assert (Hg : py_get X (current st) = Return xi) by (apply py_get_Return; [lia|done]).
  rewrite Hg, !bind_ret_l.
  set (D := map (dist xi) X).
  destruct (py_get (np_sort D) min_samples) as [c|e]; [|reflexivity].
  rewrite !bind_ret_l.
  rewrite py_set_ok by (unfold len; rewrite (mid_core_len _ _ Hm); exact Hi).
  rewrite bind_ret_l. unfold next_state.
  destruct (fleb c eps) eqn:Hc.
  - assert (HlenD : len D = len X) by (unfold D; apply len_map).
    rewrite (np_take_ok fzero D (seeds st)) by (by rewrite HlenD).
    rewrite bind_ret_l, map_map, np_take_where, bind_ret_l.
    change (filter _ (seeds st)) with (neighbors_of eps D (seeds st)).
    assert (Hnb : Forall (fun j => 0 ≤ j < len X) (neighbors_of eps D (seeds st))).
    { apply Forall_forall. intros j Hj. apply list_elem_of_filter in Hj as [_ Hj].
      rewrite Forall_forall in Hsd. by apply Hsd. }
    rewrite (np_take_ok fzero D (neighbors_of eps D (seeds st))) by (by rewrite HlenD).
    rewrite bind_ret_l.
    replace (length (neighbors_of eps D (seeds st)))
      with (length (map (fun i => nth (Z.to_nat i) D fzero) (neighbors_of eps D (seeds st))))
      by apply length_map.
    rewrite np_maximum_replicate, map_map.
    rewrite np_put_ok by (unfold len; rewrite (mid_reach_len _ _ Hm); exact Hnb).
    rewrite bind_ret_l.
    change (put_all _ _) with (updated_reach eps c D st).
    rewrite (np_take_ok fzero (updated_reach eps c D st) (seeds st)).
    2:{ unfold updated_reach, len. rewrite put_all_length, (mid_reach_len _ _ Hm). exact Hsd. }
    rewrite bind_ret_l.
    change (map _ (seeds st)) with (map (getF (updated_reach eps c D st)) (seeds st)).
    destruct (np_argmin (map (getF (updated_reach eps c D st)) (seeds st))) as [k|e] eqn:Hk;
      [|reflexivity].
    rewrite !bind_ret_l.
    apply np_argmin_bounds in Hk. rewrite len_map in Hk.
    rewrite (py_get_ok 0) by done. reflexivity.
  - destruct (seeds st) as [|s0 sd] eqn:Hseeds; [by destruct (mid_nonempty _ _ Hm)|].
    rewrite (py_get_ok 0) by (unfold len; simpl; lia). reflexivity.
Qed.

Lemma next_state_inv (c : F) (D : list F) (st st' : loop_state F) :
  mid_inv X st → next_state eps c D st = Return st' →
  loop_inv X st' ∧ seeds st' = seeds st ∧ ordering st' = ordering st ∧
  core_distances st' = <[Z.to_nat (current st) := Some c]> (core_distances st).
Proof.
  intros Hm. unfold next_state.
  assert (Hhd : ∀ d, hd d (ordering st) = 0).
  { intros d. destruct (mid_current _ _ Hm) as [o Ho]. pose proof (mid_first _ _ Hm) as Hf.
    destruct (ordering st); [by destruct o|done]. }
  destruct (fleb c eps).
  - intros Hn. inv_bind Hn. injection Hn as <-. simpl.
    split; [|done].
    apply np_argmin_bounds in Hstep. rewrite len_map in Hstep.
    constructor; simpl; try apply Hm.
    + apply list_elem_of_lookup. exists (Z.to_nat a).
      apply lookup_nth. unfold len in Hstep. lia.
    + rewrite length_insert. apply Hm.
    + unfold updated_reach. rewrite put_all_length. apply Hm.
    + apply Hhd.
  - intros [= <-]. simpl. split; [|done].
    constructor; simpl; try apply Hm.
    + destruct (seeds st) eqn:E; [by destruct (mid_nonempty _ _ Hm)|]. left.
    + rewrite length_insert. apply Hm.
    + apply Hhd.
Qed.

Lemma py_get_total {A} (l : list A) (i : Z) :
  - len l ≤ i < len l → ∃ a, py_get l i = Return a.
Proof.
  intros Hi. unfold py_get.
  set (j := if i <? 0 then i + len l else i).
  assert (Hj : 0 ≤ j < len l) by (unfold j; destruct (Z.ltb_spec i 0); lia).
  destruct (Z.leb_spec 0 j); [|lia]. destruct (Z.ltb_spec j (len l)); [|lia].
  simpl. destruct (lookup_lt_is_Some_2 l (Z.to_nat j)) as [a Ha];
    [unfold len in Hj; lia|].
  rewrite Ha. eauto.
Qed.

Lemma loop_body_inv (st st' : loop_state F) :
  loop_inv X st → 1 < len (seeds st) →
  loop_body dist X eps min_samples st = Return st' →
  loop_inv X st' ∧ ordering st' = ordering st ++ [current st] ∧
  ∃ l1 l2, seeds st = l1 ++ (current st :: l2) ∧ seeds st' = l1 ++ l2.
Proof.
  intros Hinv Hlen Hb. unfold loop_body in Hb.
  destruct (take_current_spec st Hinv Hlen) as (l1 & l2 & Hs & Ht & Hm).
  rewrite Ht, bind_ret_l in Hb.
  destruct (process_current_eq _ Hm) as (xi & Hxi & Hp).
  rewrite Hp in Hb. inv_bind Hb.
  destruct (next_state_inv _ _ _ _ Hm Hb) as (Hi' & Hs' & Ho' & _).
  simpl in *. split; [done|]. split; [done|]. eauto.
Qed.

Lemma loop_body_ok (st : loop_state F) :
  loop_inv X st → 1 < len (seeds st) → rank_ok X min_samples →
  ∃ st', loop_body dist X eps min_samples st = Return st'.
Proof.
  intros Hinv Hlen Hrank. unfold loop_body.
  destruct (take_current_spec st Hinv Hlen) as (l1 & l2 & Hs & Ht & Hm).
  rewrite Ht, bind_ret_l.
  destruct (process_current_eq _ Hm) as (xi & Hxi & Hp). rewrite Hp.
  destruct (py_get_total (np_sort (map (dist xi) X)) min_samples) as [c Hc].
  { unfold len. rewrite np_sort_length, length_map. exact Hrank. }
  rewrite Hc, bind_ret_l. unfold next_state.
  destruct (fleb c eps); [|eauto].
  simpl seeds.
  destruct (np_argmin_ok (map (getF (updated_reach eps c (map (dist xi) X)
             (mkLoop (l1 ++ l2) (ordering st ++ [current st]) (core_distances st)
                (reachability_distances st) (current st)))) (l1 ++ l2))) as [k Hk].
  { intros Hnil. apply map_eq_nil in Hnil. by apply (mid_nonempty _ _ Hm). }
  simpl in Hk. rewrite Hk. eauto.
Qed.

Lemma reachable_inv (st : loop_state F) :
  1 ≤ len X → reachable dist X eps min_samples st → loop_inv X st.
Proof.
  intros Hn. induction 1 as [|st st' _ IH Hlen Hb]; [by apply initial_inv|].
  by destruct (loop_body_inv _ _ IH Hlen Hb).
Qed.

Lemma ordering_loop_reachable (fuel : nat) (st st' : loop_state F) (log log' : list Z) :
  reachable dist X eps min_samples st → ordering_loop dist X eps min_samples fuel st log = (log', Return st') →
  reachable dist X eps min_samples st' ∧ len (seeds st') ≤ 1.
Proof.
  revert st log; induction fuel as [|fuel IH]; intros st log Hr; simpl.
  - destruct (Z.ltb_spec 1 (len (seeds st))); [discriminate|].
    intros [= <- <-]. done.
  - destruct (Z.ltb_spec 1 (len (seeds st))) as [Hlt|Hge]; [|by intros [= <- <-]].
    destruct (take_current st) as [st1|e] eqn:Ht; [|discriminate].
    destruct (process_current dist X eps min_samples st1) as [st2|e] eqn:Hp; [|discriminate].
    apply IH. eapply reachable_step; [exact Hr|exact Hlt|].
    unfold loop_body. by rewrite Ht, bind_ret_l.
Qed.

Lemma ordering_loop_ok (fuel : nat) (st : loop_state F) (log : list Z) :
  loop_inv X st → rank_ok X min_samples → (length (seeds st) ≤ S fuel)%nat →
  ∃ log' st', ordering_loop dist X eps min_samples fuel st log = (log', Return st').
Proof.
  revert st log; induction fuel as [|fuel IH]; intros st log Hinv Hrank Hfuel; simpl.
  - destruct (Z.ltb_spec 1 (len (seeds st))) as [Hlt|Hge]; [unfold len in Hlt; lia|eauto].
  - destruct (Z.ltb_spec 1 (len (seeds st))) as [Hlt|Hge]; [|eauto].
    destruct (loop_body_ok st Hinv Hlt Hrank) as [st' Hb].
    destruct (loop_body_inv _ _ Hinv Hlt Hb) as (Hinv' & _ & l1 & l2 & Hs & Hs').
    unfold loop_body in Hb.
    destruct (take_current st) as [st1|e]; [|discriminate].
    rewrite bind_ret_l in Hb. rewrite Hb.
    apply IH; [done|done|].
    rewrite Hs in Hfuel. rewrite Hs'. rewrite length_app in *. simpl in Hfuel. lia.
Qed.

(** The result of the ordering engine in terms of the last state of the
    loop. *)
Lemma ordering_engine_Return cd ord reach :
  (ordering_engine dist X eps min_samples).2 = Return (cd, ord, reach) →
  1 ≤ len X ∧
  ∃ st, reachable dist X eps min_samples st ∧ seeds st = [current st] ∧
    cd = core_distances st ∧ ord = ordering st ++ [current st] ∧
    reach = <[0%nat := fzero]> (reachability_distances st).
Proof.
  unfold ordering_engine.
  destruct (ordering_loop dist X eps min_samples (length X) (initial_state X) [])
    as [log r] eqn:Hloop.
  simpl. intros Hr. inv_bind Hr. subst r.
  apply ordering_loop_reachable in Hloop as [Hreach Hlen]; [|constructor].
  rename a into st. rename a0 into last.
  assert (Hn : 1 ≤ len X).
  { destruct (Z.le_gt_cases 1 (len X)) as [|Hlt]; [done|]. exfalso.
    assert (Hst : st = initial_state X).
    { clear -Hreach Hlt. induction Hreach as [|st st' _ IH Hl _]; [done|].
      subst st. unfold initial_state in Hl. simpl in Hl.
      unfold len in Hl at 1. rewrite xrange_length in Hl. lia. }
    subst st. unfold initial_state in Hstep0. simpl in Hstep0.
    rewrite xrange_nil in Hstep0 by lia. discriminate. }
  split; [done|]. exists st.
  pose proof (reachable_inv _ Hn Hreach) as Hinv.
  assert (Hs : seeds st = [current st]).
  { destruct (seeds st) as [|x [|y s]] eqn:E.
    - pose proof (inv_current _ _ Hinv) as Hc. rewrite E in Hc. by apply elem_of_nil in Hc.
    - pose proof (inv_current _ _ Hinv) as Hc. rewrite E in Hc.
      by apply list_elem_of_singleton in Hc as ->.
    - unfold len in Hlen. simpl in Hlen. lia. }
  rewrite Hs in Hstep0. injection Hstep0 as <-.
  rewrite py_set_ok in Hstep1
    by (unfold len in *; rewrite (inv_reach_len _ _ Hinv); lia).
  injection Hstep1 as <-. injection Hr as <- <- <-. done.
Qed.

Lemma ordering_engine_ok :
  1 ≤ len X → len X = 1 ∨ rank_ok X min_samples →
  ∃ res, (ordering_engine dist X eps min_samples).2 = Return res.
Proof.
  intros Hn Hrank. unfold ordering_engine.
  assert (∃ log st, ordering_loop dist X eps min_samples (length X) (initial_state X) []
                    = (log, Return st) ∧ reachable dist X eps min_samples st) as (log & st & Hloop & Hreach).
  { destruct Hrank as [H1|Hrank].
    - exists [], (initial_state X). split; [|constructor].
      destruct X as [|x [|y X']]; try (unfold len in H1; simpl in H1; lia). reflexivity.
    - destruct (ordering_loop_ok (length X) (initial_state X) []) as (log & st & Hl);
        [by apply initial_inv|done| |].
      + unfold initial_state. simpl. rewrite xrange_length. unfold len. lia.
      + exists log, st. split; [done|].
        by apply ordering_loop_reachable in Hl as [? _]; [|constructor]. }
  rewrite Hloop. simpl.
  pose proof (reachable_inv _ Hn Hreach) as Hinv.
  destruct (seeds st) as [|x s] eqn:E.
  { pose proof (inv_current _ _ Hinv) as Hc. rewrite E in Hc. by apply elem_of_nil in Hc. }
  rewrite (py_get_ok 0) by (unfold len; simpl; lia). rewrite bind_ret_l.
  rewrite py_set_ok by (unfold len in *; rewrite (inv_reach_len _ _ Hinv); lia).
  rewrite bind_ret_l. eauto.
Qed.
End OrderingProps.

Section CoreDistances.
Context {F : Type} `{Float F} {P : Type} (dist : P → P → F).
Variable X : list P.
Variable eps : F.
Variable min_samples : Z.

Lemma ordering_seeds_disjoint (st : loop_state F) (i : Z) :
  loop_inv X st → i ∈ ordering st → i ∈ seeds st → False.
Proof.
  intros Hinv Ho Hs.
  assert (Hnd : NoDup (ordering st ++ seeds st)).
  { rewrite (inv_perm _ _ Hinv). apply xrange_NoDup. }
  apply NoDup_app in Hnd as (_ & Hd & _). by apply (Hd i).
Qed.

Lemma reachable_core_ok (st : loop_state F) :
  1 ≤ len X → reachable dist X eps min_samples st → core_ok dist X min_samples st.
Proof.
  intros Hn. induction 1 as [|st st' Hr IH Hlen Hb].
  - intros i Hi. by apply elem_of_nil in Hi.
  - pose proof (reachable_inv _ _ _ _ _ Hn Hr) as Hinv.
    unfold loop_body in Hb.
    destruct (take_current_spec X st Hinv Hlen) as (l1 & l2 & Hs & Ht & Hm).
    rewrite Ht, bind_ret_l in Hb.
    destruct (process_current_eq dist X eps min_samples _ Hm) as (xi & Hxi & Hp).
    rewrite Hp in Hb. inv_bind Hb. rename a into c.
    destruct (next_state_inv _ _ _ _ _ _ Hm Hb) as (Hinv' & Hs' & Ho' & Hc').
    simpl in *. intros i Hi. rewrite Ho' in Hi.
    pose proof (mid_current_range _ _ Hm) as Hcur. simpl in Hcur.
    apply elem_of_app in Hi as [Hi|Hi].
    + destruct (IH i Hi) as (D & c0 & HD & Hcd & Hrank).
      exists D, c0. split_and!; [done| |done].
      rewrite Hc'. rewrite list_lookup_insert_ne; [done|].
      assert (i ≠ current st).
      { intros ->. eapply ordering_seeds_disjoint; [exact Hinv|exact Hi|].
        apply Hinv. }
      assert (0 ≤ i < len X).
      { eapply seeds_in_range; [apply (inv_perm _ _ Hinv)|].
        apply elem_of_app. by left. }
      lia.
    + apply list_elem_of_singleton in Hi as ->.
      exists (map (dist xi) X), c. split_and!; [|..|done].
      * unfold cdist_row.
        assert (Hg : py_get X (current st) = Return xi) by (apply py_get_Return; [lia|done]).
        by rewrite Hg.
      * rewrite Hc'. apply list_lookup_insert_eq.
        rewrite (inv_core_len _ _ Hinv). unfold len in Hcur. lia.
Qed.
End CoreDistances.

(** * The claims on the ordering engine *)

(** C5.  Whenever the ordering engine returns, its ordering is a
    permutation of [0, n): it has length n, no duplicates, and contains every
    point index.  For n >= 1 points the engine does return, provided the
    rank [min_samples] exists in a distance row (or n = 1, when no row is
    computed). *)
Theorem ordering_is_permutation {F : Type} `{Float F} {P : Type}
    (dist : P → P → F) (X : list P) (eps : F) (min_samples : Z) :
  (∀ cd ord reach,
     (ordering_engine dist X eps min_samples).2 = Return (cd, ord, reach) →
     ord ≡ₚ xrange 0 (len X) ∧ len ord = len X ∧ NoDup ord ∧
     ∀ p, 0 ≤ p < len X → p ∈ ord) ∧
  (1 ≤ len X → len X = 1 ∨ - len X ≤ min_samples < len X →
   ∃ res, (ordering_engine dist X eps min_samples).2 = Return res).
Proof.
  split; [|apply ordering_engine_ok].
  intros cd ord reach Hr.
  apply ordering_engine_Return in Hr as (Hn & st & Hreach & Hs & _ & -> & _).
  pose proof (reachable_inv _ _ _ _ _ Hn Hreach) as Hinv.
  assert (Hp : ordering st ++ [current st] ≡ₚ xrange 0 (len X)).
  { rewrite <- Hs. apply Hinv. }
  split_and!.
  - exact Hp.
  - unfold len in *. rewrite (Permutation_length Hp), xrange_length. lia.
  - rewrite Hp. apply xrange_NoDup.
  - intros p Hp'. rewrite Hp. by apply elem_of_xrange.
Qed.

(** C7.  Whenever the ordering engine returns, the reachability distance
    of the point placed first in the ordering is exactly 0 (that point is
    always point 0, the one line 241 resets); and the engine returns for
    n >= 1 points and a valid rank. *)
Theorem first_point_reachability_zero {F : Type} `{Float F} {P : Type}
    (dist : P → P → F) (X : list P) (eps : F) (min_samples : Z) :
  (∀ cd ord reach,
     (ordering_engine dist X eps min_samples).2 = Return (cd, ord, reach) →
     ∃ first, py_get ord 0 = Return first ∧ py_get reach first = Return fzero) ∧
  (1 ≤ len X → len X = 1 ∨ - len X ≤ min_samples < len X →
   ∃ res, (ordering_engine dist X eps min_samples).2 = Return res).
Proof.
  split; [|apply ordering_engine_ok].
  intros cd ord reach Hr.
  apply ordering_engine_Return in Hr as (Hn & st & Hreach & Hs & _ & -> & ->).
  pose proof (reachable_inv _ _ _ _ _ Hn Hreach) as Hinv.
  exists 0. split.
  - apply py_get_Return; [lia|]. pose proof (inv_first _ _ Hinv) as Hf.
    destruct (ordering st); simpl in *; by rewrite Hf.
  - apply py_get_Return; [lia|]. apply list_lookup_insert_eq.
    rewrite (inv_reach_len _ _ Hinv). unfold len in Hn. lia.
Qed.

(** C6.  For a rank [0 <= min_samples < n], every point [i] of the ordering
    but the last has as its stored core distance the entry of rank
    [min_samples] (0-based) of its distance row sorted in ascending order;
    the row includes the distance of [i] to itself. *)
Theorem core_distance_is_rank {F : Type} `{FloatOrder F} {P : Type}
    (dist : P → P → F) (X : list P) (eps : F) (min_samples : Z)
    (cd : list (option F)) (ord : list Z) (reach : list F) (k : nat) (i : Z) :
  0 ≤ min_samples < len X →
  (ordering_engine dist X eps min_samples).2 = Return (cd, ord, reach) →
  (k < length ord - 1)%nat → ord !! k = Some i →
  ∃ (D sorted : list F) (c : F),
    cdist_row dist X i = Return D ∧
    sorted ≡ₚ D ∧ Sorted (fun x y => fleb x y = true) sorted ∧
    sorted !! Z.to_nat min_samples = Some c ∧
    py_get cd i = Return (Some c).
Proof.
  intros Hrank Hr Hk Hi.
  apply ordering_engine_Return in Hr as (Hn & st & Hreach & Hs & -> & -> & _).
  pose proof (reachable_inv _ _ _ _ _ Hn Hreach) as Hinv.
  rewrite length_app in Hk. simpl in Hk.
  rewrite lookup_app_l in Hi by lia.
  assert (Hin : i ∈ ordering st) by (apply list_elem_of_lookup; eauto).
  destruct (reachable_core_ok _ _ _ _ _ Hn Hreach i Hin) as (D & c & HD & Hc & Hrk).
  exists D, (np_sort D), c. split_and!.
  - exact HD.
  - apply np_sort_perm.
  - apply np_sort_sorted.
  - by apply py_get_Return in Hrk; [|lia].
  - apply py_get_Return; [|done].
    eapply (seeds_in_range X (ordering st) (seeds st)); [apply Hinv|].
    apply elem_of_app. by left.
Qed.

Section LoopStep.
Context {F : Type} `{Float F} {P : Type} (dist : P → P → F).
Variable X : list P.
Variable eps : F.
Variable min_samples : Z.

Lemma reachable_nonempty (st : loop_state F) :
  reachable dist X eps min_samples st → 1 < len (seeds st) → 1 ≤ len X.
Proof.
  intros Hr. assert (Hcases : st = initial_state X ∨ 1 ≤ len X).
  { induction Hr as [|st st' _ IH Hlen _]; [by left|]. right.
    destruct IH as [->|]; [|done]. unfold initial_state in Hlen. simpl in Hlen.
    unfold len in Hlen at 1. rewrite xrange_length in Hlen. lia. }
  destruct Hcases as [->|]; [|done]. unfold initial_state. simpl.
  unfold len at 1. rewrite xrange_length. lia.
Qed.

Lemma combine_map_fst {A B} (f : A → B) (l : list A) :
  map fst (combine l (map f l)) = l.
Proof. induction l as [|x l IH]; simpl; [done|]. by rewrite IH. Qed.

Lemma elem_of_combine_map {A B} (f : A → B) (l : list A) (x : A) :
  x ∈ l → (x, f x) ∈ combine l (map f l).
Proof.
  induction l as [|y l IH]; simpl; [by intros ?%elem_of_nil|].
  intros [->|Hx]%elem_of_cons; [left|right; by apply IH].
Qed.

Lemma getF_lookup (l : list F) (j : Z) :
  getF l j = default fzero (l !! Z.to_nat j).
Proof. apply nth_lookup. Qed.

(** The effect of line 234 on every entry of the reachability array. *)
Lemma updated_reach_spec (c : F) (D : list F) (st : loop_state F) (j : Z) :
  mid_inv X st → 0 ≤ j →
  (j ∈ neighbors_of eps D (seeds st) →
     getF (updated_reach eps c D st) j = fmax c (getF D j)) ∧
  (j ∉ neighbors_of eps D (seeds st) →
     getF (updated_reach eps c D st) j = getF (reachability_distances st) j).
Proof.
  intros Hm Hj.
  rewrite (getF_lookup (updated_reach eps c D st)),
    (getF_lookup (reachability_distances st)).
  unfold updated_reach.
  set (nb := neighbors_of eps D (seeds st)).
  assert (Hnn : Forall (fun iv : Z * F => 0 ≤ iv.1)
                  (combine nb (map (fun j => fmax c (getF D j)) nb))).
  { apply Forall_forall. intros [i v] Hiv. simpl.
    assert (Hi : i ∈ map fst (combine nb (map (fun j => fmax c (getF D j)) nb))).
    { apply list_elem_of_fmap. by exists (i, v). }
    rewrite combine_map_fst in Hi. apply list_elem_of_filter in Hi as [_ Hi].
    pose proof (mid_seeds_range _ _ Hm) as Hsd. rewrite Forall_forall in Hsd.
    by apply Hsd. }
  split; intros Hin.
  - rewrite (put_all_in _ _ j (fmax c (getF D j))); [done| |done| |].
    + split; [done|]. apply list_elem_of_filter in Hin as [_ Hin].
      pose proof (mid_seeds_range _ _ Hm) as Hsd. rewrite Forall_forall in Hsd.
      unfold len. rewrite (mid_reach_len _ _ Hm). by apply Hsd.
    + rewrite combine_map_fst. apply NoDup_filter.
      apply StronglySorted_lt_NoDup, Hm.
    + by apply (elem_of_combine_map (fun j => fmax c (getF D j))).
  - rewrite put_all_notin; [done|done|done|]. by rewrite combine_map_fst.
Qed.

Lemma sorted_lookup_lt (l : list Z) (a b : nat) (x y : Z) :
  StronglySorted Z.lt l → l !! a = Some x → l !! b = Some y → x < y → (a < b)%nat.
Proof.
  intros Hs. revert a b; induction Hs as [|z l Hs IH Hz]; intros a b Ha Hb Hxy; [done|].
  rewrite Forall_forall in Hz.
  destruct a as [|a], b as [|b]; simpl in *.
  - injection Ha as ->. injection Hb as ->. lia.
  - lia.
  - injection Hb as ->. apply list_elem_of_lookup_2 in Ha. specialize (Hz _ Ha). lia.
  - apply -> Nat.succ_lt_mono. by eapply IH.
Qed.

(** One iteration, resolved: the row of the current point, its core
    distance, and the next state. *)
Lemma loop_body_resolve (st st' : loop_state F) :
  reachable dist X eps min_samples st → 1 < len (seeds st) →
  loop_body dist X eps min_samples st = Return st' →
  ∃ D c mid,
    cdist_row dist X (current st) = Return D ∧
    py_get (np_sort D) min_samples = Return c ∧
    take_current st = Return mid ∧ mid_inv X mid ∧
    reachability_distances mid = reachability_distances st ∧
    (∀ j, j ∈ seeds mid ↔ j ∈ seeds st ∧ j ≠ current st) ∧
    next_state eps c D mid = Return st' ∧ loop_inv X st'.
Proof.
  intros Hr Hlen Hb.
  pose proof (reachable_nonempty _ Hr Hlen) as Hn.
  pose proof (reachable_inv _ _ _ _ _ Hn Hr) as Hinv.
  unfold loop_body in Hb.
  destruct (take_current_spec X st Hinv Hlen) as (l1 & l2 & Hs & Ht & Hm).
  rewrite Ht, bind_ret_l in Hb.
  destruct (process_current_eq dist X eps min_samples _ Hm) as (xi & Hxi & Hp).
  rewrite Hp in Hb. inv_bind Hb. rename a into c.
  destruct (next_state_inv _ _ _ _ _ _ Hm Hb) as (Hinv' & _).
  pose proof (mid_current_range _ _ Hm) as Hcur. simpl in *.
  exists (map (dist xi) X), c, (mkLoop (l1 ++ l2) (ordering st ++ [current st])
    (core_distances st) (reachability_distances st) (current st)).
  split_and!; try done.
  - unfold cdist_row.
    assert (Hg : py_get X (current st) = Return xi) by (apply py_get_Return; [lia|done]).
    by rewrite Hg.
  - intros j. simpl. rewrite Hs.
    assert (Hnd : NoDup (l1 ++ (current st :: l2))).
    { rewrite <- Hs. apply StronglySorted_lt_NoDup, Hinv. }
    apply NoDup_app in Hnd as (_ & Hd & Hnd2). apply NoDup_cons in Hnd2 as [Hc2 _].
    rewrite !elem_of_app, elem_of_cons. split.
    + intros [Hj|Hj]; (split; [tauto|]); intros ->; [|done].
      apply (Hd _ Hj). left.
    + intros [[Hj|[->|Hj]] Hne]; [by left|done|by right].
Qed.
End LoopStep.

(** C9.  At every loop test the seeds are in strictly ascending order of
    point index and are the points that are not yet in the ordering.  An
    iteration appends the current point to the ordering, removes it, and
    nothing else, from the seeds, and chooses the next one among the
    remaining seeds: when the current point is no core point, the smallest
    remaining index; when it is, a seed of least reachability, and among
    those the one of lowest index. *)
Theorem seeds_ascending_lowest_index_first {F : Type} `{FloatOrder F} {P : Type}
    (dist : P → P → F) (X : list P) (eps : F) (min_samples : Z)
    (st : loop_state F) :
  reachable dist X eps min_samples st →
  StronglySorted Z.lt (seeds st) ∧
  ordering st ++ seeds st ≡ₚ xrange 0 (len X) ∧
  ∀ st', 1 < len (seeds st) → loop_body dist X eps min_samples st = Return st' →
    ∃ D c,
      cdist_row dist X (current st) = Return D ∧
      py_get (np_sort D) min_samples = Return c ∧
      current st ∈ seeds st ∧
      ordering st' = ordering st ++ [current st] ∧
      (∀ j, j ∈ seeds st' ↔ j ∈ seeds st ∧ j ≠ current st) ∧
      len (seeds st') = len (seeds st) - 1 ∧
      StronglySorted Z.lt (seeds st') ∧
      current st' ∈ seeds st' ∧
      (fleb c eps = false → ∀ j, j ∈ seeds st' → current st' ≤ j) ∧
      (fleb c eps = true → ∀ j, j ∈ seeds st' →
         let r := getF (reachability_distances st') in
         fleb (r (current st')) (r j) = true ∧
         (j < current st' → fltb (r (current st')) (r j) = true)).
Proof.
  intros Hr.
  assert (Hsp : StronglySorted Z.lt (seeds st) ∧
                ordering st ++ seeds st ≡ₚ xrange 0 (len X)).
  { destruct (Z.le_gt_cases 1 (len X)) as [Hn|Hn].
    - split; apply (reachable_inv _ _ _ _ _ Hn Hr).
    - assert (st = initial_state X) as ->.
      { clear -Hr Hn. induction Hr as [|st st' _ IH Hl _]; [done|].
        subst st. unfold initial_state in Hl. simpl in Hl.
        unfold len in Hl at 1. rewrite xrange_length in Hl. lia. }
      split; [apply xrange_sorted|done]. }
  destruct Hsp as [Hsorted Hperm]. split_and!; [exact Hsorted|exact Hperm|].
  - intros st' Hlen Hb.
    destruct (loop_body_resolve _ _ _ _ _ _ Hr Hlen Hb)
      as (D & c & mid & HD & Hc & Ht & Hm & _ & _ & Hnext & Hinv').
    pose proof (reachable_nonempty _ _ _ _ _ Hr Hlen) as Hn.
    pose proof (reachable_inv _ _ _ _ _ Hn Hr) as Hinv.
    destruct (loop_body_inv _ _ _ _ _ _ Hinv Hlen Hb) as (_ & Ho & l1 & l2 & Hs1 & Hs2).
    assert (Hnds : NoDup (l1 ++ current st :: l2)).
    { rewrite <- Hs1. by apply StronglySorted_lt_NoDup. }
    apply NoDup_app in Hnds as (_ & Hd & Hnd2). apply NoDup_cons in Hnd2 as [Hc2 _].
    assert (Hrest : ∀ j, j ∈ seeds st' ↔ j ∈ seeds st ∧ j ≠ current st).
    { intros j. rewrite Hs1, Hs2, !elem_of_app, elem_of_cons. split.
      - intros [Hj|Hj]; (split; [tauto|]); intros ->; [|done].
        apply (Hd _ Hj). left.
      - intros [[Hj|[->|Hj]] Hne]; [by left|done|by right]. }
    assert (Hlen' : len (seeds st') = len (seeds st) - 1).
    { rewrite Hs1, Hs2. unfold len. rewrite !length_app. simpl. lia. }
    exists D, c. split_and!; try done; try apply Hinv'; try apply Hinv.
    + intros Hce j Hj. unfold next_state in Hnext. rewrite Hce in Hnext.
      injection Hnext as <-. simpl in *.
      pose proof (mid_sorted _ _ Hm) as Hs.
      destruct (seeds mid) as [|s0 sd]; [by apply elem_of_nil in Hj|]. simpl.
      apply elem_of_cons in Hj as [->|Hj]; [lia|].
      apply StronglySorted_inv in Hs as [_ Hs]. rewrite Forall_forall in Hs.
      specialize (Hs _ Hj). lia.
    + intros Hce j Hj. unfold next_state in Hnext. rewrite Hce in Hnext.
      inv_bind Hnext. injection Hnext as <-. simpl in *. rename a into k.
      apply np_argmin_spec in Hstep as (r & rv & -> & Hrv & Hle & Hlt).
      rewrite Nat2Z.id.
      apply list_lookup_fmap_Some in Hrv as (sr & -> & Hsr).
      rewrite (nth_lookup_Some _ _ _ _ Hsr).
      apply list_elem_of_lookup in Hj as [jj Hjj].
      assert (Hmj : map (getF (updated_reach eps c D mid)) (seeds mid) !! jj
                    = Some (getF (updated_reach eps c D mid) j)).
      { by rewrite list_lookup_fmap, Hjj. }
      split; [by eapply Hle|].
      intros Hjs. eapply Hlt; [exact Hmj|].
      eapply sorted_lookup_lt; [apply Hm|exact Hjj|exact Hsr|exact Hjs].
Qed.

(** C1, as the code has it.  An iteration whose current point [i] is a core
    point overwrites the stored reachability distance of every remaining
    seed [j] with [distance(i, j) <= eps] by [max(CoreDistance[i],
    distance(i, j))], whatever the stored value was, and leaves the other
    seeds unchanged; an iteration whose current point is no core point
    changes no reachability distance; the entry of a point that is no longer
    a seed is never changed. *)
Theorem reachability_update_overwrites {F : Type} `{Float F} {P : Type}
    (dist : P → P → F) (X : list P) (eps : F) (min_samples : Z)
    (st st' : loop_state F) :
  reachable dist X eps min_samples st → 1 < len (seeds st) →
  loop_body dist X eps min_samples st = Return st' →
  ∃ D c,
    cdist_row dist X (current st) = Return D ∧
    py_get (np_sort D) min_samples = Return c ∧
    (fleb c eps = true → ∀ j, j ∈ seeds st' →
       (fleb (getF D j) eps = true →
          getF (reachability_distances st') j = fmax c (getF D j)) ∧
       (fleb (getF D j) eps = false →
          getF (reachability_distances st') j = getF (reachability_distances st) j)) ∧
    (fleb c eps = false → reachability_distances st' = reachability_distances st) ∧
    (∀ j, 0 ≤ j → j ∉ seeds st' →
       getF (reachability_distances st') j = getF (reachability_distances st) j).
Proof.
  intros Hr Hlen Hb.
  destruct (loop_body_resolve _ _ _ _ _ _ Hr Hlen Hb)
    as (D & c & mid & HD & Hc & Ht & Hm & Hreach & Hseeds & Hnext & Hinv').
  exists D, c. split_and!; try done.
  - intros Hce j Hj. unfold next_state in Hnext. rewrite Hce in Hnext.
    inv_bind Hnext. injection Hnext as <-. simpl in *.
    assert (Hj0 : 0 ≤ j).
    { pose proof (mid_seeds_range _ _ Hm) as Hsd. rewrite Forall_forall in Hsd.
      by apply Hsd. }
    destruct (updated_reach_spec X eps c D mid j Hm Hj0) as [Hin Hout].
    rewrite <- Hreach. split; intros Hd.
    + apply Hin. apply list_elem_of_filter. done.
    + apply Hout. intros [Hd' _]%list_elem_of_filter. congruence.
  - intros Hce. unfold next_state in Hnext. rewrite Hce in Hnext.
    injection Hnext as <-. simpl. done.
  - intros j Hj0 Hj. unfold next_state in Hnext.
    destruct (fleb c eps).
    + inv_bind Hnext. injection Hnext as <-. simpl in *.
      destruct (updated_reach_spec X eps c D mid j Hm Hj0) as [_ Hout].
      rewrite <- Hreach. apply Hout. intros [_ Hin]%list_elem_of_filter. done.
    + injection Hnext as <-. simpl. by rewrite Hreach.
Qed.


(** ** The cluster tree *)

Lemma chain_bounds (lo hi : Z) (l : list (Z * Z)) : chain lo hi l → lo ≤ hi.
Proof.
  revert lo; induction l as [|[a b] l IH]; intros lo; simpl; [done|].
  intros (? & ? & Hc). apply IH in Hc. lia.
Qed.

Lemma chain_weaken (lo lo' hi hi' : Z) (l : list (Z * Z)) :
  lo' ≤ lo → hi ≤ hi' → chain lo hi l → chain lo' hi' l.
Proof.
  revert lo lo'; induction l as [|[a b] l IH]; intros lo lo' Hlo Hhi; simpl; [lia|].
  intros (? & ? & Hc). split_and!; [lia|lia|]. by apply (IH b b).
Qed.

Lemma chain_app (lo mid hi : Z) (l1 l2 : list (Z * Z)) :
  chain lo mid l1 → chain mid hi l2 → chain lo hi (l1 ++ l2).
Proof.
  revert lo; induction l1 as [|[a b] l1 IH]; intros lo; simpl.
  - intros Hlo Hc. by apply (chain_weaken mid lo hi hi).
  - intros (? & ? & Hc) H2. split_and!; [done|done|]. by apply IH.
Qed.

Lemma chain_within (lo hi : Z) (l : list (Z * Z)) (a b : Z) :
  chain lo hi l → (a, b) ∈ l → lo ≤ a ∧ a ≤ b ∧ b ≤ hi.
Proof.
  revert lo; induction l as [|[a' b'] l IH]; intros lo; simpl.
  - intros _ Hin. by apply elem_of_nil in Hin.
  - intros (? & ? & Hc) [[= -> ->]|Hin]%elem_of_cons.
    + apply chain_bounds in Hc. lia.
    + destruct (IH _ Hc Hin) as (? & ? & ?). lia.
Qed.

Lemma chain_ordered (lo hi : Z) (l : list (Z * Z)) (i j : nat) (a b a' b' : Z) :
  chain lo hi l → l !! i = Some (a, b) → l !! j = Some (a', b') → (i < j)%nat →
  b ≤ a'.
Proof.
  revert lo i j; induction l as [|[x y] l IH]; intros lo i j; simpl; [done|].
  intros (? & ? & Hc) Hi Hj Hij.
  destruct j as [|j]; [lia|]. destruct i as [|i]; simpl in *.
  - injection Hi as -> ->. apply list_elem_of_lookup_2 in Hj.
    destruct (chain_within _ _ _ _ _ Hc Hj) as (? & _). done.
  - eapply IH; [exact Hc|exact Hi|exact Hj|lia].
Qed.

Lemma extends_refl (st : heap) : extends st st.
Proof. split; [lia|done]. Qed.

Lemma extends_trans (st1 st2 st3 : heap) :
  extends st1 st2 → extends st2 st3 → extends st1 st3.
Proof.
  intros [Hl1 H1] [Hl2 H2]. split; [lia|].
  intros id Hid. rewrite H2 by lia. by apply H1.
Qed.

Lemma same_shape_extends (st st' : heap) : same_shape st st' → extends st st'.
Proof. intros (Hl & _ & Hr). split; [lia|]. intros id _. apply Hr. Qed.

Lemma same_shape_refl (st : heap) : same_shape st st.
Proof. done. Qed.

Lemma same_shape_trans (st1 st2 st3 : heap) :
  same_shape st1 st2 → same_shape st2 st3 → same_shape st1 st3.
Proof.
  intros (Hl1 & Hv1 & H1) (Hl2 & Hv2 & H2). split_and!; [congruence|congruence|].
  intros id. by rewrite H2, H1.
Qed.

Lemma update_node_same_shape (id : nat) (f : Node → Node) (st : heap) :
  (∀ nd, left (f nd) = left nd ∧ right (f nd) = right nd) →
  same_shape st (update_node id f st).
Proof.
  intros Hf. unfold same_shape, update_node. simpl. split_and!.
  - apply length_alter.
  - done.
  - intros id'. unfold rng, node_at. simpl.
    destruct (decide (id = id')) as [->|Hne].
    + rewrite list_lookup_alter_eq. destruct (nodes st !! id') as [nd|]; simpl; [|done].
      destruct (Hf nd) as [-> ->]. done.
    + by rewrite list_lookup_alter_ne.
Qed.

Lemma set_split_same_shape (id : nat) (s : Z) (st : heap) :
  same_shape st (set_split id s st).
Proof. apply update_node_same_shape. done. Qed.

Lemma append_child_same_shape (id c : nat) (st : heap) :
  same_shape st (append_child id c st).
Proof. apply update_node_same_shape. done. Qed.

Lemma remove_child_same_shape (id c : nat) (st st' : heap) :
  remove_child id c st = Return st' → same_shape st st'.
Proof.
  unfold remove_child. intros Hr. inv_bind Hr. injection Hr as <-.
  apply update_node_same_shape. done.
Qed.

Lemma append_children_same_shape (id : nat) (kids : list (nat * list Z)) (st : heap) :
  same_shape st (foldl (fun st '(child, _) => append_child id child st) st kids).
Proof.
  revert st; induction kids as [|[c Lc] kids IH]; intros st; simpl; [done|].
  eapply same_shape_trans; [apply append_child_same_shape|apply IH].
Qed.

Lemma new_node_spec (l r : Z) (st : heap) :
  let id := (new_node l r st).1 in
  let st' := (new_node l r st).2 in
  id = length (nodes st) ∧ length (nodes st') = S (length (nodes st)) ∧
  leaves st' = leaves st ∧ rng st' id = (l, r) ∧ extends st st'.
Proof.
  unfold new_node, extends, rng, node_at. simpl. split_and!.
  - done.
  - rewrite length_app. simpl. lia.
  - done.
  - rewrite lookup_app_r by done. by rewrite Nat.sub_diag.
  - rewrite length_app. lia.
  - intros id Hid. by rewrite lookup_app_l.
Qed.

Section ClusterTree.
Context {F : Type} `{Float F}.
Variable R : list F.
Variable n : Z.
Variable min_cluster_size : Z.
Variables significant_ratio similarity_ratio : F.

Lemma attach_children_same_shape node parent Rs kids st p st' :
  attach_children R similarity_ratio node parent Rs kids st = Return (p, st') →
  same_shape st st'.
Proof.
  unfold attach_children. destruct parent as [par|].
  - intros Ha. inv_bind Ha. destruct (fleb _ _).
    + inv_bind Ha. injection Ha as <- <-.
      eapply same_shape_trans; [apply append_children_same_shape|].
      by eapply remove_child_same_shape.
    + injection Ha as <- <-. apply append_children_same_shape.
  - intros [= <- <-]. apply append_children_same_shape.
Qed.

(** The candidates on one side of the split. *)
Lemma side_in_range (lo hi s : Z) (L : list Z) :
  Forall (fun x => lo ≤ x < hi) L →
  Forall (fun x => lo ≤ x < s) (filter (fun x => (x <? s) = true) L) ∧
  Forall (fun x => s ≤ x < hi) (filter (fun x => (s <? x) = true) L).
Proof.
  rewrite !Forall_forall. intros HL. split; intros x [Hx Hin]%list_elem_of_filter;
    specialize (HL _ Hin); lia.
Qed.

(** One step of [cluster_tree], with the stores it goes through named. *)
Lemma cluster_tree_S (fuel node : nat) (parent : option nat) (L L0 : list Z) (s : Z)
    (st st1 : heap) (nl nr : nat * heap) :
  py_pop L = Some (L0, s) →
  st1 = set_split node s st →
  nl = new_node (left (node_at st1 node)) s st1 →
  nr = new_node s (right (node_at nl.2 node)) nl.2 →
  cluster_tree R n min_cluster_size significant_ratio similarity_ratio
    (S fuel) node parent L st =
  (L_left ← np_take L0 (np_where (map (fun x => x <? s) L0));
   L_right ← np_take L0 (np_where (map (fun x => s <? x) L0));
   Rs ← py_get R s;
   if significant R significant_ratio nr.2 nl.1 nr.1 Rs then
     match kept_children n min_cluster_size nr.2 nl.1 nr.1 L_left L_right with
     | [] => Return (add_leaf node nr.2)
     | kids =>
       '(p, st) ← attach_children R similarity_ratio node parent Rs kids nr.2;
       foldM (fun st '(child, L) =>
                cluster_tree R n min_cluster_size significant_ratio similarity_ratio
                  fuel child (Some p) L st) kids st
     end
   else cluster_tree R n min_cluster_size significant_ratio similarity_ratio
          fuel node parent L0 nr.2).
Proof. intros Hpop -> -> ->. simpl. rewrite Hpop. reflexivity. Qed.

Lemma map_rng_extends (st st' : heap) (l : list nat) :
  extends st st' → Forall (fun id => (id < length (nodes st))%nat) l →
  map (rng st') l = map (rng st) l.
Proof.
  intros [_ He] Hl. apply map_ext_Forall. eapply Forall_impl; [exact Hl|].
  intros id Hid. by apply He.
Qed.

Lemma kept_children_cases (st : heap) (cl cr : nat) (Ll Lr : list Z) :
  let kids := kept_children n min_cluster_size st cl cr Ll Lr in
  kids = [] ∨ kids = [(cl, Ll)] ∨ kids = [(cr, Lr)] ∨ kids = [(cl, Ll); (cr, Lr)].
Proof.
  unfold kept_children. simpl.
  destruct (_ || _); destruct (_ || _); simpl; tauto.
Qed.

(** The leaves a call of [cluster_tree] appends form a chain inside the
    range of its node. *)
Lemma cluster_tree_leaves (fuel : nat) :
  ∀ (node : nat) (parent : option nat) (L : list Z) (st st' : heap),
    (node < length (nodes st))%nat →
    (rng st node).1 ≤ (rng st node).2 →
    Forall (fun x => (rng st node).1 ≤ x < (rng st node).2) L →
    cluster_tree R n min_cluster_size significant_ratio similarity_ratio
      fuel node parent L st = Return st' →
    extends st st' ∧
    ∃ new, leaves st' = leaves st ++ new ∧
      Forall (fun id => (id < length (nodes st'))%nat) new ∧
      chain (rng st node).1 (rng st node).2 (map (rng st') new).
Proof.
  induction fuel as [|fuel IH]; intros node parent L st st' Hnode Hle HL Hct;
    [discriminate|].
  destruct (py_pop L) as [[L0 s]|] eqn:Hpop.
  2:{ simpl in Hct. rewrite Hpop in Hct.
      injection Hct as <-. split; [by split|].
      exists [node]. split_and!; [done|by constructor|].
      unfold rng, node_at in *. simpl in *. lia. }
  remember (set_split node s st) as st1 eqn:Hst1.
  remember (new_node (left (node_at st1 node)) s st1) as nl eqn:Hnl.
  remember (new_node s (right (node_at nl.2 node)) nl.2) as nr eqn:Hnr.
  rewrite (cluster_tree_S _ _ _ _ _ _ _ _ _ _ Hpop Hst1 Hnl Hnr) in Hct.
  apply py_pop_Some in Hpop. subst L.
  apply Forall_app in HL as [HL0 Hs]. rewrite Forall_singleton in Hs.
  repeat (rewrite np_take_where in Hct || rewrite bind_ret_l in Hct).
  inv_bind Hct. rename a into Rs.
  (* the stores before the test *)
  pose proof (set_split_same_shape node s st) as (Hlen1 & Hlv1 & Hrng1).
  rewrite <- Hst1 in Hlen1, Hlv1, Hrng1.
  pose proof (new_node_spec (left (node_at st1 node)) s st1) as Hl'.
  rewrite <- Hnl in Hl'. cbv zeta in Hl'.
  destruct Hl' as (Hidl & Hlenl & Hlvl & Hrngl & Hextl).
  pose proof (new_node_spec s (right (node_at nl.2 node)) nl.2) as Hr'.
  rewrite <- Hnr in Hr'. cbv zeta in Hr'.
  destruct Hr' as (Hidr & Hlenr & Hlvr & Hrngr & Hextr).
  clear Hst1 Hnl Hnr.
  set (lo := (rng st node).1) in *. set (hi := (rng st node).2) in *.
  assert (Hn1 : rng nl.2 node = rng st node).
  { rewrite (proj2 Hextl) by lia. apply Hrng1. }
  assert (Hn2 : rng nr.2 node = rng st node).
  { rewrite (proj2 Hextr) by lia. exact Hn1. }
  assert (Hcl : rng nr.2 nl.1 = (lo, s)).
  { rewrite (proj2 Hextr) by lia. rewrite Hrngl. f_equal.
    change (left (node_at st1 node)) with (rng st1 node).1. by rewrite Hrng1. }
  assert (Hcr : rng nr.2 nr.1 = (s, hi)).
  { rewrite Hrngr. f_equal.
    change (right (node_at nl.2 node)) with (rng nl.2 node).2. by rewrite Hn1. }
  assert (Hext : extends st nr.2).
  { eapply extends_trans; [|exact Hextr]. eapply extends_trans; [|exact Hextl].
    apply same_shape_extends. done. }
  assert (Hlv : leaves nr.2 = leaves st) by congruence.
  destruct (side_in_range lo hi s L0 HL0) as [HLl HLr].
  destruct (significant _ _ _ _ _ _).
  2:{ (* the candidate is dropped and the node retried *)
      apply IH in Hct; [|lia|rewrite Hn2; exact Hle|rewrite Hn2; exact HL0].
      destruct Hct as (He & new & Hnew & Hids & Hch).
      split; [by eapply extends_trans|].
      exists new. rewrite Hn2 in Hch. rewrite Hnew, Hlv. done. }
  set (kids := kept_children n min_cluster_size nr.2 nl.1 nr.1
                 (filter (fun x => (x <? s) = true) L0)
                 (filter (fun x => (s <? x) = true) L0)) in *.
  pose proof (kept_children_cases nr.2 nl.1 nr.1
                 (filter (fun x => (x <? s) = true) L0)
                 (filter (fun x => (s <? x) = true) L0)) as Hcases.
  cbv zeta in Hcases. fold kids in Hcases.
  assert (Hchild : ∀ (c : nat) (Lc : list Z) (a b : Z) (st4 st5 : heap) (p : nat),
            extends nr.2 st4 → (c < length (nodes nr.2))%nat →
            rng nr.2 c = (a, b) → a ≤ b → Forall (fun x => a ≤ x < b) Lc →
            cluster_tree R n min_cluster_size significant_ratio similarity_ratio
              fuel c (Some p) Lc st4 = Return st5 →
            extends st4 st5 ∧
            ∃ new, leaves st5 = leaves st4 ++ new ∧
              Forall (fun id => (id < length (nodes st5))%nat) new ∧
              chain a b (map (rng st5) new)).
  { intros c Lc a b st4 st5 p [Hl4 He4] Hc Hrc Hab HLc Hrun.
    assert (Hrc4 : rng st4 c = (a, b)) by (rewrite He4 by done; exact Hrc).
    apply IH in Hrun; [|lia|by rewrite Hrc4|by rewrite Hrc4].
    by rewrite Hrc4 in Hrun. }
  destruct Hcases as [Hk|[Hk|[Hk|Hk]]]; rewrite Hk in Hct.
  - (* no child is kept: the node is a leaf *)
    injection Hct as <-. split; [by destruct Hext|].
    exists [node]. split_and!.
    + simpl. by rewrite Hlv.
    + constructor; [|done]. simpl. lia.
    + simpl map. change (rng (add_leaf node nr.2) node) with (rng nr.2 node).
      rewrite Hn2. subst lo hi. unfold rng in *. simpl in *. lia.
  - (* the left child only *)
    cbv beta iota zeta in Hct. inv_bind Hct. destruct a as [p st4].
    cbn [foldM] in Hct. inv_bind Hct.
    injection Hct as <-. rename a into st5.
    apply attach_children_same_shape in Hstep0.
    pose proof (same_shape_extends _ _ Hstep0) as He4.
    destruct (Hchild nl.1 _ lo s st4 st5 p He4 ltac:(lia) Hcl ltac:(lia) HLl Hstep1)
      as (He5 & new & Hnew & Hids & Hch).
    split; [eapply extends_trans; [exact Hext|]; by eapply extends_trans|].
    exists new. split_and!; [|done|].
    + rewrite Hnew. destruct Hstep0 as (_ & -> & _). by rewrite Hlv.
    + apply (chain_weaken lo lo s hi); [lia|lia|done].
  - (* the right child only *)
    cbv beta iota zeta in Hct. inv_bind Hct. destruct a as [p st4].
    cbn [foldM] in Hct. inv_bind Hct.
    injection Hct as <-. rename a into st5.
    apply attach_children_same_shape in Hstep0.
    pose proof (same_shape_extends _ _ Hstep0) as He4.
    destruct (Hchild nr.1 _ s hi st4 st5 p He4 ltac:(lia) Hcr ltac:(lia) HLr Hstep1)
      as (He5 & new & Hnew & Hids & Hch).
    split; [eapply extends_trans; [exact Hext|]; by eapply extends_trans|].
    exists new. split_and!; [|done|].
    + rewrite Hnew. destruct Hstep0 as (_ & -> & _). by rewrite Hlv.
    + apply (chain_weaken s lo hi hi); [lia|lia|done].
  - (* both children, the left one first *)
    cbv beta iota zeta in Hct. inv_bind Hct. destruct a as [p st4].
    cbn [foldM] in Hct. inv_bind Hct.
    injection Hct as <-. rename a into st5. rename a0 into st6.
    apply attach_children_same_shape in Hstep0.
    pose proof (same_shape_extends _ _ Hstep0) as He4.
    destruct (Hchild nl.1 _ lo s st4 st5 p He4 ltac:(lia) Hcl ltac:(lia) HLl Hstep1)
      as (He5 & new1 & Hnew1 & Hids1 & Hch1).
    assert (He45 : extends nr.2 st5) by by eapply extends_trans.
    destruct (Hchild nr.1 _ s hi st5 st6 p He45 ltac:(lia) Hcr ltac:(lia) HLr Hstep2)
      as (He6 & new2 & Hnew2 & Hids2 & Hch2).
    split; [eapply extends_trans; [exact Hext|]; by eapply extends_trans|].
    exists (new1 ++ new2). split_and!.
    + rewrite Hnew2, Hnew1. destruct Hstep0 as (_ & -> & _).
      by rewrite Hlv, app_assoc.
    + apply Forall_app. split; [|done].
      eapply Forall_impl; [exact Hids1|]. intros id Hid. destruct He6. simpl in *. lia.
    + rewrite map_app. apply (chain_app lo s hi); [|done].
      by rewrite (map_rng_extends st5 st6).
Qed.
End ClusterTree.

(** ** The split candidates *)

Lemma foldM_invariant {A B} (f : B → A → outcome B) (Inv : B → Prop)
    (l : list A) (acc r : B) :
  (∀ acc x acc', x ∈ l → Inv acc → f acc x = Return acc' → Inv acc') →
  Inv acc → foldM f l acc = Return r → Inv r.
Proof.
  revert acc; induction l as [|x l IH]; intros acc Hf Hacc; simpl.
  - by intros [= <-].
  - intros Hr. inv_bind Hr. eapply IH; [|exact (Hf _ _ _ ltac:(left) Hacc Hstep)|exact Hr].
    intros acc0 y acc' Hy. apply Hf. by right.
Qed.

Lemma py_slice_len {A} (l : list A) (a b : Z) : len (py_slice l a b) ≤ len l.
Proof.
  unfold py_slice, len. rewrite length_take, length_drop. lia.
Qed.

Lemma filterM_elem {A} (p : A → outcome bool) (l r : list A) (x : A) :
  filterM p l = Return r → x ∈ r → x ∈ l.
Proof.
  revert r; induction l as [|y l IH]; intros r; simpl.
  - intros [= <-]. done.
  - intros Hf. inv_bind Hf. injection Hf as <-. destruct a.
    + intros [->|Hx]%elem_of_cons; [left|right; by eapply IH].
    + intros Hx. right. by eapply IH.
Qed.

Lemma filterM_length {A} (p : A → outcome bool) (l r : list A) :
  filterM p l = Return r → (length r ≤ length l)%nat.
Proof.
  revert r; induction l as [|y l IH]; intros r; simpl.
  - intros [= <-]. done.
  - intros Hf. inv_bind Hf. injection Hf as <-. specialize (IH _ Hstep0).
    destruct a; simpl; lia.
Qed.

Section Candidates.
Context {F : Type} `{Float F}.

Lemma key_insert_perm (x : F * Z) (l : list (F * Z)) : key_insert x l ≡ₚ x :: l.
Proof.
  induction l as [|y l IH]; simpl; [done|].
  destruct (fleb x.1 y.1); [done|]. rewrite IH. apply Permutation_swap.
Qed.

Lemma key_sort_perm (l : list (F * Z)) : foldr key_insert [] l ≡ₚ l.
Proof.
  induction l as [|y l IH]; simpl; [done|].
  rewrite key_insert_perm. by apply Permutation_skip.
Qed.

Lemma sort_by_key_elem (keys : list F) (items : list Z) (x : Z) :
  x ∈ sort_by_key keys items → x ∈ items.
Proof.
  unfold sort_by_key. intros Hx.
  pose proof (key_sort_perm (combine keys items)) as Hp.
  rewrite Hp in Hx. apply list_elem_of_fmap in Hx as ([k y] & -> & Hin).
  apply list_elem_of_In, in_combine_r, list_elem_of_In in Hin. done.
Qed.

Lemma sort_by_key_length (keys : list F) (items : list Z) :
  length keys = length items → length (sort_by_key keys items) = length items.
Proof.
  unfold sort_by_key. intros Hlen. rewrite length_map.
  pose proof (key_sort_perm (combine keys items)) as Hp.
  rewrite (Permutation_length Hp), length_combine. lia.
Qed.

(** For [min_cluster_size <= n] every candidate is a position of the
    plot. *)
Lemma local_maxima_range (R : list F) (n m : Z) (L : list Z) :
  len R = n → m ≤ n → local_maxima R n m = Return L →
  Forall (fun x => 0 ≤ x < n) L.
Proof.
  intros HR Hm. unfold local_maxima. intros HL. inv_bind HL. rename a into L1.
  assert (H1 : Forall (fun x => 0 ≤ x < n) L1).
  { eapply (foldM_invariant _ (Forall (fun x => 0 ≤ x < n))); [|constructor|exact Hstep].
    intros acc i acc' Hi Hacc Hf. apply elem_of_xrange in Hi.
    inv_bind Hf. injection Hf as <-.
    apply np_argmax_bounds in Hstep0.
    pose proof (py_slice_len R 0 (i + m + 1)).
    assert (Hacc1 : Forall (fun x => 0 ≤ x < n)
              (if a =? i then acc ++ [i] else acc)).
    { destruct (Z.eqb_spec a i); [|done]. apply Forall_app. split; [done|].
      apply Forall_singleton. lia. }
    destruct (Z.eqb_spec a0 i); [|done]. apply Forall_app. split; [done|].
    apply Forall_singleton. lia. }
  eapply (foldM_invariant _ (Forall (fun x => 0 ≤ x < n))); [|exact H1|exact HL].
  intros acc i acc' Hi Hacc Hf. apply elem_of_xrange in Hi.
  inv_bind Hf. injection Hf as <-. apply np_argmax_bounds in Hstep0.
  destruct (Z.eqb_spec a m); [|done]. apply Forall_app. split; [done|].
  apply Forall_singleton. lia.
Qed.

(** The leaves of the extraction follow one another inside [0, n). *)
Lemma extraction_tree_chain (ordering : list Z) (reach : list F) (m : Z)
    (sig sim mrr : F) (st : heap) :
  m ≤ len ordering →
  extraction_tree ordering reach m sig sim mrr = Return st →
  chain 0 (len ordering) (leaf_ranges st) ∧
  Forall (fun id => (id < length (nodes st))%nat) (leaves st).
Proof.
  intros Hm. unfold extraction_tree. intros He. inv_bind He.
  rename a into R, a0 into L0, a1 into keys, a2 into last, a3 into Rmax, a4 into L.
  assert (HR : len R = len ordering).
  { apply mapM'_Return in Hstep. apply Forall2_length in Hstep. unfold len. lia. }
  pose proof (local_maxima_range R _ m L0 HR Hm Hstep0) as HL0.
  assert (HL : Forall (fun x => 0 ≤ x < len ordering) L).
  { apply Forall_forall. intros x Hx. rewrite Forall_forall in HL0. apply HL0.
    eapply sort_by_key_elem. eapply filterM_elem; [exact Hstep4|exact Hx]. }
  cbv beta iota zeta in He. simpl fst in He. simpl snd in He.
  apply cluster_tree_leaves in He.
  - destruct He as (_ & new & Hnew & Hids & Hch). simpl in Hnew. subst new.
    split; [exact Hch|exact Hids].
  - simpl. lia.
  - simpl. apply len_nonneg.
  - exact HL.
Qed.
End Candidates.

(** ** The labels *)

Lemma enumerate_from_eq {A} (k : Z) (l : list A) :
  combine (xrange k (k + len l)) l = enumerate_from k l.
Proof.
  revert k; induction l as [|x l IH]; intros k; simpl.
  - by destruct (xrange k (k + len [])).
  - unfold len. simpl length. rewrite xrange_cons by lia. simpl. f_equal.
    rewrite <- IH. do 2 f_equal. unfold len. lia.
Qed.

Lemma enumerate_from_map {A B} (f : A → B) (k : Z) (l : list A) :
  enumerate_from k (map f l) = map (fun '(i, x) => (i, f x)) (enumerate_from k l).
Proof. revert k; induction l as [|x l IH]; intros k; simpl; [done|]. by rewrite IH. Qed.

Lemma foldM_ext {A B} (f g : B → A → outcome B) (l : list A) (acc : B) :
  (∀ acc x, f acc x = g acc x) → foldM f l acc = foldM g l acc.
Proof.
  intros Hfg. revert acc; induction l as [|x l IH]; intros acc; simpl; [done|].
  rewrite Hfg. destruct (g acc x); simpl; [apply IH|done].
Qed.

Lemma foldM_map {A B C} (f : B → C → outcome B) (g : A → C) (l : list A) (acc : B) :
  foldM f (map g l) acc = foldM (fun acc x => f acc (g x)) l acc.
Proof.
  revert acc; induction l as [|x l IH]; intros acc; simpl; [done|].
  destruct (f acc (g x)); simpl; [apply IH|done].
Qed.

Lemma foldM_flat_map {A B C} (f : B → C → outcome B) (h : A → list C)
    (l : list A) (acc : B) :
  foldM f (flat_map h l) acc = foldM (fun acc x => foldM f (h x) acc) l acc.
Proof.
  revert acc; induction l as [|x l IH]; intros acc; simpl; [done|].
  rewrite foldM_app. destruct (foldM f (h x) acc); simpl; [apply IH|done].
Qed.

(** Lines 135-137 perform the assignments of [label_writes] in order. *)
Lemma assign_labels_writes (ordering : list Z) (n : Z) (st : heap) :
  assign_labels ordering n st =
  foldM (fun labels '(j, i) => p ← py_get ordering j; py_set labels p i)
    (label_writes 0 (leaf_ranges st)) (replicate (Z.to_nat n) (-1)).
Proof.
  unfold assign_labels, label_writes, leaf_ranges, enumerate.
  replace (len (leaves st)) with (0 + len (leaves st)) by lia.
  rewrite enumerate_from_eq, enumerate_from_map, foldM_flat_map, foldM_map.
  apply foldM_ext. intros labels [i leaf]. unfold rng. by rewrite foldM_map.
Qed.

Lemma elem_of_label_writes (k : Z) (ranges : list (Z * Z)) (j i : Z) :
  (j, i) ∈ label_writes k ranges ↔
  ∃ a b, k ≤ i ∧ ranges !! Z.to_nat (i - k) = Some (a, b) ∧ a ≤ j < b.
Proof.
  unfold label_writes. revert k; induction ranges as [|[a b] ranges IH]; intros k; simpl.
  - rewrite elem_of_nil. split; [done|]. intros (? & ? & _ & Hl & _). done.
  - rewrite elem_of_app, IH, list_elem_of_fmap. split.
    + intros [(j' & [= -> ->] & Hj)|(a' & b' & Hk & Hl & Hj)].
      * apply elem_of_xrange in Hj. exists a, b. by rewrite Z.sub_diag.
      * exists a', b'. split; [lia|]. split; [|done].
        replace (Z.to_nat (i - k)) with (S (Z.to_nat (i - (k + 1)))) by lia. done.
    + intros (a' & b' & Hk & Hl & Hj). destruct (decide (i = k)) as [->|Hne].
      * rewrite Z.sub_diag in Hl. injection Hl as <- <-.
        left. exists j. split; [done|]. by apply elem_of_xrange.
      * right. exists a', b'. split; [lia|]. split; [|done].
        replace (Z.to_nat (i - k)) with (S (Z.to_nat (i - (k + 1)))) in Hl by lia. done.
Qed.

Lemma label_writes_sorted (lo hi k : Z) (ranges : list (Z * Z)) :
  chain lo hi ranges →
  StronglySorted Z.lt (map fst (label_writes k ranges)) ∧
  Forall (fun j => lo ≤ j < hi) (map fst (label_writes k ranges)).
Proof.
  unfold label_writes.
  revert lo k; induction ranges as [|[a b] ranges IH]; intros lo k; simpl.
  - intros _. split; constructor.
  - intros (Hlo & Hab & Hc). destruct (IH b (k + 1) Hc) as [Hs Hr].
    pose proof (chain_bounds _ _ _ Hc) as Hbhi.
    rewrite map_app, map_map. simpl. rewrite map_id. split.
    + apply StronglySorted_app. split_and!; [|apply xrange_sorted|done].
      intros x1 x2 Hx1 Hx2. apply elem_of_xrange in Hx1.
      rewrite Forall_forall in Hr. specialize (Hr _ Hx2). lia.
    + apply Forall_app. split.
      * apply Forall_forall. intros x Hx. apply elem_of_xrange in Hx. lia.
      * eapply Forall_impl; [exact Hr|]. simpl. intros x Hx. lia.
Qed.

(** The labels of a valid ordering and a chain of leaves: the array written,
    and which point receives which leaf index. *)
Lemma assign_labels_spec (ordering : list Z) (st : heap) :
  ordering ≡ₚ xrange 0 (len ordering) →
  chain 0 (len ordering) (leaf_ranges st) →
  ∃ pw : list (Z * Z),
    assign_labels ordering (len ordering) st
      = Return (put_all (replicate (length ordering) (-1)) pw) ∧
    NoDup (map fst pw) ∧
    Forall (fun pv => 0 ≤ pv.1 < len ordering) pw ∧
    ∀ p i, (p, i) ∈ pw ↔
      ∃ j a b, 0 ≤ i ∧ leaf_ranges st !! Z.to_nat i = Some (a, b) ∧
        a ≤ j < b ∧ ordering !! Z.to_nat j = Some p.
Proof.
  intros Hperm Hchain.
  set (n := len ordering) in *.
  set (ord := fun j => nth (Z.to_nat j) ordering 0).
  set (ps := label_writes 0 (leaf_ranges st)).
  destruct (label_writes_sorted 0 n 0 _ Hchain) as [Hsorted Hrange]. fold ps in Hsorted, Hrange.
  assert (Hord : ∀ j, 0 ≤ j < n → ordering !! Z.to_nat j = Some (ord j)).
  { intros j Hj. apply lookup_nth. unfold n, len in Hj. lia. }
  assert (Hordr : ∀ j, 0 ≤ j < n → 0 ≤ ord j < n).
  { intros j Hj. apply elem_of_xrange. rewrite <- Hperm.
    eapply list_elem_of_lookup_2. by apply Hord. }
  assert (Hps : ∀ j i, (j, i) ∈ ps → 0 ≤ j < n).
  { intros j i Hin. rewrite Forall_forall in Hrange. apply Hrange.
    apply list_elem_of_fmap. by exists (j, i). }
  exists (map (fun '(j, i) => (ord j, i)) ps). split_and!.
  - rewrite assign_labels_writes. fold ps.
    replace (Z.to_nat n) with (length ordering) by (unfold n, len; lia).
    assert (Hgen : ∀ (l : list (Z * Z)) (labels : list Z),
              len labels = n → (∀ j i, (j, i) ∈ l → 0 ≤ j < n) →
              foldM (fun labels '(j, i) => p ← py_get ordering j; py_set labels p i) l labels
              = Return (put_all labels (map (fun '(j, i) => (ord j, i)) l))).
    { induction l as [|[j i] l IH]; intros labels Hlen Hl; simpl; [done|].
      assert (Hj : 0 ≤ j < n) by (apply (Hl j i); left).
      rewrite (proj2 (py_get_Return ordering j (ord j) (proj1 Hj)) (Hord j Hj)).
      rewrite bind_ret_l, py_set_ok by (rewrite Hlen; by apply Hordr).
      rewrite bind_ret_l. apply IH.
      - unfold len in *. by rewrite length_insert.
      - intros j' i' Hin. apply (Hl j' i'). by right. }
    apply Hgen; [apply len_replicate|exact Hps].
  - rewrite map_map.
    replace (map (fun x => (let '(j, i) := x in (ord j, i)).1) ps)
      with (map ord (map fst ps)).
    2:{ rewrite map_map. apply map_ext. by intros [j i]. }
    apply NoDup_fmap_2_strong; [|by apply StronglySorted_lt_NoDup].
    intros j j' Hj Hj' Heq. rewrite Forall_forall in Hrange.
    pose proof (Hord j (Hrange _ Hj)) as H1. pose proof (Hord j' (Hrange _ Hj')) as H2.
    rewrite Heq in H1.
    assert (Hnd : NoDup ordering) by (rewrite Hperm; apply xrange_NoDup).
    pose proof (NoDup_lookup _ _ _ _ Hnd H1 H2).
    pose proof (Hrange _ Hj). pose proof (Hrange _ Hj'). lia.
  - apply Forall_forall. intros [p i] Hin.
    apply list_elem_of_fmap in Hin as ([j i'] & [= -> ->] & Hin). simpl.
    apply Hordr. by eapply Hps.
  - intros p i. rewrite list_elem_of_fmap. split.
    + intros ([j i'] & [= -> ->] & Hin).
      pose proof (Hps _ _ Hin) as Hj.
      apply elem_of_label_writes in Hin as (a & b & Hi & Hl & Hab).
      rewrite Z.sub_0_r in Hl. exists j, a, b. split_and!; try done; try lia.
      by apply Hord.
    + intros (j & a & b & Hi & Hl & Hab & Hp).
      exists (j, i). split.
      * f_equal. assert (Hj : 0 ≤ j < n).
        { apply list_elem_of_lookup_2 in Hl.
          destruct (chain_within _ _ _ _ _ Hchain Hl). lia. }
        rewrite (Hord j Hj) in Hp. by injection Hp.
      * apply elem_of_label_writes. exists a, b. rewrite Z.sub_0_r. done.
Qed.

(** * The claims on the extraction *)


(** C8, as the code has it.  Under the same conditions the labels array has
    one entry per point, every entry is either -1 or the index of a leaf
    whose range is not empty, and every leaf with a non-empty range has its
    index in the array: the non-negative labels are the indices of the
    non-empty leaves, and so the contiguous range that starts at 0 and has
    one value per leaf when no leaf is empty. *)
Theorem labels_are_nonempty_leaf_indices {F : Type} `{Float F}
    (ordering : list Z) (reachability_distances : list F) (min_cluster_size : Z)
    (significant_ratio similarity_ratio min_reach_ratio : F) (labels : list Z) :
  ordering ≡ₚ xrange 0 (len ordering) →
  min_cluster_size ≤ len ordering →
  hierarchical_extraction ordering reachability_distances min_cluster_size
    significant_ratio similarity_ratio min_reach_ratio = Return labels →
  len labels = len ordering ∧
  ∃ st,
    extraction_tree ordering reachability_distances min_cluster_size
      significant_ratio similarity_ratio min_reach_ratio = Return st ∧
    (∀ (p : nat) v, labels !! p = Some v →
       v = -1 ∨
       0 ≤ v ∧ ∃ a b, leaf_ranges st !! Z.to_nat v = Some (a, b) ∧ a < b) ∧
    (∀ (k : nat) a b, leaf_ranges st !! k = Some (a, b) → a < b →
       Z.of_nat k ∈ labels) ∧
    ((∀ a b, (a, b) ∈ leaf_ranges st → a < b) →
     ∀ v, 0 ≤ v < len (leaves st) → v ∈ labels).
Proof.
  intros Hperm Hm Hx. unfold hierarchical_extraction in Hx. inv_bind Hx.
  rename a into st.
  destruct (extraction_tree_chain _ _ _ _ _ _ _ Hm Hstep) as [Hchain _].
  destruct (assign_labels_spec ordering st Hperm Hchain) as (pw & Hlab & Hnd & Hrange & Hpw).
  rewrite Hlab in Hx. injection Hx as <-.
  assert (Hnn : Forall (fun pv : Z * Z => 0 ≤ pv.1) pw).
  { eapply Forall_impl; [exact Hrange|]. simpl. intros; lia. }
  split.
  { unfold len. by rewrite put_all_length, length_replicate. }
  exists st. split; [done|].
  assert (Hleaf : ∀ (k : nat) a b, leaf_ranges st !! k = Some (a, b) → a < b →
            Z.of_nat k ∈ put_all (replicate (length ordering) (-1)) pw).
  { intros k a b Hk Hab.
    pose proof (list_elem_of_lookup_2 _ _ _ Hk) as Hin.
    destruct (chain_within _ _ _ _ _ Hchain Hin) as (Ha & _ & Hb).
    destruct (lookup_lt_is_Some_2 ordering (Z.to_nat a)) as [p Hp];
      [unfold len in Hb; lia|].
    assert (Hpk : (p, Z.of_nat k) ∈ pw).
    { apply Hpw. exists a, a, b. rewrite Nat2Z.id. split_and!; try done; lia. }
    assert (Hprange : 0 ≤ p < len ordering).
    { rewrite Forall_forall in Hrange. apply (Hrange _ Hpk). }
    apply list_elem_of_lookup. exists (Z.to_nat p).
    apply put_all_in; try done. by rewrite len_replicate. }
  split_and!.
  - intros p v Hv.
    assert (Hp : (p < length ordering)%nat).
    { apply lookup_lt_Some in Hv. by rewrite put_all_length, length_replicate in Hv. }
    replace p with (Z.to_nat (Z.of_nat p)) in Hv by lia.
    destruct (decide (Z.of_nat p ∈ map fst pw)) as [Hin|Hout].
    + apply list_elem_of_fmap in Hin as ([p' i] & Hp' & Hin). simpl in Hp'. subst p'.
      rewrite (put_all_in _ _ _ i) in Hv; try done.
      2:{ rewrite len_replicate. lia. }
      injection Hv as <-.
      apply Hpw in Hin as (j & a & b & Hi & Hl & Hab & Hj).
      right. split; [done|]. exists a, b. split; [done|lia].
    + rewrite put_all_notin in Hv by (done || lia).
      apply lookup_replicate in Hv as [-> _]. by left.
  - exact Hleaf.
  - intros Hne v Hv.
    destruct (lookup_lt_is_Some_2 (leaf_ranges st) (Z.to_nat v)) as [[a b] Hl].
    { unfold leaf_ranges. rewrite length_map. unfold len in Hv. lia. }
    replace v with (Z.of_nat (Z.to_nat v)) by lia.
    apply (Hleaf _ a b Hl). apply Hne. by eapply list_elem_of_lookup_2.
Qed.

(** * The bounds of the model are never reached

    [cluster_tree] is called with more fuel than its list is long and
    [ordering_loop] with as much fuel as there are seeds, so the exception
    [OutOfFuel] is never the result: every result of the model is a result of
    the program. *)

Lemma in_time_bind {A B} (c : outcome A) (k : A → outcome B) :
  in_time c → (∀ a, c = Return a → in_time (k a)) → in_time (c ≫= k).
Proof.
  unfold in_time. destruct c as [a|e];
    [|intros Hc _ [= ->]; by apply Hc].
  intros _ Hk. by apply (Hk a).
Qed.

Lemma in_time_foldM {A B} (f : B → A → outcome B) (l : list A) (acc : B) :
  (∀ acc x, x ∈ l → in_time (f acc x)) → in_time (foldM f l acc).
Proof.
  revert acc; induction l as [|x l IH]; intros acc Hf; simpl; [done|].
  apply in_time_bind; [apply Hf; left|].
  intros acc' _. apply IH. intros acc0 y Hy. apply Hf. by right.
Qed.

Lemma in_time_mapM' {A B} (f : A → outcome B) (l : list A) :
  (∀ x, in_time (f x)) → in_time (mapM' f l).
Proof.
  intros Hf. induction l as [|x l IH]; simpl; [done|].
  apply in_time_bind; [apply Hf|]. intros y _.
  apply in_time_bind; [apply IH|]. done.
Qed.

Lemma in_time_filterM {A} (p : A → outcome bool) (l : list A) :
  (∀ x, in_time (p x)) → in_time (filterM p l).
Proof.
  intros Hp. induction l as [|x l IH]; simpl; [done|].
  apply in_time_bind; [apply Hp|]. intros y _.
  apply in_time_bind; [apply IH|]. done.
Qed.

Lemma in_time_py_get {A} (l : list A) (i : Z) : in_time (py_get l i).
Proof. unfold in_time, py_get. repeat case_match; done. Qed.

Lemma in_time_py_set {A} (l : list A) (i : Z) (v : A) : in_time (py_set l i v).
Proof. unfold in_time, py_set. repeat case_match; done. Qed.

Lemma in_time_py_remove (l : list Z) (x : Z) : in_time (py_remove l x).
Proof.
  induction l as [|y l IH]; simpl; [done|]. case_match; [done|].
  apply in_time_bind; [exact IH|done].
Qed.

Lemma in_time_remove_ref (l : list nat) (x : nat) : in_time (remove_ref l x).
Proof.
  induction l as [|y l IH]; simpl; [done|]. case_match; [done|].
  apply in_time_bind; [exact IH|done].
Qed.

Lemma in_time_np_take {A} (a : list A) (idx : list Z) : in_time (np_take a idx).
Proof. apply in_time_mapM'. intros i. apply in_time_py_get. Qed.

Lemma in_time_np_put {A} (a : list A) (idx : list Z) (vals : list A) :
  in_time (np_put a idx vals).
Proof. apply in_time_foldM. intros acc [i v] _. apply in_time_py_set. Qed.

Section InTime.
Context {F : Type} `{Float F}.

Lemma in_time_np_argmax (a : list F) : in_time (np_argmax a).
Proof. by destruct a. Qed.

Lemma in_time_np_argmin (a : list F) : in_time (np_argmin a).
Proof. by destruct a. Qed.

Lemma in_time_attach_children (R : list F) (sim : F) node parent Rs kids st :
  in_time (attach_children R sim node parent Rs kids st).
Proof.
  unfold attach_children. destruct parent as [par|]; [|done].
  apply in_time_bind; [unfold get_split; by case_match|]. intros ps _.
  apply in_time_bind; [apply in_time_py_get|]. intros Rp _.
  case_match; [|done].
  apply in_time_bind; [|done]. unfold remove_child.
  apply in_time_bind; [apply in_time_remove_ref|done].
Qed.

Lemma in_time_cluster_tree (R : list F) (n m : Z) (sig sim : F) (fuel : nat) :
  ∀ (node : nat) (parent : option nat) (L : list Z) (st : heap),
    (length L < fuel)%nat →
    in_time (cluster_tree R n m sig sim fuel node parent L st).
Proof.
  induction fuel as [|fuel IH]; intros node parent L st Hfuel; [lia|].
  destruct (py_pop L) as [[L0 s]|] eqn:Hpop.
  2:{ simpl. by rewrite Hpop. }
  rewrite (cluster_tree_S R n m sig sim _ _ _ _ _ _ _ _ _ _ Hpop eq_refl eq_refl eq_refl).
  apply py_pop_Some in Hpop. subst L. rewrite length_app in Hfuel. simpl in Hfuel.
  repeat (rewrite np_take_where || rewrite bind_ret_l).
  apply in_time_bind; [apply in_time_py_get|]. intros Rs _.
  case_match; [|apply IH; lia].
  match goal with |- in_time (match ?k with _ => _ end) => set (kids := k) end.
  assert (Hkids : ∀ c Lc, (c, Lc) ∈ kids → (length Lc ≤ length L0)%nat).
  { intros c Lc Hin. subst kids.
    match type of Hin with _ ∈ kept_children _ _ ?st ?cl ?cr ?Ll ?Lr =>
      destruct (kept_children_cases n m st cl cr Ll Lr) as [Hk|[Hk|[Hk|Hk]]] end;
      rewrite Hk in Hin.
    - by apply elem_of_nil in Hin.
    - apply list_elem_of_singleton in Hin as [= -> ->]. apply length_filter.
    - apply list_elem_of_singleton in Hin as [= -> ->]. apply length_filter.
    - apply elem_of_cons in Hin as [[= -> ->]|Hin]; [apply length_filter|].
      apply list_elem_of_singleton in Hin as [= -> ->]. apply length_filter. }
  destruct kids as [|k kids'] eqn:Ek; [done|].
  apply in_time_bind; [apply in_time_attach_children|]. intros [p st4] _.
  apply in_time_foldM. intros acc [c Lc] Hin. apply IH.
  specialize (Hkids c Lc Hin). lia.
Qed.

Lemma in_time_local_maxima (R : list F) (n m : Z) : in_time (local_maxima R n m).
Proof.
  unfold local_maxima. apply in_time_bind.
  - apply in_time_foldM. intros acc i _.
    apply in_time_bind; [apply in_time_np_argmax|]. intros a _.
    apply in_time_bind; [apply in_time_np_argmax|]. done.
  - intros L _. apply in_time_foldM. intros acc i _.
    apply in_time_bind; [apply in_time_np_argmax|]. done.
Qed.

(** The extraction never stops for lack of fuel. *)
Lemma in_time_hierarchical_extraction (ordering : list Z) (reach : list F) (m : Z)
    (sig sim mrr : F) :
  in_time (hierarchical_extraction ordering reach m sig sim mrr).
Proof.
  unfold hierarchical_extraction. apply in_time_bind.
  - unfold extraction_tree.
    apply in_time_bind; [apply in_time_mapM'; intros i; apply in_time_py_get|]. intros R _.
    apply in_time_bind; [apply in_time_local_maxima|]. intros L0 _.
    apply in_time_bind; [apply in_time_mapM'; intros i; apply in_time_py_get|]. intros keys _.
    apply in_time_bind; [apply in_time_py_get|]. intros last _.
    apply in_time_bind; [apply in_time_py_get|]. intros Rmax _.
    apply in_time_bind.
    + apply in_time_filterM. intros x.
      apply in_time_bind; [apply in_time_py_get|done].
    + intros L _. apply in_time_cluster_tree. lia.
  - intros st _. unfold assign_labels. apply in_time_foldM. intros labels [i leaf] _.
    apply in_time_foldM. intros labels' j _.
    apply in_time_bind; [apply in_time_py_get|]. intros p _. apply in_time_py_set.
Qed.

Context {P : Type} (dist : P → P → F).
Variable X : list P.
Variable eps : F.
Variable min_samples : Z.

Lemma process_current_seeds (st st' : loop_state F) :
  process_current dist X eps min_samples st = Return st' → seeds st' = seeds st.
Proof.
  unfold process_current. intros Hp. inv_bind Hp.
  destruct (fleb _ _); inv_bind Hp; by injection Hp as <-.
Qed.

Lemma in_time_process_current (st : loop_state F) :
  in_time (process_current dist X eps min_samples st).
Proof.
  unfold process_current.
  apply in_time_bind.
  { unfold cdist_row. apply in_time_bind; [apply in_time_py_get|done]. }
  intros D _. apply in_time_bind; [apply in_time_py_get|]. intros c _.
  apply in_time_bind; [apply in_time_py_set|]. intros cd _.
  case_match.
  - apply in_time_bind; [apply in_time_np_take|]. intros ? _.
    apply in_time_bind; [apply in_time_np_take|]. intros ? _.
    apply in_time_bind; [apply in_time_np_take|]. intros ? _.
    apply in_time_bind; [apply in_time_np_put|]. intros ? _.
    apply in_time_bind; [apply in_time_np_take|]. intros ? _.
    apply in_time_bind; [apply in_time_np_argmin|]. intros ? _.
    apply in_time_bind; [apply in_time_py_get|]. done.
  - apply in_time_bind; [apply in_time_py_get|]. done.
Qed.

Lemma in_time_ordering_loop (fuel : nat) (st : loop_state F) (log : list Z) :
  (length (seeds st) ≤ S fuel)%nat →
  in_time (ordering_loop dist X eps min_samples fuel st log).2.
Proof.
  revert st log; induction fuel as [|fuel IH]; intros st log Hfuel; simpl.
  - destruct (Z.ltb_spec 1 (len (seeds st))) as [Hlt|Hge]; [unfold len in Hlt; lia|done].
  - destruct (Z.ltb_spec 1 (len (seeds st))) as [Hlt|Hge]; [|done].
    destruct (take_current st) as [st1|e] eqn:Ht.
    2:{ simpl. intros [= ->]. unfold take_current in Ht.
        pose proof (in_time_py_remove (seeds st) (current st)) as Hr.
        destruct (py_remove (seeds st) (current st)); [discriminate|].
        simpl in Ht. injection Ht as ->. done. }
    destruct (process_current dist X eps min_samples st1) as [st2|e] eqn:Hp.
    2:{ simpl. intros [= ->].
        pose proof (in_time_process_current st1) as Hi. by rewrite Hp in Hi. }
    apply IH. rewrite (process_current_seeds _ _ Hp).
    apply take_current_seeds in Ht as (l1 & l2 & Hs & _ & ->). simpl.
    rewrite Hs in Hfuel. rewrite length_app in *. simpl in Hfuel. lia.
Qed.

(** The entry point never stops for lack of fuel. *)
Lemma in_time_optics (extraction : pyvalue) (ext_kwargs : gmap string F) :
  in_time (optics dist X eps min_samples extraction ext_kwargs).2.
Proof.
  unfold optics, ordering_engine.
  pose proof (in_time_ordering_loop (length X) (initial_state X) []) as Hloop.
  destruct (ordering_loop dist X eps min_samples (length X) (initial_state X) [])
    as [log r]. simpl in *.
  apply in_time_bind.
  - apply in_time_bind.
    + apply Hloop. rewrite xrange_length. unfold len. lia.
    + intros st _. apply in_time_bind; [apply in_time_py_get|]. intros last _.
      apply in_time_bind; [apply in_time_py_set|]. done.
  - intros [[cd ord] reach] _. apply in_time_bind; [|done].
    unfold select_extraction. destruct extraction; try done.
    rewrite registry_lookup. destruct (decide _); [|done].
    unfold hierarchical_extraction_kw. case_match; [|done].
    apply in_time_hierarchical_extraction.
Qed.
End InTime.

(** * When the extraction returns *)

Lemma node_at_update_ne (id q : nat) (f : Node → Node) (st : heap) :
  q ≠ id → node_at (update_node id f st) q = node_at st q.
Proof.
  intros Hne. unfold node_at, update_node. simpl.
  by rewrite list_lookup_alter_ne.
Qed.

Lemma node_at_update_eq (id : nat) (f : Node → Node) (st : heap) :
  (id < length (nodes st))%nat →
  node_at (update_node id f st) id = f (node_at st id).
Proof.
  intros Hid. unfold node_at, update_node. simpl.
  rewrite list_lookup_alter_eq.
  destruct (lookup_lt_is_Some_2 (nodes st) id Hid) as [nd ->]. done.
Qed.

Lemma node_at_new_node (l r : Z) (st : heap) (q : nat) :
  (q < length (nodes st))%nat → node_at (new_node l r st).2 q = node_at st q.
Proof. intros Hq. unfold node_at, new_node. simpl. by rewrite lookup_app_l. Qed.

Lemma remove_ref_elem (l l' : list nat) (x y : nat) :
  remove_ref l x = Return l' → y ≠ x → y ∈ l → y ∈ l'.
Proof.
  revert l'; induction l as [|z l IH]; intros l'; simpl; [discriminate|].
  destruct (Nat.eqb_spec z x) as [->|Hne].
  - intros [= <-] Hy [->|Hin]%elem_of_cons; [done|done].
  - intros Hr. inv_bind Hr. injection Hr as <-.
    intros Hy [->|Hin]%elem_of_cons; [left|right; by eapply IH].
Qed.

Lemma remove_ref_ok (l : list nat) (x : nat) :
  x ∈ l → ∃ l', remove_ref l x = Return l'.
Proof.
  induction l as [|z l IH]; [by intros ?%elem_of_nil|]. simpl.
  destruct (Nat.eqb_spec z x) as [->|Hne]; [eauto|].
  intros [->|Hin]%elem_of_cons; [done|].
  destruct (IH Hin) as [l' ->]. simpl. eauto.
Qed.

Lemma split_update_node (id q : nat) (f : Node → Node) (st : heap) :
  (∀ nd, split (f nd) = split nd) →
  split (node_at (update_node id f st) q) = split (node_at st q).
Proof.
  intros Hf. unfold node_at, update_node. simpl.
  destruct (decide (q = id)) as [->|Hne].
  - rewrite list_lookup_alter_eq. destruct (nodes st !! id); simpl; [apply Hf|done].
  - by rewrite list_lookup_alter_ne.
Qed.

Lemma children_update_node (id q : nat) (f : Node → Node) (st : heap) (x : nat) :
  (∀ nd, x ∈ children nd → x ∈ children (f nd)) →
  x ∈ children (node_at st q) → x ∈ children (node_at (update_node id f st) q).
Proof.
  intros Hf. unfold node_at, update_node. simpl.
  destruct (decide (q = id)) as [->|Hne].
  - rewrite list_lookup_alter_eq. destruct (nodes st !! id); simpl; [apply Hf|done].
  - by rewrite list_lookup_alter_ne.
Qed.

Lemma frame_refl (base node : nat) (st : heap) : frame base node st st.
Proof. by split. Qed.

Lemma frame_trans (base a b : nat) (st st1 st2 : heap) :
  frame base a st st1 → frame base b st1 st2 → b = a ∨ (base ≤ b)%nat →
  frame base a st st2.
Proof.
  intros [Hc1 Hs1] [Hc2 Hs2] Hb. split.
  - intros q x Hq Hx Hxa Hin. apply Hc2; [lia|lia| |by apply Hc1].
    destruct Hb as [->|Hb]; [done|lia].
  - intros q Hq Hqa. rewrite Hs2; [by apply Hs1|lia|].
    destruct Hb as [->|Hb]; [done|lia].
Qed.

Lemma frame_set_split (base node : nat) (s : Z) (st : heap) :
  frame base node st (set_split node s st).
Proof.
  unfold set_split. split.
  - intros q x _ _ _ Hin. by apply children_update_node.
  - intros q _ Hne. by rewrite node_at_update_ne.
Qed.

Lemma frame_new_node (base x0 : nat) (l r : Z) (st : heap) :
  (base ≤ length (nodes st))%nat → frame base x0 st (new_node l r st).2.
Proof.
  intros Hb. split.
  - intros q x Hq _ _ Hin. rewrite node_at_new_node by lia. done.
  - intros q Hq _. rewrite node_at_new_node by lia. done.
Qed.

Lemma frame_append_child (base x0 id c : nat) (st : heap) :
  frame base x0 st (append_child id c st).
Proof.
  unfold append_child. split.
  - intros q x _ _ _ Hin. apply children_update_node; [|done].
    intros nd Hx. simpl. apply elem_of_app. by left.
  - intros q _ _. by apply split_update_node.
Qed.

Lemma frame_append_children (base x0 id : nat) (kids : list (nat * list Z)) (st : heap) :
  frame base x0 st (foldl (fun st '(child, _) => append_child id child st) st kids).
Proof.
  revert st; induction kids as [|[c Lc] kids IH]; intros st; simpl; [apply frame_refl|].
  eapply (frame_trans base x0 x0); [apply frame_append_child|apply IH|by left].
Qed.

Lemma frame_remove_child (base par node : nat) (st st' : heap) :
  remove_child par node st = Return st' → frame base node st st'.
Proof.
  unfold remove_child. intros Hr. inv_bind Hr. injection Hr as <-. split.
  - intros q x _ _ Hx Hin. destruct (decide (q = par)) as [->|Hne].
    + unfold node_at, update_node in *. simpl. rewrite list_lookup_alter_eq.
      destruct (nodes st !! par); simpl in *; [by eapply remove_ref_elem|done].
    + by rewrite node_at_update_ne.
  - intros q _ _. by apply split_update_node.
Qed.

(** The children of [id] after lines 118-119 or 123-124. *)
Lemma append_children_at (id : nat) (kids : list (nat * list Z)) (st : heap) :
  (id < length (nodes st))%nat →
  children (node_at (foldl (fun st '(child, _) => append_child id child st) st kids) id)
    = children (node_at st id) ++ map fst kids.
Proof.
  revert st; induction kids as [|[c Lc] kids IH]; intros st Hid; simpl.
  - by rewrite app_nil_r.
  - rewrite IH.
    + unfold append_child. rewrite node_at_update_eq by done. simpl.
      by rewrite <- app_assoc.
    + by destruct (append_child_same_shape id c st) as (-> & _).
Qed.

Lemma append_children_split (id q : nat) (kids : list (nat * list Z)) (st : heap) :
  split (node_at (foldl (fun st '(child, _) => append_child id child st) st kids) q)
    = split (node_at st q).
Proof.
  revert st; induction kids as [|[c Lc] kids IH]; intros st; simpl; [done|].
  rewrite IH. by apply split_update_node.
Qed.

Section Returns.
Context {F : Type} `{Float F}.
Variable R : list F.
Variable n : Z.
Variable min_cluster_size : Z.
Variables significant_ratio similarity_ratio : F.
Hypothesis R_len : len R = n.

(** Lines 117-125 succeed for a parent that has its split and the node
    among its children; each kept child is then a child of the node the
    recursion passes on. *)
Lemma attach_children_ok (node : nat) (parent : option nat) (Rs : F)
    (kids : list (nat * list Z)) (st : heap) (s : Z) :
  parent_ok n st node parent →
  (node < length (nodes st))%nat →
  split (node_at st node) = Some s → 0 ≤ s < n →
  (∀ c Lc, (c, Lc) ∈ kids → c ≠ node ∧ parent ≠ Some c) →
  ∃ p st4,
    attach_children R similarity_ratio node parent Rs kids st = Return (p, st4) ∧
    (∀ base, frame base node st st4) ∧
    ∀ c Lc, (c, Lc) ∈ kids → parent_ok n st4 c (Some p).
Proof.
  intros Hpar Hnode Hsplit Hs Hkids.
  assert (Helse : ∃ p st4,
            Return (node, foldl (fun st '(child, _) => append_child node child st) st kids)
              = Return (p, st4) ∧
            (∀ base, frame base node st st4) ∧
            ∀ c Lc, (c, Lc) ∈ kids → parent_ok n st4 c (Some p)).
  { eexists _, _. split; [reflexivity|]. split; [intros; apply frame_append_children|].
    intros c Lc Hin. destruct (Hkids c Lc Hin) as [Hc _]. simpl. split_and!.
    - by destruct (append_children_same_shape node kids st) as (-> & _).
    - done.
    - exists s. by rewrite append_children_split.
    - rewrite append_children_at by done. apply elem_of_app. right.
      apply list_elem_of_fmap. by exists (c, Lc). }
  unfold attach_children. destruct parent as [par|]; [|exact Helse].
  destruct Hpar as (Hp & Hpn & (ps & Hps & Hpsr) & Hin).
  unfold get_split. rewrite Hps, bind_ret_l.
  rewrite (py_get_ok fzero) by (rewrite R_len; exact Hpsr). rewrite bind_ret_l.
  destruct (fleb _ _); [|exact Helse].
  set (st' := foldl (fun st '(child, _) => append_child par child st) st kids).
  assert (Hlen' : length (nodes st') = length (nodes st)).
  { destruct (append_children_same_shape par kids st) as (Hl & _). exact Hl. }
  assert (Hch : children (node_at st' par) = children (node_at st par) ++ map fst kids).
  { by apply append_children_at. }
  destruct (remove_ref_ok (children (node_at st' par)) node) as [cs Hcs].
  { rewrite Hch. apply elem_of_app. by left. }
  assert (Hrm : remove_child par node st'
                = Return (update_node par (fun nd => mkNode (left nd) (right nd) (split nd) cs) st')).
  { unfold remove_child. by rewrite Hcs. }
  rewrite Hrm, bind_ret_l. eexists _, _. split; [reflexivity|]. split.
  - intros base. eapply (frame_trans base node node);
      [apply frame_append_children|by eapply frame_remove_child|by left].
  - intros c Lc Hc. destruct (Hkids c Lc Hc) as [Hcn Hcp]. simpl. split_and!.
    + unfold update_node. simpl. rewrite length_alter. lia.
    + congruence.
    + exists ps. rewrite split_update_node by done.
      unfold st'. by rewrite append_children_split.
    + rewrite node_at_update_eq by lia. simpl.
      eapply remove_ref_elem; [exact Hcs|done|].
      rewrite Hch. apply elem_of_app. right.
      apply list_elem_of_fmap. by exists (c, Lc).
Qed.

Lemma frame_weaken (base base' ex ex' : nat) (st st' : heap) :
  frame base' ex st st' → (base ≤ base')%nat → ex' = ex ∨ (base ≤ ex)%nat →
  frame base ex' st st'.
Proof.
  intros [Hc Hs] Hb Hex. split.
  - intros q x Hq Hx Hne Hin. apply Hc; [lia|lia| |done].
    destruct Hex as [->|Hex]; [done|lia].
  - intros q Hq Hne. apply Hs; [lia|].
    destruct Hex as [->|Hex]; [done|lia].
Qed.

(** The loop of lines 126-127 over the kept children, given that each call
    with this fuel returns. *)
Lemma run_children (fuel : nat) (p base : nat) :
  (∀ node parent L st, call_ok n fuel st node parent L →
     ∃ st', cluster_tree R n min_cluster_size significant_ratio
         similarity_ratio fuel node parent L st = Return st' ∧
       frame (length (nodes st)) node st st' ∧ extends st st') →
  ∀ (kids : list (nat * list Z)) (st4 : heap),
    NoDup (map fst kids) → (base ≤ length (nodes st4))%nat →
    (∀ c Lc, (c, Lc) ∈ kids → (base ≤ c)%nat ∧ call_ok n fuel st4 c (Some p) Lc) →
    ∃ st', foldM (fun st '(child, L) => cluster_tree R n min_cluster_size significant_ratio
         similarity_ratio fuel child (Some p) L st) kids st4
             = Return st' ∧
      (∀ x0, frame base x0 st4 st') ∧ extends st4 st'.
Proof.
  intros IH. induction kids as [|[c1 L1] kids IHk]; intros st4 Hnd Hbase Hkids.
  - exists st4. split; [done|]. split; [intros; apply frame_refl|apply extends_refl].
  - simpl in Hnd. apply NoDup_cons in Hnd as [Hc1 Hnd].
    destruct (Hkids c1 L1 ltac:(left)) as [Hb1 Hok1].
    destruct (IH _ _ _ _ Hok1) as (st5 & Hrun & Hfr & Hext).
    destruct Hok1 as (_ & Hc1len & _ & _ & _ & _ & Hp1).
    destruct Hp1 as (Hp & Hpc1 & _ & _).
    destruct (IHk st5) as (st' & Hrest & Hfr' & Hext').
    + exact Hnd.
    + destruct Hext. lia.
    + intros c Lc Hin. destruct (Hkids c Lc ltac:(by right)) as [Hb Hok].
      split; [done|].
      destruct Hok as (Hfuel & Hc & Hlo & Hle & Hhi & HL & Hpar).
      assert (Hrng : rng st5 c = rng st4 c) by (by apply Hext).
      unfold call_ok. rewrite Hrng. split_and!; try done.
      * destruct Hext. lia.
      * destruct Hpar as (_ & Hpc & (ps & Hps & Hpsr) & Hin').
        simpl. split_and!; [destruct Hext; lia|done| |].
        -- exists ps. destruct Hfr as [_ Hsp]. rewrite Hsp by done. done.
        -- destruct Hfr as [Hch _]. apply Hch; try done.
           intros ->. apply Hc1. apply list_elem_of_fmap. by exists (c1, Lc).
    + exists st'. simpl. rewrite Hrun, bind_ret_l. split; [exact Hrest|]. split.
      * intros x0. eapply (frame_trans base x0 x0); [|apply Hfr'|by left].
        eapply frame_weaken; [exact Hfr|done|by right].
      * by eapply extends_trans.
Qed.

Lemma kept_children_elem (st : heap) (cl cr : nat) (Ll Lr : list Z) (c : nat) (Lc : list Z) :
  cl ≠ cr →
  NoDup (map fst (kept_children n min_cluster_size st cl cr Ll Lr)) ∧
  ((c, Lc) ∈ kept_children n min_cluster_size st cl cr Ll Lr →
   (c, Lc) = (cl, Ll) ∨ (c, Lc) = (cr, Lr)).
Proof.
  intros Hne.
  destruct (kept_children_cases n min_cluster_size st cl cr Ll Lr) as [Hk|[Hk|[Hk|Hk]]];
    rewrite Hk; simpl; split.
  - constructor.
  - by intros ?%elem_of_nil.
  - apply NoDup_singleton.
  - intros ?%list_elem_of_singleton. by left.
  - apply NoDup_singleton.
  - intros ?%list_elem_of_singleton. by right.
  - apply NoDup_cons. split; [|apply NoDup_singleton].
    by intros ?%list_elem_of_singleton.
  - intros [?|?%list_elem_of_singleton]%elem_of_cons; [by left|by right].
Qed.

(** A call of [cluster_tree] whose node, candidates and parent are as
    [call_ok] says returns. *)
Lemma cluster_tree_returns (fuel : nat) :
  ∀ node parent L st, call_ok n fuel st node parent L →
    ∃ st', cluster_tree R n min_cluster_size significant_ratio
         similarity_ratio fuel node parent L st = Return st' ∧
      frame (length (nodes st)) node st st' ∧ extends st st'.
Proof.
  induction fuel as [|fuel IH];
    intros node parent L st (Hfuel & Hnode & Hlo0 & Hle & Hhi & HL & Hpar); [lia|].
  destruct (py_pop L) as [[L0 s]|] eqn:Hpop.
  2:{ exists (add_leaf node st). simpl. rewrite Hpop.
      split; [done|]. split; [by split|by split]. }
  remember (set_split node s st) as st1 eqn:Hst1.
  remember (new_node (left (node_at st1 node)) s st1) as nl eqn:Hnl.
  remember (new_node s (right (node_at nl.2 node)) nl.2) as nr eqn:Hnr.
  rewrite (cluster_tree_S _ _ _ _ _ _ _ _ _ _ _ _ _ _ _ Hpop Hst1 Hnl Hnr).
  apply py_pop_Some in Hpop. subst L.
  apply Forall_app in HL as [HL0 Hs]. rewrite Forall_singleton in Hs.
  rewrite length_app in Hfuel. simpl in Hfuel.
  repeat (rewrite np_take_where || rewrite bind_ret_l).
  (* the stores before the test *)
  pose proof (set_split_same_shape node s st) as (Hlen1 & Hlv1 & Hrng1).
  rewrite <- Hst1 in Hlen1, Hlv1, Hrng1.
  pose proof (new_node_spec (left (node_at st1 node)) s st1) as Hl'.
  rewrite <- Hnl in Hl'. cbv zeta in Hl'.
  destruct Hl' as (Hidl & Hlenl & Hlvl & Hrngl & Hextl).
  pose proof (new_node_spec s (right (node_at nl.2 node)) nl.2) as Hr'.
  rewrite <- Hnr in Hr'. cbv zeta in Hr'.
  destruct Hr' as (Hidr & Hlenr & Hlvr & Hrngr & Hextr).
  set (lo := (rng st node).1) in *. set (hi := (rng st node).2) in *.
  assert (Hn1 : rng nl.2 node = rng st node).
  { rewrite (proj2 Hextl) by lia. apply Hrng1. }
  assert (Hn2 : rng nr.2 node = rng st node).
  { rewrite (proj2 Hextr) by lia. exact Hn1. }
  assert (Hcl : rng nr.2 nl.1 = (lo, s)).
  { rewrite (proj2 Hextr) by lia. rewrite Hrngl. f_equal.
    change (left (node_at st1 node)) with (rng st1 node).1. by rewrite Hrng1. }
  assert (Hcr : rng nr.2 nr.1 = (s, hi)).
  { rewrite Hrngr. f_equal.
    change (right (node_at nl.2 node)) with (rng nl.2 node).2. by rewrite Hn1. }
  assert (Hext : extends st nr.2).
  { eapply extends_trans; [|exact Hextr]. eapply extends_trans; [|exact Hextl].
    apply same_shape_extends. done. }
  assert (Hat : ∀ q, (q < length (nodes st))%nat → q ≠ node →
            node_at nr.2 q = node_at st q).
  { intros q Hq Hne. rewrite Hnr, node_at_new_node by lia.
    rewrite Hnl, node_at_new_node by lia.
    rewrite Hst1. unfold set_split. by rewrite node_at_update_ne. }
  assert (Hsplit : split (node_at nr.2 node) = Some s).
  { rewrite Hnr, node_at_new_node by lia. rewrite Hnl, node_at_new_node by lia.
    rewrite Hst1. unfold set_split. by rewrite node_at_update_eq. }
  assert (Hfr0 : frame (length (nodes st)) node st nr.2).
  { split.
    - intros q x Hq Hx Hxn Hin. rewrite Hnr, node_at_new_node by lia.
      rewrite Hnl, node_at_new_node by lia. rewrite Hst1.
      by apply frame_set_split with (base := length (nodes st)).
    - intros q Hq Hne. by rewrite Hat. }
  assert (Hpar2 : parent_ok n nr.2 node parent).
  { destruct parent as [par|]; [|done].
    destruct Hpar as (Hp & Hpn & Hps & Hin). simpl.
    rewrite Hat by done. split_and!; try done. lia. }
  clear Hst1 Hnl Hnr.
  destruct (side_in_range lo hi s L0 HL0) as [HLl HLr].
  rewrite (py_get_ok fzero) by (rewrite R_len; lia). rewrite bind_ret_l.
  destruct (significant _ _ _ _ _ _).
  2:{ (* the candidate is dropped and the node retried *)
      destruct (IH node parent L0 nr.2) as (st' & Hrun & Hfr & Hext').
      { unfold call_ok. rewrite Hn2. fold lo hi. split_and!; try done; lia. }
      exists st'. split; [exact Hrun|]. split; [|by eapply extends_trans].
      eapply (frame_trans _ node node); [exact Hfr0| |by left].
      eapply frame_weaken; [exact Hfr|lia|by left]. }
  set (Ll := filter (fun x => (x <? s) = true) L0) in *.
  set (Lr := filter (fun x => (s <? x) = true) L0) in *.
  assert (Hkids : ∀ c Lc, (c, Lc) ∈ kept_children n min_cluster_size nr.2 nl.1 nr.1 Ll Lr →
            (c, Lc) = (nl.1, Ll) ∨ (c, Lc) = (nr.1, Lr)).
  { intros c Lc. apply kept_children_elem. lia. }
  assert (Hnd : NoDup (map fst (kept_children n min_cluster_size nr.2 nl.1 nr.1 Ll Lr))).
  { apply (kept_children_elem nr.2 nl.1 nr.1 Ll Lr 0%nat []). lia. }
  destruct (kept_children n min_cluster_size nr.2 nl.1 nr.1 Ll Lr) as [|k kids'] eqn:Ek.
  { exists (add_leaf node nr.2). split; [done|]. split; [exact Hfr0|exact Hext]. }
  set (kids := k :: kids') in *.
  destruct (attach_children_ok node parent (nth (Z.to_nat s) R fzero) kids nr.2 s)
    as (p & st4 & Hatt & Hfr4 & Hpk); try done; try lia.
  { intros c Lc Hin. destruct (Hkids c Lc Hin) as [[= -> ->]|[= -> ->]].
    - split; [lia|]. destruct parent as [par|]; [|done].
      destruct Hpar as (Hp & _). intros [= ->]. lia.
    - split; [lia|]. destruct parent as [par|]; [|done].
      destruct Hpar as (Hp & _). intros [= ->]. lia. }
  pose proof (attach_children_same_shape _ _ _ _ _ _ _ _ _ Hatt) as Hsame.
  destruct (run_children fuel p (length (nodes st)) IH kids st4 Hnd)
    as (st' & Hrun & Hfr' & Hext').
  { destruct Hsame as (-> & _). lia. }
  { intros c Lc Hin. destruct Hsame as (Hl4 & _ & Hr4).
    unfold call_ok. rewrite Hr4, Hl4.
    pose proof (length_filter (fun x => (x <? s) = true) L0) as Hlf1.
    pose proof (length_filter (fun x => (s <? x) = true) L0) as Hlf2.
    change (filter _ L0) with Ll in Hlf1. change (filter _ L0) with Lr in Hlf2.
    destruct (Hkids c Lc Hin) as [[= -> ->]|[= -> ->]].
    - rewrite Hcl. simpl. split; [lia|].
      split_and!; first [exact HLl | by eapply Hpk | lia].
    - rewrite Hcr. simpl. split; [lia|].
      split_and!; first [exact HLr | by eapply Hpk | lia]. }
  exists st'. cbv beta iota zeta. fold kids. rewrite Hatt, bind_ret_l.
  split; [exact Hrun|]. split.
  - eapply (frame_trans _ node node); [exact Hfr0| |by left].
    eapply (frame_trans _ node node); [apply Hfr4|apply Hfr'|by left].
  - eapply extends_trans; [exact Hext|].
    eapply extends_trans; [by apply same_shape_extends|exact Hext'].
Qed.
End Returns.

Lemma foldM_ok {A B} (f : B → A → outcome B) (l : list A) (acc : B) :
  (∀ acc x, x ∈ l → ∃ acc', f acc x = Return acc') → ∃ r, foldM f l acc = Return r.
Proof.
  revert acc; induction l as [|x l IH]; intros acc Hf; simpl; [eauto|].
  destruct (Hf acc x ltac:(left)) as [acc' ->]. rewrite bind_ret_l.
  apply IH. intros acc0 y Hy. apply Hf. by right.
Qed.

Lemma filterM_ok {A} (p : A → outcome bool) (l : list A) :
  (∀ x, x ∈ l → ∃ b, p x = Return b) → ∃ r, filterM p l = Return r.
Proof.
  induction l as [|x l IH]; intros Hp; simpl; [eauto|].
  destruct (Hp x ltac:(left)) as [b ->]. rewrite bind_ret_l.
  destruct IH as [r ->]; [intros y Hy; apply Hp; by right|].
  rewrite bind_ret_l. eauto.
Qed.

Lemma py_get_elem {A} (l : list A) (i : Z) (a : A) : py_get l i = Return a → a ∈ l.
Proof.
  unfold py_get. case_match; [|discriminate].
  destruct (l !! _) eqn:E; [|discriminate]. intros [= <-].
  by eapply list_elem_of_lookup_2.
Qed.

Lemma slice_bound_range {A} (l : list A) (i : Z) : 0 ≤ slice_bound l i ≤ len l.
Proof. unfold slice_bound. pose proof (len_nonneg l). case_match; lia. Qed.

Lemma py_slice_length {A} (l : list A) (a b : Z) :
  len (py_slice l a b) = Z.max 0 (slice_bound l b - slice_bound l a).
Proof.
  unfold py_slice. pose proof (slice_bound_range l a). pose proof (slice_bound_range l b).
  unfold len in *. rewrite length_take, length_drop. lia.
Qed.

Section ExtractionReturns.
Context {F : Type} `{Float F}.

Lemma np_argmax_ok (a : list F) : 0 < len a → ∃ r, np_argmax a = Return r.
Proof. destruct a; [unfold len; simpl; lia|]. intros _. simpl. eauto. Qed.

(** On a plot of [n >= 1] values and for [min_cluster_size >= 0] every
    window is non-empty and the scan for local maxima returns. *)
Lemma local_maxima_ok (R : list F) (n m : Z) :
  len R = n → 1 ≤ n → 0 ≤ m → ∃ L, local_maxima R n m = Return L.
Proof.
  intros HR Hn Hm. unfold local_maxima.
  assert (Hwin : ∀ a b, slice_bound R a < slice_bound R b →
            ∃ r, np_argmax (py_slice R a b) = Return r).
  { intros a b Hab. apply np_argmax_ok. rewrite py_slice_length. lia. }
  match goal with
  | |- ∃ L, (foldM ?f ?l ?acc ≫= _) = _ =>
    destruct (foldM_ok f l acc) as [L1 HL1]
  end.
  { intros acc i Hi. apply elem_of_xrange in Hi.
    destruct (Hwin 0 (i + m + 1)) as [a ->].
    { unfold slice_bound. rewrite HR. repeat case_match; lia. }
    rewrite bind_ret_l. cbv zeta.
    destruct (Hwin (n - 2 * m + i) n) as [b ->].
    { unfold slice_bound. rewrite HR. repeat case_match; lia. }
    rewrite bind_ret_l. eauto. }
  rewrite HL1, bind_ret_l. apply foldM_ok.
  intros acc i Hi. apply elem_of_xrange in Hi.
  destruct (Hwin (i - m) (i + m + 1)) as [a ->].
  { unfold slice_bound. rewrite HR. repeat case_match; lia. }
  rewrite bind_ret_l. eauto.
Qed.

(** For a permutation [ordering] of [0, n) with [n >= 1], as many
    reachability distances and [0 <= min_cluster_size <= n]: the extraction
    returns labels when the scan finds a local maximum, and raises
    [IndexError] at line 73 when it finds none. *)
Lemma hierarchical_extraction_returns (ordering : list Z) (reach : list F) (m : Z)
    (sig sim mrr : F) :
  ordering ≡ₚ xrange 0 (len ordering) → len reach = len ordering →
  1 ≤ len ordering → 0 ≤ m ≤ len ordering →
  ∃ R L0,
    mapM' (py_get reach) ordering = Return R ∧
    local_maxima R (len ordering) m = Return L0 ∧
    (L0 ≠ [] → ∃ labels,
       hierarchical_extraction ordering reach m sig sim mrr = Return labels) ∧
    (L0 = [] → hierarchical_extraction ordering reach m sig sim mrr = Raise IndexError).
Proof.
  intros Hperm Hreach Hn Hm. set (n := len ordering) in *.
  assert (Hord : Forall (fun i => 0 ≤ i < len reach) ordering).
  { apply Forall_forall. intros i Hi. rewrite Hperm in Hi.
    apply elem_of_xrange in Hi. lia. }
  pose proof (np_take_ok fzero reach ordering Hord) as HR. unfold np_take in HR.
  set (R := map (fun i => nth (Z.to_nat i) reach fzero) ordering) in *.
  assert (HRlen : len R = n) by apply len_map.
  destruct (local_maxima_ok R n m HRlen Hn ltac:(lia)) as [L0 HL0].
  exists R, L0. split; [done|]. split; [done|].
  pose proof (local_maxima_range R n m L0 HRlen ltac:(lia) HL0) as Hrange.
  assert (Hkeys : mapM' (py_get R) L0 = Return (map (fun i => nth (Z.to_nat i) R fzero) L0)).
  { apply (np_take_ok fzero R L0). by rewrite HRlen. }
  set (keys := map (fun i => nth (Z.to_nat i) R fzero) L0) in *.
  set (L1 := sort_by_key keys L0).
  assert (HL1len : length L1 = length L0).
  { apply sort_by_key_length. unfold keys. by rewrite length_map. }
  assert (HL1 : ∀ x, x ∈ L1 → 0 ≤ x < n).
  { intros x Hx. rewrite Forall_forall in Hrange. apply Hrange.
    by eapply sort_by_key_elem. }
  assert (Hprefix : ∀ k : heap → outcome (list Z),
            hierarchical_extraction ordering reach m sig sim mrr
            = ((last ← py_get L1 (-1);
                R_max ← py_get R last;
                L ← filterM (fun x => Rx ← py_get R x;
                                       Return (fleb (fmul mrr R_max) Rx)) L1;
                let '(root, st) := new_node 0 n (mkHeap [] []) in
                cluster_tree R n m sig sim (S (length L)) root None L st)
               ≫= assign_labels ordering n)).
  { intros _. unfold hierarchical_extraction, extraction_tree.
    rewrite HR, bind_ret_l. fold n. rewrite HL0, bind_ret_l, Hkeys, bind_ret_l. done. }
  rewrite (Hprefix (fun _ => Raise IndexError)). clear Hprefix.
  split.
  - intros Hne.
    destruct (py_get_total L1 (-1)) as [last Hlast].
    { unfold len. rewrite HL1len. destruct L0; [done|]. simpl. lia. }
    rewrite Hlast, bind_ret_l.
    pose proof (HL1 _ (py_get_elem _ _ _ Hlast)) as Hlastr.
    rewrite (py_get_ok fzero R last) by (by rewrite HRlen). rewrite bind_ret_l.
    destruct (filterM_ok (fun x => Rx ← py_get R x;
                Return (fleb (fmul mrr (nth (Z.to_nat last) R fzero)) Rx)) L1) as [L HL].
    { intros x Hx. rewrite (py_get_ok fzero R x) by (rewrite HRlen; by apply HL1).
      rewrite bind_ret_l. eauto. }
    rewrite HL, bind_ret_l. cbv beta iota zeta. simpl fst. simpl snd.
    destruct (cluster_tree_returns R n m sig sim HRlen (S (length L)) 0%nat None L
                (mkHeap [mkNode 0 n None []] [])) as (st & Hst & _ & _).
    { unfold call_ok. simpl. split_and!; try done; try lia.
      apply Forall_forall. intros x Hx. apply HL1. by eapply filterM_elem. }
    assert (Htree : extraction_tree ordering reach m sig sim mrr = Return st).
    { unfold extraction_tree. rewrite HR, bind_ret_l. fold n.
      rewrite HL0, bind_ret_l, Hkeys, bind_ret_l. fold keys. fold L1.
      rewrite Hlast, bind_ret_l.
      rewrite (py_get_ok fzero R last) by (by rewrite HRlen). rewrite bind_ret_l.
      rewrite HL, bind_ret_l. exact Hst. }
    unfold new_node in Hst |- *. simpl in Hst |- *. rewrite Hst, bind_ret_l.
    assert (Hm' : m ≤ len ordering) by (fold n; lia).
    destruct (extraction_tree_chain _ _ _ _ _ _ _ Hm' Htree) as [Hchain _].
    destruct (assign_labels_spec ordering st Hperm Hchain) as (pw & Hlab & _).
    fold n in Hlab. rewrite Hlab. eauto.
  - intros ->. subst L1 keys. simpl. reflexivity.
Qed.
End ExtractionReturns.

(** * The candidates of the local-maxima scan *)

Section LocalMaxima.
Context {F : Type} `{Float F}.
Variable R : list F.
Variables n m : Z.

Lemma elem_of_cond_snoc' (a x y k : Z) (l : list Z) :
  k ∈ (if a =? x then l ++ [y] else l) ↔ k ∈ l ∨ (a = x ∧ k = y).
Proof.
  destruct (Z.eqb_spec a x) as [->|Hne].
  - rewrite elem_of_app, list_elem_of_singleton. tauto.
  - tauto.
Qed.

Lemma boundary_scan_elem (xs : list Z) (acc L : list Z) (k : Z) :
  foldM (fun L i =>
     a ← np_argmax (py_slice R 0 (i + m + 1));
     let L := if a =? i then L ++ [i] else L in
     b ← np_argmax (py_slice R (n - 2 * m + i) n);
     let L := if b =? i then L ++ [n - m + i] else L in
     Return L) xs acc = Return L →
  k ∈ L ↔
  k ∈ acc ∨
  ∃ i, i ∈ xs ∧
    (k = i ∧ np_argmax (py_slice R 0 (i + m + 1)) = Return i ∨
     k = n - m + i ∧ np_argmax (py_slice R (n - 2 * m + i) n) = Return i).
Proof.
  revert acc; induction xs as [|x xs IH]; intros acc; simpl.
  - intros [= <-]. split; [by left|].
    intros [?|(i & Hi & _)]; [done|by apply elem_of_nil in Hi].
  - intros Hf. inv_bind Hf. inv_bind Hstep. injection Hstep as <-.
    rename a0 into a, a1 into b.
    rewrite (IH _ Hf), !elem_of_cond_snoc'. clear IH Hf. split.
    + intros [[[Hin|[-> ->]]|[-> ->]]|(i & Hi & Hk)].
      * by left.
      * right. exists x. split; [left|]. by left.
      * right. exists x. split; [left|]. by right.
      * right. exists i. split; [by right|done].
    + intros [Hin|(i & [->|Hi]%elem_of_cons & Hk)].
      * by do 3 left.
      * left. destruct Hk as [[-> Hk]|[-> Hk]].
        -- left; right. split; [congruence|done].
        -- right. split; [congruence|done].
      * right. by exists i.
Qed.

Lemma interior_scan_elem (xs : list Z) (acc L : list Z) (k : Z) :
  foldM (fun L i =>
     a ← np_argmax (py_slice R (i - m) (i + m + 1));
     Return (if a =? m then L ++ [i] else L)) xs acc = Return L →
  k ∈ L ↔
  k ∈ acc ∨ k ∈ xs ∧ np_argmax (py_slice R (k - m) (k + m + 1)) = Return m.
Proof.
  revert acc; induction xs as [|x xs IH]; intros acc; simpl.
  - intros [= <-]. split; [by left|].
    intros [?|[Hi _]]; [done|by apply elem_of_nil in Hi].
  - intros Hf. inv_bind Hf. inv_bind Hstep. injection Hstep as <-.
    rename a0 into a.
    rewrite (IH _ Hf), elem_of_cond_snoc'. clear IH Hf. split.
    + intros [[Hin|[-> ->]]|[Hi Hk]].
      * by left.
      * right. split; [left|done].
      * right. split; [by right|done].
    + intros [Hin|[[->|Hi]%elem_of_cons Hk]].
      * by do 2 left.
      * left; right. split; [congruence|done].
      * by right.
Qed.

(** The candidates of lines 61-70.  A position [k] among the first
    [min_cluster_size] is a candidate when it is the arg-max of
    [R[0 : k + m + 1]], an interior position when the arg-max of
    [R[k - m : k + m + 1]] is at offset [m], that is at [k]; a position [k]
    among the last [min_cluster_size] is a candidate when the arg-max of
    [R[k - m : n]] is at offset [k - (n - m)], while [k] itself is at offset
    [m] of that window. *)
Lemma local_maxima_elem (L : list Z) (k : Z) :
  local_maxima R n m = Return L →
  k ∈ L ↔
  (0 ≤ k < m ∧ np_argmax (py_slice R 0 (k + m + 1)) = Return k) ∨
  (n - m ≤ k < n ∧ np_argmax (py_slice R (k - m) n) = Return (k - (n - m))) ∨
  (m ≤ k < n - m ∧ np_argmax (py_slice R (k - m) (k + m + 1)) = Return m).
Proof.
  unfold local_maxima. intros HL. inv_bind HL.
  rewrite (interior_scan_elem _ _ _ k HL), (boundary_scan_elem _ _ _ k Hstep).
  rewrite elem_of_xrange. split.
  - intros [[Hnil|(i & Hi & Hk)]|[Hk Ha]].
    + by apply elem_of_nil in Hnil.
    + apply elem_of_xrange in Hi. destruct Hk as [[-> Hk]|[-> Hk]].
      * by left.
      * right; left. split; [lia|].
        replace (n - m + i - m) with (n - 2 * m + i) by lia.
        replace (n - m + i - (n - m)) with i by lia. done.
    + right; right. done.
  - intros [[Hk Ha]|[[Hk Ha]|[Hk Ha]]].
    + left; right. exists k. split; [apply elem_of_xrange; lia|]. by left.
    + left; right. exists (k - (n - m)). split; [apply elem_of_xrange; lia|].
      right. split; [lia|].
      replace (n - 2 * m + (k - (n - m))) with (k - m) by lia. done.
    + by right.
Qed.
End LocalMaxima.

Section ArgMax.
Context {F : Type} `{FloatOrder F}.

(** [argmax_from] continues a scan of [pre ++ l] that is at the end of
    [pre]. *)
Lemma argmax_from_spec (pre l : list F) (best : nat) (bv : F) :
  pre !! best = Some bv →
  (∀ j v, pre !! j = Some v → fleb v bv = true) →
  (∀ j v, pre !! j = Some v → (j < best)%nat → fltb v bv = true) →
  ∃ (r : nat) (rv : F),
    argmax_from (Z.of_nat best) bv (len pre) l = Z.of_nat r ∧
    (pre ++ l) !! r = Some rv ∧
    (∀ j v, (pre ++ l) !! j = Some v → fleb v rv = true) ∧
    (∀ j v, (pre ++ l) !! j = Some v → (j < r)%nat → fltb v rv = true).
Proof.
  revert pre best bv; induction l as [|x l IH]; intros pre best bv Hb Hle Hlt; simpl.
  - exists best, bv. rewrite app_nil_r. done.
  - replace (pre ++ (x :: l)) with ((pre ++ [x]) ++ l) by by rewrite <- app_assoc.
    replace (len pre + 1) with (len (pre ++ [x])) by by rewrite len_app.
    destruct (fltb bv x) eqn:Hx.
    + replace (len pre) with (Z.of_nat (length pre)) at 1 by done.
      apply IH.
      * by rewrite lookup_app_r, Nat.sub_diag.
      * intros j v Hj. apply lookup_app_Some in Hj as [Hj|[_ Hj]].
        -- eapply fleb_trans; [by eapply Hle|]. by apply fltb_fleb.
        -- apply list_lookup_singleton_Some in Hj as [_ <-]. apply fleb_refl.
      * intros j v Hj Hjk. apply lookup_app_Some in Hj as [Hj|[Hge _]]; [|lia].
        unfold fltb in *. apply negb_true_iff. apply negb_true_iff in Hx.
        destruct (fleb x v) eqn:E; [|done].
        assert (fleb x bv = true) by (eapply fleb_trans; [exact E|by eapply Hle]).
        congruence.
    + apply IH.
      * by apply lookup_app_l_Some.
      * intros j v Hj. apply lookup_app_Some in Hj as [Hj|[_ Hj]]; [by eapply Hle|].
        apply list_lookup_singleton_Some in Hj as [_ <-].
        unfold fltb in Hx. by apply negb_false_iff in Hx.
      * intros j v Hj Hjb. apply lookup_app_Some in Hj as [Hj|[Hge _]].
        -- by eapply Hlt.
        -- apply lookup_lt_Some in Hb. lia.
Qed.

(** [np.argmax] returns the first position of the greatest value, and only
    that one. *)
Lemma np_argmax_iff (l : list F) (r : nat) :
  np_argmax l = Return (Z.of_nat r) ↔
  ∃ rv, l !! r = Some rv ∧
    (∀ j v, l !! j = Some v → fleb v rv = true) ∧
    (∀ j v, l !! j = Some v → (j < r)%nat → fltb v rv = true).
Proof.
  destruct l as [|x l].
  { split; [discriminate|]. intros (rv & Hl & _). done. }
  destruct (argmax_from_spec [x] l 0 x) as (r' & rv' & Hr' & Hl' & Hle' & Hlt'); try done.
  { intros [|j] v; [|done]. intros [= <-]. apply fleb_refl. }
  { intros; lia. }
  change (len [x]) with 1 in Hr'. change (Z.of_nat 0) with 0 in Hr'.
  unfold np_argmax. rewrite Hr'. split.
  - intros [= ->%Nat2Z.inj]. by exists rv'.
  - intros (rv & Hl & Hle & Hlt). do 2 f_equal.
    destruct (Nat.lt_total r r') as [Hlt0|[->|Hlt0]]; [|done|].
    + pose proof (Hlt' _ _ Hl Hlt0) as Hs. pose proof (Hle _ _ Hl') as Hw.
      unfold fltb in Hs. rewrite Hw in Hs. done.
    + pose proof (Hlt _ _ Hl' Hlt0) as Hs. pose proof (Hle' _ _ Hl) as Hw.
      unfold fltb in Hs. rewrite Hw in Hs. done.
Qed.

Lemma py_slice_lookup (R : list F) (a b : Z) (j : nat) :
  0 ≤ a → a ≤ b → b ≤ len R →
  py_slice R a b !! j = if decide (a + Z.of_nat j < b) then R !! Z.to_nat (a + Z.of_nat j) else None.
Proof.
  intros Ha Hab Hb. unfold py_slice, slice_bound.
  destruct (Z.ltb_spec a 0); [lia|]. destruct (Z.ltb_spec b 0); [lia|].
  rewrite !Z.min_l by lia.
  destruct (decide (a + Z.of_nat j < b)).
  - rewrite lookup_take_lt by lia. rewrite lookup_drop. f_equal. lia.
  - apply lookup_take_ge. lia.
Qed.

(** The arg-max of a slice, in positions of the array. *)
Lemma np_argmax_window (R : list F) (a b k : Z) :
  0 ≤ a → a ≤ b → b ≤ len R → a ≤ k →
  np_argmax (py_slice R a b) = Return (k - a) ↔ window_argmax R a b k.
Proof.
  intros Ha Hab Hb Hk.
  replace (k - a) with (Z.of_nat (Z.to_nat (k - a))) by lia.
  rewrite np_argmax_iff. unfold window_argmax. split.
  - intros (rv & Hl & Hle & Hlt).
    rewrite py_slice_lookup in Hl by done.
    destruct (decide _) as [Hkb|]; [|done].
    replace (a + Z.of_nat (Z.to_nat (k - a))) with k in * by lia.
    split; [lia|]. exists rv. split; [done|].
    intros j v Hj Hv.
    assert (Hsl : py_slice R a b !! Z.to_nat (j - a) = Some v).
    { rewrite py_slice_lookup by done.
      replace (a + Z.of_nat (Z.to_nat (j - a))) with j by lia.
      by destruct (decide _); [|lia]. }
    split; [by eapply Hle|]. intros Hjk. eapply Hlt; [exact Hsl|lia].
  - intros (Hkb & rv & Hl & Hall). exists rv. split_and!.
    + rewrite py_slice_lookup by done.
      replace (a + Z.of_nat (Z.to_nat (k - a))) with k by lia.
      by destruct (decide _); [|lia].
    + intros j v Hv. rewrite py_slice_lookup in Hv by done.
      destruct (decide _) as [Hjb|]; [|done].
      by apply (Hall (a + Z.of_nat j) v ltac:(lia)).
    + intros j v Hv Hj. rewrite py_slice_lookup in Hv by done.
      destruct (decide _) as [Hjb|]; [|done].
      apply (Hall (a + Z.of_nat j) v ltac:(lia)); [done|lia].
Qed.

(** The part of the claim C2 that holds: an interior position is a
    candidate exactly when it is the arg-max of its symmetric window, and
    one of the first [min_cluster_size] positions that is not also among the
    last [min_cluster_size] exactly when it is the arg-max of its truncated
    window. *)
Lemma local_maxima_window (R : list F) (n m : Z) (L : list Z) (k : Z) :
  len R = n → 0 ≤ m → local_maxima R n m = Return L → 0 ≤ k < n - m →
  k ∈ L ↔ window_argmax R (Z.max 0 (k - m)) (k + m + 1) k.
Proof.
  intros HR Hm HL Hk. rewrite (local_maxima_elem R n m L k HL).
  destruct (Z.lt_ge_cases k m) as [Hlt|Hge].
  - rewrite Z.max_l by lia. rewrite <- np_argmax_window by lia.
    rewrite Z.sub_0_r. split; [|by left; split; [lia|]].
    intros [[_ Ha]|[[Hk' _]|[Hk' _]]]; [done|lia|lia].
  - rewrite Z.max_r by lia. rewrite <- np_argmax_window by lia.
    replace (k - (k - m)) with m by lia.
    split; [|by right; right; split; [lia|]].
    intros [[Hk' _]|[[Hk' _]|[_ Ha]]]; [lia|lia|done].
Qed.
End ArgMax.

(** * The claims on the entry point *)

(** C3, as the code has it.  With a value of [extraction] that is no string
    or no registered name, the entry point first runs the ordering engine
    (requesting the same distance rows as for a valid name); if the engine
    raises, that exception is the result, and otherwise the entry point
    raises the configuration error ([ValueError] for an unknown name,
    [TypeError] for a value that is no string).  It never returns result
    arrays. *)
Theorem unrecognized_extraction_raises {F : Type} `{Float F} {P : Type}
    (dist : P → P → F) (X : list P) (eps : F) (min_samples : Z)
    (extraction : pyvalue) (ext_kwargs : gmap string F) :
  unrecognized extraction →
  (optics dist X eps min_samples extraction ext_kwargs).1
    = (ordering_engine dist X eps min_samples).1 ∧
  (optics dist X eps min_samples extraction ext_kwargs).2
    = ((ordering_engine dist X eps min_samples).2 ≫=
       fun _ => Raise (config_error extraction)) ∧
  ∀ res, (optics dist X eps min_samples extraction ext_kwargs).2 ≠ Return res.
Proof.
  intros Hun. unfold optics.
  destruct (ordering_engine dist X eps min_samples) as [log r]. simpl.
  assert (Hsel : ∀ ord reach,
            select_extraction min_samples extraction ext_kwargs ord reach
            = Raise (config_error extraction)).
  { intros ord reach. unfold select_extraction.
    destruct extraction as [s| | |]; try reflexivity.
    rewrite registry_lookup. simpl in Hun. by destruct (decide _). }
  assert (Heq : (r ≫= fun '(cd, ord, reach) =>
                   select_extraction min_samples extraction ext_kwargs ord reach
                   ≫= fun labels => Return (cd, ord, reach, labels))
                = (r ≫= fun _ => Raise (config_error extraction))).
  { destruct r as [[[cd ord] reach]|e]; simpl; [|done]. by rewrite Hsel. }
  split_and!; [done|exact Heq|].
  intros res. rewrite Heq. by destruct r.
Qed.

(** C10.  For the extraction name [hierarchical] (in any letter case) the
    entry point calls [hierarchical_extraction] on the ordering and the
    reachability distances of the engine with [min_samples] as
    [min_cluster_size].  With keywords among the three ratios the call is
    the extraction with these ratios (or their defaults), and the entry
    point returns the arrays of the engine together with its labels;
    whatever the entry point returns has this form.  A key
    [min_cluster_size] in [ext_kwargs] makes the call a [TypeError], so the
    entry point returns nothing. *)
Theorem extraction_uses_min_samples {F : Type} `{Float F} {P : Type}
    (dist : P → P → F) (X : list P) (eps : F) (min_samples : Z)
    (s : string) (ext_kwargs : gmap string F) :
  lower s = "hierarchical"%string →
  (optics dist X eps min_samples (PyStr s) ext_kwargs).1
    = (ordering_engine dist X eps min_samples).1 ∧
  (optics dist X eps min_samples (PyStr s) ext_kwargs).2
    = ((ordering_engine dist X eps min_samples).2 ≫= fun '(cd, ord, reach) =>
       hierarchical_extraction_kw ord reach min_samples ext_kwargs ≫= fun labels =>
       Return (cd, ord, reach, labels)) ∧
  (dom ext_kwargs ⊆ ({[ "significant_ratio"%string; "similarity_ratio"%string;
                        "min_reach_ratio"%string ]} : gset string) →
   (∀ ord reach,
      hierarchical_extraction_kw ord reach min_samples ext_kwargs
      = hierarchical_extraction ord reach min_samples
          (default (fconst 0.75) (ext_kwargs !! "significant_ratio"%string))
          (default (fconst 0.4) (ext_kwargs !! "similarity_ratio"%string))
          (default (fconst 0.1) (ext_kwargs !! "min_reach_ratio"%string))) ∧
   (optics dist X eps min_samples (PyStr s) ext_kwargs).2
     = ((ordering_engine dist X eps min_samples).2 ≫= fun '(cd, ord, reach) =>
        hierarchical_extraction ord reach min_samples
          (default (fconst 0.75) (ext_kwargs !! "significant_ratio"%string))
          (default (fconst 0.4) (ext_kwargs !! "similarity_ratio"%string))
          (default (fconst 0.1) (ext_kwargs !! "min_reach_ratio"%string))
        ≫= fun labels => Return (cd, ord, reach, labels))) ∧
  (∀ ord reach labels,
     hierarchical_extraction_kw ord reach min_samples ext_kwargs = Return labels →
     ext_kwargs !! "min_cluster_size"%string = None ∧
     hierarchical_extraction ord reach min_samples
       (default (fconst 0.75) (ext_kwargs !! "significant_ratio"%string))
       (default (fconst 0.4) (ext_kwargs !! "similarity_ratio"%string))
       (default (fconst 0.1) (ext_kwargs !! "min_reach_ratio"%string))
     = Return labels) ∧
  (∀ cd ord reach labels,
     (optics dist X eps min_samples (PyStr s) ext_kwargs).2
       = Return (cd, ord, reach, labels) →
     (ordering_engine dist X eps min_samples).2 = Return (cd, ord, reach) ∧
     ext_kwargs !! "min_cluster_size"%string = None ∧
     hierarchical_extraction ord reach min_samples
       (default (fconst 0.75) (ext_kwargs !! "significant_ratio"%string))
       (default (fconst 0.4) (ext_kwargs !! "similarity_ratio"%string))
       (default (fconst 0.1) (ext_kwargs !! "min_reach_ratio"%string))
     = Return labels) ∧
  (is_Some (ext_kwargs !! "min_cluster_size"%string) →
   (∀ ord reach, ∃ msg,
      hierarchical_extraction_kw ord reach min_samples ext_kwargs = Raise (TypeError msg)) ∧
   ∀ res, (optics dist X eps min_samples (PyStr s) ext_kwargs).2 ≠ Return res).
Proof.
  intros Hs.
  assert (Hcall : (optics dist X eps min_samples (PyStr s) ext_kwargs).2
    = ((ordering_engine dist X eps min_samples).2 ≫= fun '(cd, ord, reach) =>
       hierarchical_extraction_kw ord reach min_samples ext_kwargs ≫= fun labels =>
       Return (cd, ord, reach, labels))).
  { unfold optics. destruct (ordering_engine dist X eps min_samples) as [log r]. simpl.
    destruct r as [[[cd ord] reach]|e]; simpl; [|done].
    rewrite Hs, registry_lookup. by destruct (decide _). }
  assert (Hratios : dom ext_kwargs ⊆ ({[ "significant_ratio"%string;
              "similarity_ratio"%string; "min_reach_ratio"%string ]} : gset string) →
            ∀ ord reach,
              hierarchical_extraction_kw ord reach min_samples ext_kwargs
              = hierarchical_extraction ord reach min_samples
                  (default (fconst 0.75) (ext_kwargs !! "significant_ratio"%string))
                  (default (fconst 0.4) (ext_kwargs !! "similarity_ratio"%string))
                  (default (fconst 0.1) (ext_kwargs !! "min_reach_ratio"%string))).
  { intros Hdom ord reach. unfold hierarchical_extraction_kw.
    by rewrite (bool_decide_eq_true_2 _ Hdom). }
  assert (Hret : ∀ ord reach labels,
     hierarchical_extraction_kw ord reach min_samples ext_kwargs = Return labels →
     ext_kwargs !! "min_cluster_size"%string = None ∧
     hierarchical_extraction ord reach min_samples
       (default (fconst 0.75) (ext_kwargs !! "significant_ratio"%string))
       (default (fconst 0.4) (ext_kwargs !! "similarity_ratio"%string))
       (default (fconst 0.1) (ext_kwargs !! "min_reach_ratio"%string))
     = Return labels).
  { intros ord reach labels. unfold hierarchical_extraction_kw.
    destruct (bool_decide _) eqn:Hd; [|discriminate].
    intros Hx. split; [|exact Hx].
    apply bool_decide_eq_true in Hd. apply not_elem_of_dom.
    intros Hin. apply Hd in Hin.
    rewrite !elem_of_union, !elem_of_singleton in Hin.
    destruct Hin as [[Hin|Hin]|Hin]; discriminate. }
  assert (Hkey : is_Some (ext_kwargs !! "min_cluster_size"%string) →
            ∀ ord reach, ∃ msg,
              hierarchical_extraction_kw ord reach min_samples ext_kwargs
              = Raise (TypeError msg)).
  { intros Hkey ord reach. unfold hierarchical_extraction_kw.
    destruct (bool_decide _) eqn:Hd; [|eauto].
    apply bool_decide_eq_true in Hd. apply elem_of_dom in Hkey.
    apply Hd in Hkey.
    rewrite !elem_of_union, !elem_of_singleton in Hkey.
    destruct Hkey as [[Hkey|Hkey]|Hkey]; discriminate. }
  split_and!.
  - unfold optics. by destruct (ordering_engine dist X eps min_samples) as [log r].
  - exact Hcall.
  - intros Hdom. split; [by apply Hratios|].
    rewrite Hcall. destruct (ordering_engine dist X eps min_samples).2
      as [[[cd ord] reach]|e]; simpl; [|done].
    by rewrite (Hratios Hdom).
  - exact Hret.
  - intros cd ord reach labels. rewrite Hcall.
    destruct (ordering_engine dist X eps min_samples).2
      as [[[cd0 ord0] reach0]|e]; simpl; [|discriminate].
    destruct (hierarchical_extraction_kw ord0 reach0 min_samples ext_kwargs)
      as [labels0|e] eqn:Hkw; simpl; [|discriminate].
    intros [= -> -> -> ->]. split; [done|]. by apply Hret.
  - intros Hk. split; [by apply Hkey|].
    intros res. rewrite Hcall.
    destruct (ordering_engine dist X eps min_samples).2
      as [[[cd ord] reach]|e]; simpl; [|discriminate].
    destruct (Hkey Hk ord reach) as [msg ->]. discriminate.
Qed.

(** * Concrete runs *)

Import Exact.

#[global] Instance xq_order : FloatOrder xq.
Proof.
  split.
  - intros [a|] [b|]; simpl; auto.
    destruct (Qlt_le_dec a b) as [Hlt|Hle].
    + left. apply Qle_bool_iff, Qlt_le_weak, Hlt.
    + right. apply Qle_bool_iff, Hle.
  - intros [a|] [b|] [c|]; simpl; try done.
    rewrite !Qle_bool_iff. apply Qle_trans.
Qed.

(** C2: the scan of the last [min_cluster_size] positions compares the
    arg-max of the window [R[n - 2 * min_cluster_size + i : n]] with [i]
    (line 66), whereas the position [n - min_cluster_size + i] it appends
    sits at offset [min_cluster_size] of that window (the offset the
    interior scan of line 69 tests).  On the plot [0, 1, 1, 1, 5] with
    [min_cluster_size = 1], which the ordering engine produces for the
    samples 0, 1, 2, 3, 8, position 4 is the arg-max of its window [3, 4]
    and is no candidate; on the plot [0, 1, 1, 5, 1] position 4 is a
    candidate and position 3 is the arg-max of that window. *)
Theorem local_maxima_last_window_wrong_offset :
  (ordering_engine dist1 [0; 1; 2; 3; 8] Inf 1).2
    = Return ([Some (fz 1); Some (fz 1); Some (fz 1); Some (fz 1); None],
              [0; 1; 2; 3; 4], map fz [0; 1; 1; 1; 5]) ∧
  np_argmax (py_slice (map fz [0; 1; 1; 1; 5]) (4 - 1) (4 + 1 + 1)) = Return 1 ∧
  local_maxima (map fz [0; 1; 1; 1; 5]) 5 1 = Return [1] ∧
  np_argmax (py_slice (map fz [0; 1; 1; 5; 1]) (4 - 1) (4 + 1 + 1)) = Return 0 ∧
  local_maxima (map fz [0; 1; 1; 5; 1]) 5 1 = Return [4; 1; 3].
Proof. repeat split; vm_compute; reflexivity. Qed.

(** C1, counterexample.  Samples 0, 3, -2 on a line, [eps] infinite,
    [min_samples = 1]: after the first iteration point 1 is a seed with
    stored reachability 3; the second iteration (current point 2, core
    distance 2, distance 5 to point 1) stores 5, which is larger. *)
Lemma reachability_can_increase :
  let st1 := mkLoop [1; 2] [0] [Some (fz 2); None; None] [Inf; fz 3; fz 2] 2 in
  let st2 := mkLoop [1] [0; 2] [Some (fz 2); None; Some (fz 2)] [Inf; fz 5; fz 2] 1 in
  reachable dist1 [0; 3; -2] Inf 1 st1 ∧
  loop_body dist1 [0; 3; -2] Inf 1 st1 = Return st2 ∧
  1 ∈ seeds st2 ∧
  getF (reachability_distances st1) 1 = fz 3 ∧
  getF (reachability_distances st2) 1 = fz 5 ∧
  fleb (fz 5) (fz 3) = false.
Proof.
  cbv zeta. split_and!; try (vm_compute; reflexivity).
  - eapply reachable_step; [apply reachable_init| |]; vm_compute; reflexivity.
  - left.
Qed.

(** C3, counterexample.  With [extraction = "unknown"] the distance row of
    point 0 has been requested when the [ValueError] is raised; and when
    the ordering engine fails ([min_samples = 5] for three samples) the
    exception is its [IndexError]. *)
Lemma unknown_extraction_raised_after_ordering :
  optics dist1 [0; 0] Inf 1 (PyStr "unknown") ∅
    = ([0], Raise (ValueError "Unknown Extraction Method: unknown")) ∧
  optics dist1 [0; 2; 5] Inf 5 (PyStr "unknown") ∅ = ([0], Raise IndexError).
Proof. split; vm_compute; reflexivity. Qed.


(** C8, counterexample.  On the plot [5, 1, 1, 1] with
    [min_cluster_size = 1] position 0 is accepted as a split, its left child
    [0, 0) is kept (it touches position 0) and becomes leaf 0: every point
    gets label 1 and no point label 0.  Through the entry point the same
    happens for four coincident samples. *)
Lemma labels_not_contiguous :
  hierarchical_extraction [0; 1; 2; 3] (map fz [5; 1; 1; 1]) 1
    (Fin 0.75) (Fin 0.4) (Fin 0.1) = Return [1; 1; 1; 1] ∧
  (optics dist1 [0; 0; 0; 0] Inf 1 (PyStr "hierarchical") ∅).2
    = Return ([Some (fz 0); Some (fz 0); Some (fz 0); None],
              [0; 1; 2; 3], map fz [0; 0; 0; 0], [1; 1; 1; 2]).
Proof. split; vm_compute; reflexivity. Qed.

(** * The theorems at concrete inputs *)

(** The engine on the samples 0, 2, 3, 1, 1 with [min_samples = 3]. *)
Lemma ordering_is_permutation_witness :
  ([0; 1; 2; 3; 4] ≡ₚ xrange 0 (len [0; 2; 3; 1; 1]) ∧
   len [0; 1; 2; 3; 4] = len [0; 2; 3; 1; 1] ∧ NoDup [0; 1; 2; 3; 4] ∧
   ∀ p, 0 ≤ p < len [0; 2; 3; 1; 1] → p ∈ [0; 1; 2; 3; 4]) ∧
  ∃ res, (ordering_engine dist1 [0; 2; 3; 1; 1] Inf 3).2 = Return res.
Proof.
  split.
  - apply (proj1 (ordering_is_permutation dist1 [0; 2; 3; 1; 1] Inf 3)
             [Some (fz 2); Some (fz 1); Some (fz 2); Some (fz 1); None]
             [0; 1; 2; 3; 4] (map fz [0; 2; 1; 2; 1])).
    vm_compute. reflexivity.
  - apply (proj2 (ordering_is_permutation dist1 [0; 2; 3; 1; 1] Inf 3)).
    + unfold len. simpl. lia.
    + right. unfold len. simpl. lia.
Defined.

Lemma first_point_reachability_zero_witness :
  (∃ first, py_get [0; 1; 2; 3; 4] 0 = Return first ∧
     py_get (map fz [0; 2; 1; 2; 1]) first = Return fzero) ∧
  ∃ res, (ordering_engine dist1 [0; 2; 3; 1; 1] Inf 3).2 = Return res.
Proof.
  split.
  - apply (proj1 (first_point_reachability_zero dist1 [0; 2; 3; 1; 1] Inf 3)
             [Some (fz 2); Some (fz 1); Some (fz 2); Some (fz 1); None]
             [0; 1; 2; 3; 4] (map fz [0; 2; 1; 2; 1])).
    vm_compute. reflexivity.
  - apply (proj2 (first_point_reachability_zero dist1 [0; 2; 3; 1; 1] Inf 3)).
    + unfold len. simpl. lia.
    + right. unfold len. simpl. lia.
Defined.

(** Point 1, second in the ordering: its row sorted is 0, 1, 1, 1, 2 and its
    core distance the entry of rank 3. *)
Lemma core_distance_is_rank_witness :
  ∃ (D sorted : list xq) (c : xq),
    cdist_row dist1 [0; 2; 3; 1; 1] 1 = Return D ∧
    sorted ≡ₚ D ∧ Sorted (fun x y => fleb x y = true) sorted ∧
    sorted !! Z.to_nat 3 = Some c ∧
    py_get [Some (fz 2); Some (fz 1); Some (fz 2); Some (fz 1); None] 1
      = Return (Some c).
Proof.
  apply (core_distance_is_rank dist1 [0; 2; 3; 1; 1] Inf 3
           [Some (fz 2); Some (fz 1); Some (fz 2); Some (fz 1); None]
           [0; 1; 2; 3; 4] (map fz [0; 2; 1; 2; 1]) 1%nat 1).
  - unfold len. simpl. lia.
  - vm_compute. reflexivity.
  - simpl. lia.
  - reflexivity.
Defined.

(** The first iteration on the samples 0, 5, 9 with [eps = 1]: point 0 has
    core distance 5 and is no core point, and the next point is the
    smallest remaining index, 1.  The first iteration on the samples 0, 4,
    3, -3 without bound: point 0 is a core point, the seeds 1, 2 and 3 get
    the reachabilities 4, 3 and 3, and of the two least the one of lower
    index, 2, is next. *)
Lemma seeds_ascending_lowest_index_first_witness :
  (∃ st',
     loop_body dist1 [0; 5; 9] (fz 1) 1 (initial_state [0; 5; 9]) = Return st' ∧
     ordering st' = [0] ∧ seeds st' = [1; 2] ∧ current st' = 1 ∧
     (∀ j, j ∈ seeds st' ↔ j ∈ [0; 1; 2] ∧ j ≠ 0) ∧
     ∀ j, j ∈ seeds st' → current st' ≤ j) ∧
  (∃ st',
     loop_body dist1 [0; 4; 3; -3] Inf 1 (initial_state [0; 4; 3; -3]) = Return st' ∧
     ordering st' = [0] ∧ seeds st' = [1; 2; 3] ∧ current st' = 2 ∧
     reachability_distances st' = [Inf; fz 4; fz 3; fz 3] ∧
     (∀ j, j ∈ seeds st' ↔ j ∈ [0; 1; 2; 3] ∧ j ≠ 0) ∧
     ∀ j, j ∈ seeds st' →
       let r := getF (reachability_distances st') in
       fleb (r (current st')) (r j) = true ∧
       (j < current st' → fltb (r (current st')) (r j) = true)).
Proof.
  split.
  - exists (mkLoop [1; 2] [0] [Some (fz 5); None; None] [Inf; Inf; Inf] 1).
    assert (Hb : loop_body dist1 [0; 5; 9] (fz 1) 1 (initial_state [0; 5; 9])
                 = Return (mkLoop [1; 2] [0] [Some (fz 5); None; None] [Inf; Inf; Inf] 1))
      by (vm_compute; reflexivity).
    destruct (seeds_ascending_lowest_index_first dist1 [0; 5; 9] (fz 1) 1
                (initial_state [0; 5; 9]) (reachable_init _ _ _ _))
      as (_ & _ & Hstep).
    destruct (Hstep _ ltac:(unfold len; simpl; lia) Hb)
      as (D & c & HD & Hc & _ & _ & Hrest & _ & _ & _ & Hnon & _).
    vm_compute in HD. injection HD as <-.
    vm_compute in Hc. injection Hc as <-.
    split_and!; [exact Hb|reflexivity|reflexivity|reflexivity|exact Hrest|].
    apply Hnon. vm_compute. reflexivity.
  - exists (mkLoop [1; 2; 3] [0] [Some (fz 3); None; None; None]
              [Inf; fz 4; fz 3; fz 3] 2).
    assert (Hb : loop_body dist1 [0; 4; 3; -3] Inf 1 (initial_state [0; 4; 3; -3])
                 = Return (mkLoop [1; 2; 3] [0] [Some (fz 3); None; None; None]
                             [Inf; fz 4; fz 3; fz 3] 2))
      by (vm_compute; reflexivity).
    destruct (seeds_ascending_lowest_index_first dist1 [0; 4; 3; -3] Inf 1
                (initial_state [0; 4; 3; -3]) (reachable_init _ _ _ _))
      as (_ & _ & Hstep).
    destruct (Hstep _ ltac:(unfold len; simpl; lia) Hb)
      as (D & c & HD & Hc & _ & _ & Hrest & _ & _ & _ & _ & Hcore).
    vm_compute in HD. injection HD as <-.
    vm_compute in Hc. injection Hc as <-.
    split_and!; [exact Hb|reflexivity|reflexivity|reflexivity|reflexivity|exact Hrest|].
    apply Hcore. vm_compute. reflexivity.
Defined.

Lemma reachability_update_overwrites_witness :
  ∃ D c,
    cdist_row dist1 [0; 3; -2] 0 = Return D ∧
    py_get (np_sort D) 1 = Return c ∧
    (fleb c Inf = true → ∀ j, j ∈ [1; 2] →
       (fleb (getF D j) Inf = true →
          getF [Inf; fz 3; fz 2] j = fmax c (getF D j)) ∧
       (fleb (getF D j) Inf = false →
          getF [Inf; fz 3; fz 2] j = getF [Inf; Inf; Inf] j)) ∧
    (fleb c Inf = false → [Inf; fz 3; fz 2] = [Inf; Inf; Inf]) ∧
    (∀ j, 0 ≤ j → j ∉ [1; 2] →
       getF [Inf; fz 3; fz 2] j = getF [Inf; Inf; Inf] j).
Proof.
  refine (reachability_update_overwrites dist1 [0; 3; -2] Inf 1
            (initial_state [0; 3; -2])
            (mkLoop [1; 2] [0] [Some (fz 2); None; None] [Inf; fz 3; fz 2] 2) _ _ _).
  - apply reachable_init.
  - vm_compute. reflexivity.
  - vm_compute. reflexivity.
Defined.


Lemma labels_are_nonempty_leaf_indices_witness :
  len [0; -1; -1; 1; 1] = len [0; 1; 2; 3; 4] ∧
  ∃ st,
    extraction_tree [0; 1; 2; 3; 4] (map fz [0; 2; 1; 2; 1]) 3
      (Fin 0.75) (Fin 0.4) (Fin 0.1) = Return st ∧
    (∀ (p : nat) v, [0; -1; -1; 1; 1] !! p = Some v →
       v = -1 ∨
       0 ≤ v ∧ ∃ a b, leaf_ranges st !! Z.to_nat v = Some (a, b) ∧ a < b) ∧
    (∀ (k : nat) a b, leaf_ranges st !! k = Some (a, b) → a < b →
       Z.of_nat k ∈ [0; -1; -1; 1; 1]) ∧
    ((∀ a b, (a, b) ∈ leaf_ranges st → a < b) →
     ∀ v, 0 ≤ v < len (leaves st) → v ∈ [0; -1; -1; 1; 1]).
Proof.
  apply (labels_are_nonempty_leaf_indices [0; 1; 2; 3; 4] (map fz [0; 2; 1; 2; 1]) 3
           (Fin 0.75) (Fin 0.4) (Fin 0.1) [0; -1; -1; 1; 1]).
  - reflexivity.
  - unfold len. simpl. lia.
  - vm_compute. reflexivity.
Defined.

Lemma unrecognized_extraction_raises_witness :
  (optics dist1 [0; 0] Inf 1 (PyStr "unknown") ∅).1
    = (ordering_engine dist1 [0; 0] Inf 1).1 ∧
  (optics dist1 [0; 0] Inf 1 (PyStr "unknown") ∅).2
    = ((ordering_engine dist1 [0; 0] Inf 1).2 ≫=
       fun _ => Raise (config_error (PyStr "unknown"))) ∧
  ∀ res, (optics dist1 [0; 0] Inf 1 (PyStr "unknown") ∅).2 ≠ Return res.
Proof.
  apply (unrecognized_extraction_raises dist1 [0; 0] Inf 1 (PyStr "unknown") ∅).
  vm_compute. discriminate.
Defined.

(** The samples 0, 1, 2, 10, 11, 12 with [min_samples = 2].  Without
    keyword the extraction, called with [min_cluster_size = 2], splits the
    plot 0, 2, 1, 8, 2, 1 at its peak; with [significant_ratio = 0.1] it
    does not; with a key [min_cluster_size] the entry point returns
    nothing. *)
Lemma extraction_uses_min_samples_witness :
  ((optics dist1 [0; 1; 2; 10; 11; 12] Inf 2 (PyStr "Hierarchical") ∅).2
     = Return ([Some (fz 2); Some (fz 1); Some (fz 2); Some (fz 2); Some (fz 1); None],
               [0; 1; 2; 3; 4; 5], map fz [0; 2; 1; 8; 2; 1], [0; 0; 0; 1; 1; 1]) ∧
   hierarchical_extraction [0; 1; 2; 3; 4; 5] (map fz [0; 2; 1; 8; 2; 1]) 2
     (Fin 0.75) (Fin 0.4) (Fin 0.1) = Return [0; 0; 0; 1; 1; 1]) ∧
  ((optics dist1 [0; 1; 2; 10; 11; 12] Inf 2 (PyStr "Hierarchical")
      {[ "significant_ratio"%string := Fin 0.1 ]}).2
     = Return ([Some (fz 2); Some (fz 1); Some (fz 2); Some (fz 2); Some (fz 1); None],
               [0; 1; 2; 3; 4; 5], map fz [0; 2; 1; 8; 2; 1], [0; 0; 0; 0; 0; 0]) ∧
   hierarchical_extraction [0; 1; 2; 3; 4; 5] (map fz [0; 2; 1; 8; 2; 1]) 2
     (Fin 0.1) (Fin 0.4) (Fin 0.1) = Return [0; 0; 0; 0; 0; 0]) ∧
  ∀ res, (optics dist1 [0; 1; 2; 10; 11; 12] Inf 2 (PyStr "Hierarchical")
            {[ "min_cluster_size"%string := fz 2 ]}).2 ≠ Return res.
Proof.
  split_and!.
  - vm_compute. reflexivity.
  - destruct (extraction_uses_min_samples dist1 [0; 1; 2; 10; 11; 12] Inf 2
                "Hierarchical" ∅ eq_refl) as (_ & _ & _ & _ & Hret & _).
    apply (Hret [Some (fz 2); Some (fz 1); Some (fz 2); Some (fz 2); Some (fz 1); None]).
    vm_compute. reflexivity.
  - vm_compute. reflexivity.
  - destruct (extraction_uses_min_samples dist1 [0; 1; 2; 10; 11; 12] Inf 2
                "Hierarchical" {[ "significant_ratio"%string := Fin 0.1 ]} eq_refl)
      as (_ & _ & _ & _ & Hret & _).
    apply (Hret [Some (fz 2); Some (fz 1); Some (fz 2); Some (fz 2); Some (fz 1); None]).
    vm_compute. reflexivity.
  - destruct (extraction_uses_min_samples dist1 [0; 1; 2; 10; 11; 12] Inf 2
                "Hierarchical" {[ "min_cluster_size"%string := fz 2 ]} eq_refl)
      as (_ & _ & _ & _ & _ & Hkey).
    apply Hkey. by eexists.
Defined.

(** * Further properties of the ordering engine *)

Lemma py_get_Raise {A} (l : list A) (i : Z) :
  ¬ (- len l ≤ i < len l) → py_get l i = Raise IndexError.
Proof.
  intros Hi. destruct (py_get l i) as [a|e] eqn:Hg.
  - apply py_get_bounds in Hg. done.
  - unfold py_get in Hg. repeat case_match; congruence.
Qed.

Lemma before_snoc (l : list Z) (i j x : Z) : before l i j → before (l ++ [x]) i j.
Proof.
  intros (a & b & Ha & Hb & Hab). exists a, b.
  split_and!; [by apply lookup_app_l_Some|by apply lookup_app_l_Some|done].
Qed.

Lemma before_last (l : list Z) (i x : Z) : i ∈ l → before (l ++ [x]) i x.
Proof.
  intros [a Ha]%list_elem_of_lookup. exists a, (length l). split_and!.
  - by apply lookup_app_l_Some.
  - by rewrite lookup_app_r, Nat.sub_diag.
  - by apply lookup_lt_Some in Ha.
Qed.

Section EngineMore.
Context {F : Type} `{Float F} {P : Type} (dist : P → P → F).
Variable X : list P.
Variable eps : F.
Variable min_samples : Z.

Lemma cdist_row_len (i : Z) (D : list F) :
  cdist_row dist X i = Return D → len D = len X.
Proof. unfold cdist_row. intros HD. inv_bind HD. injection HD as <-. apply len_map. Qed.

Lemma process_current_ordering (st st' : loop_state F) :
  process_current dist X eps min_samples st = Return st' → ordering st' = ordering st.
Proof.
  unfold process_current. intros Hp. inv_bind Hp.
  destruct (fleb _ _); inv_bind Hp; by injection Hp as <-.
Qed.

(** The log grows by the points that join the ordering. *)
Lemma ordering_loop_log (fuel : nat) (st st' : loop_state F) (log log' : list Z) :
  ordering_loop dist X eps min_samples fuel st log = (log', Return st') →
  ∃ added, log' = log ++ added ∧ ordering st' = ordering st ++ added.
Proof.
  revert st log; induction fuel as [|fuel IH]; intros st log; simpl.
  - destruct (Z.ltb_spec 1 (len (seeds st))); [discriminate|].
    intros [= <- <-]. exists []. by rewrite !app_nil_r.
  - destruct (Z.ltb_spec 1 (len (seeds st))) as [Hlt|Hge].
    2:{ intros [= <- <-]. exists []. by rewrite !app_nil_r. }
    destruct (take_current st) as [st1|e] eqn:Ht; [|discriminate].
    destruct (process_current dist X eps min_samples st1) as [st2|e] eqn:Hp; [|discriminate].
    intros Hl. apply IH in Hl as (added & -> & Ho).
    rewrite (process_current_ordering _ _ Hp) in Ho.
    apply take_current_seeds in Ht as (l1 & l2 & _ & _ & ->). simpl in *.
    exists (current st :: added). rewrite Ho, <- !app_assoc. done.
Qed.

Lemma ordering_engine_log cd ord reach :
  (ordering_engine dist X eps min_samples).2 = Return (cd, ord, reach) →
  ∃ last, ord = (ordering_engine dist X eps min_samples).1 ++ [last].
Proof.
  unfold ordering_engine.
  destruct (ordering_loop dist X eps min_samples (length X) (initial_state X) [])
    as [log r] eqn:Hloop.
  simpl. intros Hr. inv_bind Hr. subst r. injection Hr as <- <- <-.
  apply ordering_loop_log in Hloop as (added & -> & Ho). simpl in Ho.
  rewrite Ho. eauto.
Qed.

Lemma ordering_loop_step (fuel : nat) (st : loop_state F) (log : list Z) :
  1 < len (seeds st) →
  ordering_loop dist X eps min_samples (S fuel) st log =
  match take_current st with
  | Raise e => (log, Raise e)
  | Return st1 =>
    match process_current dist X eps min_samples st1 with
    | Raise e => (log ++ [current st1], Raise e)
    | Return st2 => ordering_loop dist X eps min_samples fuel st2 (log ++ [current st1])
    end
  end.
Proof. intros Hl. simpl. destruct (Z.ltb_spec 1 (len (seeds st))); [done|lia]. Qed.

(** The first iteration fails at line 222 when [min_samples] is no index of
    a distance row. *)
Lemma first_iteration_rank_error :
  2 ≤ len X → ¬ rank_ok X min_samples →
  ordering_engine dist X eps min_samples = ([0], Raise IndexError).
Proof.
  intros Hn Hrank. unfold ordering_engine.
  assert (Hinv : loop_inv X (initial_state X)) by (apply initial_inv; lia).
  assert (Hlen : 1 < len (seeds (initial_state X))).
  { unfold initial_state. simpl. unfold len at 1. rewrite xrange_length. lia. }
  destruct (take_current_spec X _ Hinv Hlen) as (l1 & l2 & Hs & Ht & Hm).
  destruct (process_current_eq dist X eps min_samples _ Hm) as (xi & Hxi & Hp).
  assert (Hfuel : ∃ fuel, length X = S fuel).
  { exists (pred (length X)). unfold len in Hn. lia. }
  destruct Hfuel as [fuel ->].
  rewrite (ordering_loop_step _ _ _ Hlen), Ht, Hp.
  rewrite py_get_Raise.
  2:{ unfold len. rewrite np_sort_length, length_map. exact Hrank. }
  reflexivity.
Qed.

(** A seed has no core distance stored. *)
Lemma reachable_seeds_unset (st : loop_state F) :
  1 ≤ len X → reachable dist X eps min_samples st →
  ∀ i, i ∈ seeds st → core_distances st !! Z.to_nat i = Some None.
Proof.
  intros Hn. induction 1 as [|st st' Hr IH Hlen Hb].
  - intros i Hi. simpl in *. apply elem_of_xrange in Hi.
    apply lookup_replicate_2. lia.
  - pose proof (reachable_inv _ _ _ _ _ Hn Hr) as Hinv.
    destruct (loop_body_resolve _ _ _ _ _ _ Hr Hlen Hb)
      as (D & c & mid & HD & Hc & Ht & Hm & Hreach & Hseeds & Hnext & Hinv').
    destruct (next_state_inv _ _ _ _ _ _ Hm Hnext) as (_ & Hs' & _ & Hc').
    apply take_current_seeds in Ht as (l1 & l2 & _ & _ & Hmid).
    intros i Hi. rewrite Hs' in Hi. apply Hseeds in Hi as [Hi Hne].
    rewrite Hc'. subst mid. simpl.
    assert (0 ≤ i < len X).
    { eapply seeds_in_range; [apply (inv_perm _ _ Hinv)|]. apply elem_of_app. by right. }
    assert (0 ≤ current st < len X).
    { eapply seeds_in_range; [apply (inv_perm _ _ Hinv)|]. apply elem_of_app. right.
      apply Hinv. }
    rewrite list_lookup_insert_ne by lia. by apply IH.
Qed.

(** When no point is a core point the loop takes the points in the order of
    their indices and writes no reachability distance. *)
Lemma reachable_no_core (st : loop_state F) :
  (∀ i D c, cdist_row dist X i = Return D →
     py_get (np_sort D) min_samples = Return c → fleb c eps = false) →
  reachable dist X eps min_samples st →
  ∃ k, 0 ≤ k ∧ ordering st = xrange 0 k ∧ seeds st = xrange k (len X) ∧
    current st = k ∧
    reachability_distances st = replicate (Z.to_nat (len X)) finf.
Proof.
  intros Hnone. induction 1 as [|st st' Hr IH Hlen Hb].
  - exists 0. split_and!; done.
  - destruct IH as (k & Hk & Ho & Hsd & Hcur & Hre).
    destruct (loop_body_resolve _ _ _ _ _ _ Hr Hlen Hb)
      as (D & c & mid & HD & Hc & Ht & Hm & Hreach & Hseeds & Hnext & Hinv').
    pose proof (Hnone _ _ _ HD Hc) as Hce.
    unfold next_state in Hnext. rewrite Hce in Hnext. injection Hnext as <-.
    apply take_current_seeds in Ht as (l1 & l2 & Hs & Hnotin & ->). simpl.
    rewrite Hsd in Hlen. unfold len in Hlen at 1. rewrite xrange_length in Hlen.
    rewrite Hsd, Hcur, (xrange_cons k) in Hs by lia.
    destruct l1 as [|x l1].
    2:{ injection Hs as <- _. exfalso. apply Hnotin. rewrite Hcur. left. }
    injection Hs as <-.
    exists (k + 1). split_and!.
    + lia.
    + rewrite Ho, Hcur. symmetry. apply xrange_snoc. lia.
    + done.
    + simpl. rewrite (xrange_cons (k + 1)) by lia. done.
    + done.
Qed.

(** With a radius that no distance exceeds, every stored reachability
    distance comes from the point that precedes in the ordering. *)
Lemma reachable_pred_reach (st : loop_state F) :
  (∀ x, fleb x eps = true) →
  1 ≤ len X → reachable dist X eps min_samples st →
  (∀ (k : nat) i j, ordering st !! k = Some i → ordering st !! S k = Some j →
     reach_from dist X min_samples i j (getF (reachability_distances st) j)) ∧
  (∀ i, last (ordering st) = Some i → ∀ j, j ∈ seeds st →
     reach_from dist X min_samples i j (getF (reachability_distances st) j)).
Proof.
  intros Heps Hn. induction 1 as [|st st' Hr IH Hlen Hb].
  - split; [intros k i j Hk; done|intros i Hi; done].
  - destruct IH as [IH1 IH2].
    pose proof (reachable_inv _ _ _ _ _ Hn Hr) as Hinv.
    destruct (loop_body_resolve _ _ _ _ _ _ Hr Hlen Hb)
      as (D & c & mid & HD & Hc & Ht & Hm & Hreach & Hseeds & Hnext & Hinv').
    unfold next_state in Hnext. rewrite Heps in Hnext.
    inv_bind Hnext. injection Hnext as <-. simpl.
    apply take_current_seeds in Ht as (l1 & l2 & Hs & Hnotin & Hmid).
    assert (Hom : ordering mid = ordering st ++ [current st]) by (by subst mid).
    assert (Hrange : ∀ j, j ∈ ordering st ++ seeds st → 0 ≤ j < len X).
    { intros j. apply seeds_in_range. apply Hinv. }
    assert (Hkeep : ∀ j, 0 ≤ j → j ∉ seeds mid →
              getF (updated_reach eps c D mid) j = getF (reachability_distances st) j).
    { intros j Hj0 Hj. destruct (updated_reach_spec X eps c D mid j Hm Hj0) as [_ Hout].
      rewrite <- Hreach. apply Hout. intros [_ Hin]%list_elem_of_filter. done. }
    assert (Hcur_not : current st ∉ seeds mid).
    { intros Hin. apply Hseeds in Hin as [_ Hne]. done. }
    assert (Hcur_seed : current st ∈ seeds st) by apply Hinv.
    assert (Hold_not : ∀ j, j ∈ ordering st → j ∉ seeds mid).
    { intros j Hj Hin. apply Hseeds in Hin as [Hin _].
      eapply ordering_seeds_disjoint; [exact Hinv|exact Hj|exact Hin]. }
    split.
    + intros k i j Hi Hj. rewrite Hom in Hi, Hj.
      apply lookup_app_Some in Hj as [Hj|[Hge Hj]].
      * rewrite lookup_app_l in Hi by (apply lookup_lt_Some in Hj; lia).
        rewrite Hkeep.
        -- by eapply IH1.
        -- apply list_elem_of_lookup_2 in Hj. apply (Hrange j). apply elem_of_app. by left.
        -- apply Hold_not. by eapply list_elem_of_lookup_2.
      * apply list_lookup_singleton_Some in Hj as [Hk <-].
        assert (Hlast : last (ordering st) = Some i).
        { rewrite last_lookup. rewrite lookup_app_l in Hi by lia.
          replace (pred (length (ordering st))) with k by lia. done. }
        rewrite Hkeep.
        -- by apply IH2.
        -- apply (Hrange (current st)). apply elem_of_app. by right.
        -- done.
    + intros i Hi j Hj. rewrite Hom, last_snoc in Hi. injection Hi as <-.
      assert (Hj0 : 0 ≤ j < len X).
      { apply Hseeds in Hj as [Hj _]. apply (Hrange j). apply elem_of_app. by right. }
      destruct (updated_reach_spec X eps c D mid j Hm ltac:(lia)) as [Hin _].
      rewrite Hin by (apply list_elem_of_filter; split; [apply Heps|done]).
      exists D, c, (getF D j). split_and!; try done.
      apply py_get_ok. rewrite (cdist_row_len _ _ HD). lia.
Qed.

(** A stored reachability distance is infinite or comes from a core point
    that is already in the ordering and has the point within the radius;
    that core point precedes the point in the ordering once the point has
    joined it. *)
Lemma reachable_provenance (st : loop_state F) :
  1 ≤ len X → reachable dist X eps min_samples st →
  ∀ j, 0 ≤ j < len X →
    getF (reachability_distances st) j = finf ∨
    ∃ i, i ∈ ordering st ∧ (j ∈ ordering st → before (ordering st) i j) ∧
      reach_within dist X eps min_samples i j (getF (reachability_distances st) j).
Proof.
  intros Hn. induction 1 as [|st st' Hr IH Hlen Hb].
  - intros j Hj. left. simpl. unfold getF.
    rewrite (nth_lookup_Some _ _ _ finf); [done|].
    apply lookup_replicate_2. lia.
  - pose proof (reachable_inv _ _ _ _ _ Hn Hr) as Hinv.
    destruct (loop_body_resolve _ _ _ _ _ _ Hr Hlen Hb)
      as (D & c & mid & HD & Hc & Ht & Hm & Hreach & Hseeds & Hnext & Hinv').
    destruct (next_state_inv _ _ _ _ _ _ Hm Hnext) as (_ & Hs' & Ho' & _).
    apply take_current_seeds in Ht as (l1 & l2 & Hs & Hnotin & Hmid).
    assert (Hom : ordering st' = ordering st ++ [current st]) by (rewrite Ho'; by subst mid).
    intros j Hj.
    assert (Hold : getF (reachability_distances st') j = getF (reachability_distances st) j →
              getF (reachability_distances st') j = finf ∨
              ∃ i, i ∈ ordering st' ∧ (j ∈ ordering st' → before (ordering st') i j) ∧
                reach_within dist X eps min_samples i j (getF (reachability_distances st') j)).
    { intros ->. destruct (IH j Hj) as [Hinf|(i & Hi & Hbef & Hval)]; [by left|].
      right. exists i. rewrite Hom. split_and!.
      - apply elem_of_app. by left.
      - intros [Hjo|Hjo%list_elem_of_singleton]%elem_of_app.
        + by apply before_snoc, Hbef.
        + subst j. by apply before_last.
      - done. }
    unfold next_state in Hnext. destruct (fleb c eps) eqn:Hce.
    + inv_bind Hnext. injection Hnext as <-. simpl in *.
      destruct (updated_reach_spec X eps c D mid j Hm ltac:(lia)) as [Hin Hout].
      destruct (decide (j ∈ neighbors_of eps D (seeds mid))) as [Hnb|Hnb].
      * right. exists (current st).
        pose proof Hnb as Hnb'. apply list_elem_of_filter in Hnb' as [Hde Hjs].
        split_and!.
        -- rewrite Hom. apply elem_of_app. right. by apply list_elem_of_singleton.
        -- intros Hjo. exfalso. rewrite Hom in Hjo.
           apply Hseeds in Hjs as [Hjs Hne].
           apply elem_of_app in Hjo as [Hjo|Hjo%list_elem_of_singleton]; [|done].
           eapply ordering_seeds_disjoint; [exact Hinv|exact Hjo|exact Hjs].
        -- exists D, c, (getF D j). split_and!; try done.
           ++ apply py_get_ok. rewrite (cdist_row_len _ _ HD). lia.
           ++ by apply Hin.
      * apply Hold. by rewrite (Hout Hnb), Hreach.
    + injection Hnext as <-. simpl in *. apply Hold. by rewrite Hreach.
Qed.

Lemma ordering_engine_perm cd ord reach :
  (ordering_engine dist X eps min_samples).2 = Return (cd, ord, reach) →
  ord ≡ₚ xrange 0 (len X).
Proof.
  intros Hr. apply ordering_engine_Return in Hr as (Hn & st & Hreach & Hs & _ & -> & _).
  pose proof (reachable_inv _ _ _ _ _ Hn Hreach) as Hinv.
  rewrite <- Hs. apply Hinv.
Qed.
End EngineMore.

(** * Further theorems on the ordering engine *)

(** X1.  On an empty sample array the loop is skipped and line 239 reads
    [seeds[0]] of an empty list: the engine, and so the entry point whatever
    the extraction, raises [IndexError] without having requested a distance
    row. *)
Theorem empty_input_raises_index_error {F : Type} `{Float F} {P : Type}
    (dist : P → P → F) (eps : F) (min_samples : Z)
    (extraction : pyvalue) (ext_kwargs : gmap string F) :
  ordering_engine dist [] eps min_samples = ([], Raise IndexError) ∧
  optics dist [] eps min_samples extraction ext_kwargs = ([], Raise IndexError).
Proof. split; reflexivity. Qed.

(** X2.  With a single sample the loop is skipped as well: no distance
    row is requested, [min_samples] is never used as an index, the ordering
    is the one point, its reachability distance 0 and its core distance
    never written. *)
Theorem single_sample_skips_the_loop {F : Type} `{Float F} {P : Type}
    (dist : P → P → F) (x : P) (eps : F) (min_samples : Z) :
  ordering_engine dist [x] eps min_samples = ([], Return ([None], [0], [fzero])).
Proof. reflexivity. Qed.

(** X3.  With two or more samples and a [min_samples] that is no index of a
    distance row (neither [0 <= min_samples < n] nor a negative index down
    to [-n]), the first iteration raises [IndexError] at line 222: the entry
    point fails, whatever the extraction, after the one distance row of
    point 0. *)
Theorem rank_out_of_range_raises {F : Type} `{Float F} {P : Type}
    (dist : P → P → F) (X : list P) (eps : F) (min_samples : Z)
    (extraction : pyvalue) (ext_kwargs : gmap string F) :
  2 ≤ len X → ¬ (- len X ≤ min_samples < len X) →
  ordering_engine dist X eps min_samples = ([0], Raise IndexError) ∧
  optics dist X eps min_samples extraction ext_kwargs = ([0], Raise IndexError).
Proof.
  intros Hn Hrank.
  pose proof (first_iteration_rank_error dist X eps min_samples Hn Hrank) as He.
  split; [exact He|]. unfold optics. by rewrite He.
Qed.

(** X4.  The ordering engine returns exactly when there is one sample, or
    two or more and [min_samples] is an index of a distance row; it raises
    [IndexError] in every other case (no sample, or an index out of range),
    and never another exception. *)
Theorem ordering_engine_returns_or_index_error {F : Type} `{Float F} {P : Type}
    (dist : P → P → F) (X : list P) (eps : F) (min_samples : Z) :
  ((∃ res, (ordering_engine dist X eps min_samples).2 = Return res) ↔
   len X = 1 ∨ 2 ≤ len X ∧ - len X ≤ min_samples < len X) ∧
  ((ordering_engine dist X eps min_samples).2 = Raise IndexError ↔
   len X = 0 ∨ 2 ≤ len X ∧ ¬ (- len X ≤ min_samples < len X)).
Proof.
  destruct (decide (len X = 0)) as [H0|H0].
  { destruct X; [|unfold len in H0; simpl in H0; lia].
    split; split.
    - intros [res Hres]. discriminate.
    - unfold len. simpl. lia.
    - by left.
    - reflexivity. }
  destruct (decide (len X = 1 ∨ 2 ≤ len X ∧ - len X ≤ min_samples < len X)) as [Hok|Hbad].
  - destruct (ordering_engine_ok dist X eps min_samples) as [res Hres].
    { pose proof (len_nonneg X). lia. }
    { unfold rank_ok. destruct Hok as [?|[_ ?]]; [by left|by right]. }
    split; split.
    + done.
    + eauto.
    + rewrite Hres. discriminate.
    + lia.
  - assert (Hn : 2 ≤ len X) by (pose proof (len_nonneg X); lia).
    assert (Hrank : ¬ rank_ok X min_samples) by (unfold rank_ok; lia).
    pose proof (first_iteration_rank_error dist X eps min_samples Hn Hrank) as He.
    split; split.
    + intros [res Hres]. rewrite He in Hres. discriminate.
    + done.
    + right. unfold rank_ok in Hrank. done.
    + by rewrite He.
Qed.

(** X5.  Whenever the ordering engine returns, the distance rows it has
    requested are those of the points of the ordering but the last, once
    each and in the order of the ordering: n - 1 rows for n points. *)
Theorem distance_rows_follow_ordering {F : Type} `{Float F} {P : Type}
    (dist : P → P → F) (X : list P) (eps : F) (min_samples : Z)
    (cd : list (option F)) (ord : list Z) (reach : list F) :
  (ordering_engine dist X eps min_samples).2 = Return (cd, ord, reach) →
  (∃ last, ord = (ordering_engine dist X eps min_samples).1 ++ [last]) ∧
  NoDup (ordering_engine dist X eps min_samples).1 ∧
  len (ordering_engine dist X eps min_samples).1 = len X - 1.
Proof.
  intros Hr.
  pose proof (ordering_engine_perm _ _ _ _ _ _ _ Hr) as Hp.
  destruct (ordering_engine_log _ _ _ _ _ _ _ Hr) as [last Hlog].
  split; [eauto|].
  assert (Hnd : NoDup ord) by (rewrite Hp; apply xrange_NoDup).
  rewrite Hlog in Hnd. apply NoDup_app in Hnd as (Hnd & _ & _).
  split; [exact Hnd|].
  apply Permutation_length in Hp. rewrite Hlog, length_app, xrange_length in Hp.
  simpl in Hp. unfold len in *. lia.
Qed.

(** X6.  Whenever the ordering engine returns, the arrays of core distances
    and of reachability distances have one entry per sample, and the entry of
    the core distances for the last point of the ordering has never been
    written: the loop ends before that point is processed. *)
Theorem last_point_core_distance_unset {F : Type} `{Float F} {P : Type}
    (dist : P → P → F) (X : list P) (eps : F) (min_samples : Z)
    (cd : list (option F)) (ord : list Z) (reach : list F) :
  (ordering_engine dist X eps min_samples).2 = Return (cd, ord, reach) →
  len cd = len X ∧ len reach = len X ∧
  ∃ p, last ord = Some p ∧ py_get cd p = Return None.
Proof.
  intros Hr.
  apply ordering_engine_Return in Hr as (Hn & st & Hreach & Hs & -> & -> & ->).
  pose proof (reachable_inv _ _ _ _ _ Hn Hreach) as Hinv.
  split_and!.
  - unfold len. by rewrite (inv_core_len _ _ Hinv).
  - unfold len. by rewrite length_insert, (inv_reach_len _ _ Hinv).
  - exists (current st). split; [apply last_snoc|].
    assert (Hc : current st ∈ seeds st) by apply Hinv.
    apply py_get_Return.
    + eapply (seeds_in_range X (ordering st) (seeds st)); [apply Hinv|].
      apply elem_of_app. by right.
    + by eapply reachable_seeds_unset.
Qed.

(** X7.  When no point is a core point (every core distance computed
    exceeds [eps]), the ordering is the order of the indices 0, 1, ..., n - 1
    and no reachability distance is ever written: the result holds 0 for
    point 0 and infinity for every other point. *)
Theorem no_core_point_identity_ordering {F : Type} `{Float F} {P : Type}
    (dist : P → P → F) (X : list P) (eps : F) (min_samples : Z)
    (cd : list (option F)) (ord : list Z) (reach : list F) :
  (∀ i D c, cdist_row dist X i = Return D →
     py_get (np_sort D) min_samples = Return c → fleb c eps = false) →
  (ordering_engine dist X eps min_samples).2 = Return (cd, ord, reach) →
  ord = xrange 0 (len X) ∧
  reach = fzero :: replicate (Z.to_nat (len X - 1)) finf.
Proof.
  intros Hnone Hr.
  apply ordering_engine_Return in Hr as (Hn & st & Hreach & Hs & _ & -> & ->).
  destruct (reachable_no_core _ _ _ _ _ Hnone Hreach) as (k & Hk & Ho & Hsd & Hcur & Hre).
  assert (Hkn : len X = k + 1).
  { apply (f_equal length) in Hs. rewrite Hsd, xrange_length in Hs. simpl in Hs. lia. }
  split.
  - rewrite Ho, Hcur, Hkn. symmetry. apply xrange_snoc. lia.
  - rewrite Hre. replace (Z.to_nat (len X)) with (S (Z.to_nat (len X - 1))) by lia.
    reflexivity.
Qed.

(** X8.  With a radius [eps] that no value exceeds (the default, infinity),
    whenever the ordering engine returns, the reachability distance of every
    point of the ordering but the first is the value computed from the point
    just before it in the ordering: the greater of that point's core
    distance and the distance between the two. *)
Theorem reachability_from_predecessor {F : Type} `{Float F} {P : Type}
    (dist : P → P → F) (X : list P) (eps : F) (min_samples : Z)
    (cd : list (option F)) (ord : list Z) (reach : list F) (k : nat) (i j : Z) :
  (∀ x, fleb x eps = true) →
  (ordering_engine dist X eps min_samples).2 = Return (cd, ord, reach) →
  ord !! k = Some i → ord !! S k = Some j →
  ∃ r, py_get reach j = Return r ∧ reach_from dist X min_samples i j r.
Proof.
  intros Heps Hr Hi Hj.
  pose proof (ordering_engine_perm _ _ _ _ _ _ _ Hr) as Hp.
  apply ordering_engine_Return in Hr as (Hn & st & Hreach & Hs & _ & -> & ->).
  pose proof (reachable_inv _ _ _ _ _ Hn Hreach) as Hinv.
  destruct (reachable_pred_reach _ _ _ _ _ Heps Hn Hreach) as [H1 H2].
  assert (Hjr : 0 ≤ j < len X).
  { apply list_elem_of_lookup_2 in Hj. rewrite Hp in Hj. by apply elem_of_xrange in Hj. }
  assert (H0 : (ordering st ++ [current st]) !! 0%nat = Some 0).
  { pose proof (inv_first _ _ Hinv) as Hf. destruct (ordering st); simpl in *; by rewrite Hf. }
  assert (Hj0 : j ≠ 0).
  { intros ->. assert (Hnd : NoDup (ordering st ++ [current st]))
      by (rewrite Hp; apply xrange_NoDup).
    pose proof (NoDup_lookup _ _ _ _ Hnd Hj H0). lia. }
  exists (getF (reachability_distances st) j). split.
  - apply py_get_Return; [lia|]. rewrite list_lookup_insert_ne by lia.
    apply lookup_nth. rewrite (inv_reach_len _ _ Hinv). unfold len in Hjr. lia.
  - apply lookup_app_Some in Hj as [Hj|[Hge Hj]].
    + rewrite lookup_app_l in Hi by (apply lookup_lt_Some in Hj; lia).
      by eapply H1.
    + apply list_lookup_singleton_Some in Hj as [Hk <-].
      rewrite lookup_app_l in Hi by lia.
      apply (H2 i).
      * rewrite last_lookup. by replace (pred (length (ordering st))) with k by lia.
      * apply Hinv.
Qed.

(** X9.  Whenever the ordering engine returns, the reachability distance of
    a point other than point 0 is either infinity, the initial value, or the
    value computed from a core point that comes before it in the ordering
    and has it within [eps]: the greater of that point's core distance and
    the distance between the two. *)
Theorem reachability_comes_from_earlier_core_point {F : Type} `{Float F} {P : Type}
    (dist : P → P → F) (X : list P) (eps : F) (min_samples : Z)
    (cd : list (option F)) (ord : list Z) (reach : list F) (j : Z) (r : F) :
  (ordering_engine dist X eps min_samples).2 = Return (cd, ord, reach) →
  0 < j → py_get reach j = Return r →
  r = finf ∨ ∃ i, before ord i j ∧ reach_within dist X eps min_samples i j r.
Proof.
  intros Hr Hj Hg.
  pose proof (ordering_engine_perm _ _ _ _ _ _ _ Hr) as Hp.
  apply ordering_engine_Return in Hr as (Hn & st & Hreach & Hs & _ & -> & ->).
  pose proof (reachable_inv _ _ _ _ _ Hn Hreach) as Hinv.
  apply py_get_Return in Hg; [|lia]. rewrite list_lookup_insert_ne in Hg by lia.
  assert (Hjr : 0 ≤ j < len X).
  { apply lookup_lt_Some in Hg. rewrite (inv_reach_len _ _ Hinv) in Hg. unfold len. lia. }
  assert (Hgr : getF (reachability_distances st) j = r).
  { unfold getF. by apply nth_lookup_Some. }
  destruct (reachable_provenance _ _ _ _ _ Hn Hreach j Hjr) as [Hinf|(i & Hi & Hbef & Hval)].
  - left. congruence.
  - right. exists i. rewrite <- Hgr. split; [|done].
    assert (Hjo : j ∈ ordering st ++ [current st]).
    { rewrite Hp. by apply elem_of_xrange. }
    apply elem_of_app in Hjo as [Hjo|Hjo%list_elem_of_singleton].
    + by apply before_snoc, Hbef.
    + subst j. by apply before_last.
Qed.


(** * Further properties of the extraction *)

(** ** The tree does not depend on the similarity ratio *)

Lemma same_shape_sym (st st' : heap) : same_shape st st' → same_shape st' st.
Proof. intros (Hl & Hv & Hr). split_and!; [done|done|]. intros id. by rewrite Hr. Qed.

Lemma same_shape_left (st st' : heap) (id : nat) :
  same_shape st st' → left (node_at st' id) = left (node_at st id).
Proof. intros (_ & _ & Hr). specialize (Hr id). unfold rng in Hr. congruence. Qed.

Lemma same_shape_right (st st' : heap) (id : nat) :
  same_shape st st' → right (node_at st' id) = right (node_at st id).
Proof. intros (_ & _ & Hr). specialize (Hr id). unfold rng in Hr. congruence. Qed.

Lemma set_split_shape (id : nat) (s : Z) (st st' : heap) :
  same_shape st st' → same_shape (set_split id s st) (set_split id s st').
Proof.
  intros Hs. eapply same_shape_trans; [apply same_shape_sym, set_split_same_shape|].
  eapply same_shape_trans; [exact Hs|apply set_split_same_shape].
Qed.

Lemma new_node_shape (l r : Z) (st st' : heap) :
  same_shape st st' →
  (new_node l r st').1 = (new_node l r st).1 ∧
  same_shape (new_node l r st).2 (new_node l r st').2.
Proof.
  intros (Hl & Hv & Hr). unfold new_node, same_shape. simpl. split_and!.
  - done.
  - rewrite !length_app. simpl. lia.
  - done.
  - intros id. specialize (Hr id). unfold rng, node_at in *. simpl.
    destruct (decide (id < length (nodes st))%nat).
    + rewrite !lookup_app_l by lia. exact Hr.
    + rewrite !lookup_app_r by lia. by rewrite Hl.
Qed.

Lemma add_leaf_shape (id : nat) (st st' : heap) :
  same_shape st st' → same_shape (add_leaf id st) (add_leaf id st').
Proof.
  intros (Hl & Hv & Hr). unfold add_leaf, same_shape. simpl.
  split_and!; [done|by rewrite Hv|exact Hr].
Qed.

Section Similarity.
Context {F : Type} `{Float F}.
Variable R : list F.
Variable n : Z.
Variable min_cluster_size : Z.
Variable significant_ratio : F.

Lemma significant_shape (st st' : heap) (cl cr : nat) (Rs : F) :
  same_shape st st' →
  significant R significant_ratio st' cl cr Rs = significant R significant_ratio st cl cr Rs.
Proof.
  intros Hs. unfold significant.
  by rewrite !(same_shape_left _ _ _ Hs), !(same_shape_right _ _ _ Hs).
Qed.

Lemma kept_children_shape (st st' : heap) (cl cr : nat) (Ll Lr : list Z) :
  same_shape st st' →
  kept_children n min_cluster_size st' cl cr Ll Lr
  = kept_children n min_cluster_size st cl cr Ll Lr.
Proof.
  intros Hs. unfold kept_children.
  by rewrite !(same_shape_left _ _ _ Hs), !(same_shape_right _ _ _ Hs).
Qed.

(** Two runs of [cluster_tree] on the same node and candidates, with any
    two similarity ratios and parents, build the same nodes and leaves; they
    differ in the [children] lists at most. *)
Lemma cluster_tree_shape (sim1 sim2 : F) (fuel : nat) :
  ∀ (node : nat) (par1 par2 : option nat) (L : list Z) (st1 st2 st1' st2' : heap),
    same_shape st1 st2 →
    cluster_tree R n min_cluster_size significant_ratio sim1 fuel node par1 L st1
      = Return st1' →
    cluster_tree R n min_cluster_size significant_ratio sim2 fuel node par2 L st2
      = Return st2' →
    same_shape st1' st2'.
Proof.
  induction fuel as [|fuel IH]; intros node par1 par2 L st1 st2 st1' st2' Hs H1 H2;
    [discriminate|].
  destruct (py_pop L) as [[L0 s]|] eqn:Hpop.
  2:{ simpl in H1, H2. rewrite Hpop in H1, H2.
      injection H1 as <-. injection H2 as <-. by apply add_leaf_shape. }
  remember (set_split node s st1) as a1 eqn:Ha1.
  remember (new_node (left (node_at a1 node)) s a1) as l1 eqn:Hl1.
  remember (new_node s (right (node_at l1.2 node)) l1.2) as r1 eqn:Hr1.
  remember (set_split node s st2) as a2 eqn:Ha2.
  remember (new_node (left (node_at a2 node)) s a2) as l2 eqn:Hl2.
  remember (new_node s (right (node_at l2.2 node)) l2.2) as r2 eqn:Hr2.
  rewrite (cluster_tree_S _ _ _ _ _ _ _ _ _ _ _ _ _ _ _ Hpop Ha1 Hl1 Hr1) in H1.
  rewrite (cluster_tree_S _ _ _ _ _ _ _ _ _ _ _ _ _ _ _ Hpop Ha2 Hl2 Hr2) in H2.
  assert (Hsa : same_shape a1 a2) by (subst a1 a2; by apply set_split_shape).
  assert (Hsl : l2.1 = l1.1 ∧ same_shape l1.2 l2.2).
  { subst l1 l2. rewrite (same_shape_left _ _ _ Hsa). by apply new_node_shape. }
  destruct Hsl as [Hidl Hsl].
  assert (Hsr : r2.1 = r1.1 ∧ same_shape r1.2 r2.2).
  { subst r1 r2. rewrite (same_shape_right _ _ _ Hsl). by apply new_node_shape. }
  destruct Hsr as [Hidr Hsr].
  clear Ha1 Hl1 Hr1 Ha2 Hl2 Hr2.
  repeat (rewrite np_take_where in H1 || rewrite bind_ret_l in H1).
  repeat (rewrite np_take_where in H2 || rewrite bind_ret_l in H2).
  inv_bind H1. inv_bind H2. rename a into Rs.
  assert (a0 = Rs) as -> by congruence.
  rewrite Hidl, Hidr, (significant_shape _ _ _ _ _ Hsr) in H2.
  rewrite (kept_children_shape _ _ _ _ _ _ Hsr) in H2.
  destruct (significant _ _ _ _ _ _).
  2:{ by eapply (IH node par1 par2 L0 r1.2 r2.2). }
  destruct (kept_children _ _ _ _ _ _ _) as [|kid kids] eqn:Hk.
  { injection H1 as <-. injection H2 as <-. by apply add_leaf_shape. }
  inv_bind H1. inv_bind H2. destruct a as [p1 st4], a0 as [p2 st5].
  apply attach_children_same_shape in Hstep1, Hstep2.
  assert (Hs45 : same_shape st4 st5).
  { eapply same_shape_trans; [apply same_shape_sym, Hstep1|].
    eapply same_shape_trans; [exact Hsr|exact Hstep2]. }
  clear Hstep1 Hstep2 Hk Hstep Hstep0.
  revert st4 st5 Hs45 H1 H2. generalize (kid :: kids). clear kid kids.
  intros kids. induction kids as [|[c Lc] kids IHk]; intros st4 st5 Hs45 H1 H2.
  - simpl in H1, H2. injection H1 as <-. injection H2 as <-. done.
  - cbn [foldM] in H1, H2. inv_bind H1. inv_bind H2.
    eapply IHk; [|exact H1|exact H2].
    by eapply (IH c (Some p1) (Some p2) Lc st4 st5).
Qed.
End Similarity.

Lemma assign_labels_shape (ordering : list Z) (n : Z) (st st' : heap) :
  same_shape st st' → assign_labels ordering n st' = assign_labels ordering n st.
Proof.
  intros Hs. rewrite !assign_labels_writes. unfold leaf_ranges.
  destruct Hs as (_ & -> & Hr). do 2 f_equal. apply map_ext. exact Hr.
Qed.

Section SimilarityExtraction.
Context {F : Type} `{Float F}.

Lemma extraction_tree_shape (ordering : list Z) (reach : list F) (m : Z)
    (sig sim1 sim2 mrr : F) (st1 st2 : heap) :
  extraction_tree ordering reach m sig sim1 mrr = Return st1 →
  extraction_tree ordering reach m sig sim2 mrr = Return st2 →
  same_shape st1 st2.
Proof.
  unfold extraction_tree. intros H1 H2. inv_bind H1. inv_bind H2.
  assert (a5 = a) as -> by congruence.
  assert (a6 = a0) as -> by congruence.
  assert (a7 = a1) as -> by congruence.
  assert (a8 = a2) as -> by congruence.
  assert (a9 = a3) as -> by congruence.
  assert (a10 = a4) as -> by congruence.
  cbv beta iota zeta in H1, H2. simpl fst in H1, H2. simpl snd in H1, H2.
  eapply cluster_tree_shape; [apply same_shape_refl|exact H1|exact H2].
Qed.
End SimilarityExtraction.

(** ** The leaves a call appends: how many, and where they are cut *)

Lemma cuts_weaken (lo hi a b : Z) (Lc L : list Z) (l : list (Z * Z)) :
  a = lo ∨ a ∈ L → b = hi ∨ b ∈ L → (∀ x, x ∈ Lc → x ∈ L) →
  Forall (fun ab : Z * Z => (ab.1 = a ∨ ab.1 ∈ Lc) ∧ (ab.2 = b ∨ ab.2 ∈ Lc)) l →
  Forall (fun ab : Z * Z => (ab.1 = lo ∨ ab.1 ∈ L) ∧ (ab.2 = hi ∨ ab.2 ∈ L)) l.
Proof.
  intros Ha Hb Hsub Hl. eapply Forall_impl; [exact Hl|]. intros [x y]. simpl.
  intros [[->|Hx] [->|Hy]]; split; auto.
Qed.

Lemma sides_length (s : Z) (L : list Z) :
  (length (filter (fun x : Z => (x <? s)%Z = true) L)
   + length (filter (fun x : Z => (s <? x)%Z = true) L) ≤ length L)%nat.
Proof.
  induction L as [|x L IH]; [done|].
  rewrite !filter_cons.
  destruct (decide ((x <? s) = true)) as [H1|H1], (decide ((s <? x) = true)) as [H2|H2];
    simpl; lia.
Qed.

Lemma outer_weaken (n m : Z) (c x : Z * Z) (l : list (Z * Z)) :
  large_or_outer n m c →
  Forall (fun ab => ab = c ∨ large_or_outer n m ab) l →
  Forall (fun ab => ab = x ∨ large_or_outer n m ab) l.
Proof.
  intros Hc Hl. eapply Forall_impl; [exact Hl|]. intros ab [->|Hab]; by right.
Qed.

Section Cuts.
Context {F : Type} `{Float F}.
Variable R : list F.
Variable n : Z.
Variable min_cluster_size : Z.
Variables significant_ratio similarity_ratio : F.

(** Lines 107-112, with what the test has found of each child it keeps. *)
Lemma kept_children_sized (st : heap) (cl cr : nat) (Ll Lr : list Z) (lo s hi : Z) :
  rng st cl = (lo, s) → rng st cr = (s, hi) →
  let kids := kept_children n min_cluster_size st cl cr Ll Lr in
  kids = [] ∨
  (kids = [(cl, Ll)] ∧ large_or_outer n min_cluster_size (lo, s)) ∨
  (kids = [(cr, Lr)] ∧ large_or_outer n min_cluster_size (s, hi)) ∨
  (kids = [(cl, Ll); (cr, Lr)] ∧ large_or_outer n min_cluster_size (lo, s) ∧
   large_or_outer n min_cluster_size (s, hi)).
Proof.
  unfold rng, kept_children, large_or_outer. intros [= Hl1 Hl2] [= Hr1 Hr2]. simpl.
  rewrite Hl1, Hl2, Hr1, Hr2.
  destruct ((min_cluster_size <=? s - lo) || (s - lo =? s)) eqn:E1;
    destruct ((min_cluster_size <=? hi - s) || (hi - s =? n - s)) eqn:E2; simpl;
    try (apply orb_true_iff in E1; rewrite Z.leb_le, Z.eqb_eq in E1);
    try (apply orb_true_iff in E2; rewrite Z.leb_le, Z.eqb_eq in E2).
  - right; right; right. split; [done|]. split; lia.
  - right; left. split; [done|lia].
  - right; right; left. split; [done|lia].
  - by left.
Qed.

(** A call of [cluster_tree] appends at least one leaf and at most one more
    than it has candidates; the range of each starts at the left end of the
    node or at a candidate and ends at the right end of the node or at a
    candidate; and each is the node itself or has passed the test of lines
    107-112. *)
Lemma cluster_tree_cuts (fuel : nat) :
  ∀ (node : nat) (parent : option nat) (L : list Z) (st st' : heap),
    (node < length (nodes st))%nat →
    cluster_tree R n min_cluster_size significant_ratio similarity_ratio
      fuel node parent L st = Return st' →
    extends st st' ∧
    ∃ new, leaves st' = leaves st ++ new ∧
      Forall (fun id => (id < length (nodes st'))%nat) new ∧
      (1 ≤ length new ≤ length L + 1)%nat ∧
      Forall (fun ab : Z * Z =>
                (ab.1 = (rng st node).1 ∨ ab.1 ∈ L) ∧
                (ab.2 = (rng st node).2 ∨ ab.2 ∈ L))
        (map (rng st') new) ∧
      Forall (fun ab => ab = rng st node ∨ large_or_outer n min_cluster_size ab)
        (map (rng st') new).
Proof.
  induction fuel as [|fuel IH]; intros node parent L st st' Hnode Hct; [discriminate|].
  destruct (py_pop L) as [[L0 s]|] eqn:Hpop.
  2:{ simpl in Hct. rewrite Hpop in Hct.
      injection Hct as <-. split; [by split|].
      exists [node]. split_and!; [done|by constructor|simpl; lia|simpl; lia| |].
      - constructor; [|done]. simpl. auto.
      - constructor; [|done]. by left. }
  remember (set_split node s st) as st1 eqn:Hst1.
  remember (new_node (left (node_at st1 node)) s st1) as nl eqn:Hnl.
  remember (new_node s (right (node_at nl.2 node)) nl.2) as nr eqn:Hnr.
  rewrite (cluster_tree_S _ _ _ _ _ _ _ _ _ _ _ _ _ _ _ Hpop Hst1 Hnl Hnr) in Hct.
  apply py_pop_Some in Hpop. subst L.
  repeat (rewrite np_take_where in Hct || rewrite bind_ret_l in Hct).
  inv_bind Hct. rename a into Rs.
  pose proof (set_split_same_shape node s st) as (Hlen1 & Hlv1 & Hrng1).
  rewrite <- Hst1 in Hlen1, Hlv1, Hrng1.
  pose proof (new_node_spec (left (node_at st1 node)) s st1) as Hl'.
  rewrite <- Hnl in Hl'. cbv zeta in Hl'.
  destruct Hl' as (Hidl & Hlenl & Hlvl & Hrngl & Hextl).
  pose proof (new_node_spec s (right (node_at nl.2 node)) nl.2) as Hr'.
  rewrite <- Hnr in Hr'. cbv zeta in Hr'.
  destruct Hr' as (Hidr & Hlenr & Hlvr & Hrngr & Hextr).
  clear Hst1 Hnl Hnr.
  set (lo := (rng st node).1) in *. set (hi := (rng st node).2) in *.
  assert (Hn1 : rng nl.2 node = rng st node).
  { rewrite (proj2 Hextl) by lia. apply Hrng1. }
  assert (Hn2 : rng nr.2 node = rng st node).
  { rewrite (proj2 Hextr) by lia. exact Hn1. }
  assert (Hcl : rng nr.2 nl.1 = (lo, s)).
  { rewrite (proj2 Hextr) by lia. rewrite Hrngl. f_equal.
    change (left (node_at st1 node)) with (rng st1 node).1. by rewrite Hrng1. }
  assert (Hcr : rng nr.2 nr.1 = (s, hi)).
  { rewrite Hrngr. f_equal.
    change (right (node_at nl.2 node)) with (rng nl.2 node).2. by rewrite Hn1. }
  assert (Hext : extends st nr.2).
  { eapply extends_trans; [|exact Hextr]. eapply extends_trans; [|exact Hextl].
    apply same_shape_extends. done. }
  assert (Hlv : leaves nr.2 = leaves st) by congruence.
  assert (Hs_in : s ∈ L0 ++ [s]) by (apply elem_of_app; right; left).
  assert (HL0 : ∀ x, x ∈ L0 → x ∈ L0 ++ [s]) by (intros x Hx; apply elem_of_app; by left).
  pose proof (sides_length s L0) as Hsides.
  set (Ll := filter (fun x => (x <? s) = true) L0) in *.
  set (Lr := filter (fun x => (s <? x) = true) L0) in *.
  assert (HLl : ∀ x, x ∈ Ll → x ∈ L0 ++ [s]).
  { intros x [_ Hx]%list_elem_of_filter. by apply HL0. }
  assert (HLr : ∀ x, x ∈ Lr → x ∈ L0 ++ [s]).
  { intros x [_ Hx]%list_elem_of_filter. by apply HL0. }
  rewrite length_app. simpl length.
  destruct (significant _ _ _ _ _ _).
  2:{ apply IH in Hct; [|lia].
      destruct Hct as (He & new & Hnew & Hids & Hcount & Hcuts & Hout).
      split; [by eapply extends_trans|].
      exists new. rewrite Hn2 in Hcuts, Hout. rewrite Hnew, Hlv.
      split_and!; [done|done|lia|lia| |done].
      eapply cuts_weaken; [by left|by left|exact HL0|exact Hcuts]. }
  set (kids := kept_children n min_cluster_size nr.2 nl.1 nr.1 Ll Lr) in *.
  pose proof (kept_children_sized nr.2 nl.1 nr.1 Ll Lr lo s hi Hcl Hcr) as Hcases.
  cbv zeta in Hcases. fold kids in Hcases.
  assert (Hchild : ∀ (c : nat) (Lc : list Z) (a b : Z) (st4 st5 : heap) (p : nat),
            extends nr.2 st4 → (c < length (nodes nr.2))%nat →
            rng nr.2 c = (a, b) →
            cluster_tree R n min_cluster_size significant_ratio similarity_ratio
              fuel c (Some p) Lc st4 = Return st5 →
            extends st4 st5 ∧
            ∃ new, leaves st5 = leaves st4 ++ new ∧
              Forall (fun id => (id < length (nodes st5))%nat) new ∧
              (1 ≤ length new ≤ length Lc + 1)%nat ∧
              Forall (fun ab : Z * Z => (ab.1 = a ∨ ab.1 ∈ Lc) ∧ (ab.2 = b ∨ ab.2 ∈ Lc))
                (map (rng st5) new) ∧
              Forall (fun ab => ab = (a, b) ∨ large_or_outer n min_cluster_size ab)
                (map (rng st5) new)).
  { intros c Lc a b st4 st5 p [Hl4 He4] Hc Hrc Hrun.
    assert (Hrc4 : rng st4 c = (a, b)) by (rewrite He4 by done; exact Hrc).
    apply IH in Hrun; [|lia]. by rewrite Hrc4 in Hrun. }
  destruct Hcases as [Hk|[[Hk Hokl]|[[Hk Hokr]|(Hk & Hokl & Hokr)]]]; rewrite Hk in Hct.
  - injection Hct as <-. split; [by destruct Hext|].
    exists [node]. split_and!.
    + simpl. by rewrite Hlv.
    + constructor; [|done]. simpl. lia.
    + simpl. lia.
    + simpl. lia.
    + constructor; [|done].
      change (rng (add_leaf node nr.2) node) with (rng nr.2 node).
      rewrite Hn2. auto.
    + constructor; [|done].
      change (rng (add_leaf node nr.2) node) with (rng nr.2 node). by left.
  - cbv beta iota zeta in Hct. inv_bind Hct. destruct a as [p st4].
    cbn [foldM] in Hct. inv_bind Hct.
    injection Hct as <-. rename a into st5.
    apply attach_children_same_shape in Hstep0.
    pose proof (same_shape_extends _ _ Hstep0) as He4.
    destruct (Hchild nl.1 _ lo s st4 st5 p He4 ltac:(lia) Hcl Hstep1)
      as (He5 & new & Hnew & Hids & Hcount & Hcuts & Hout).
    split; [eapply extends_trans; [exact Hext|]; by eapply extends_trans|].
    exists new. split_and!; [|done|lia|lia| |].
    + rewrite Hnew. destruct Hstep0 as (_ & -> & _). by rewrite Hlv.
    + eapply cuts_weaken; [by left|by right|exact HLl|exact Hcuts].
    + by eapply outer_weaken.
  - cbv beta iota zeta in Hct. inv_bind Hct. destruct a as [p st4].
    cbn [foldM] in Hct. inv_bind Hct.
    injection Hct as <-. rename a into st5.
    apply attach_children_same_shape in Hstep0.
    pose proof (same_shape_extends _ _ Hstep0) as He4.
    destruct (Hchild nr.1 _ s hi st4 st5 p He4 ltac:(lia) Hcr Hstep1)
      as (He5 & new & Hnew & Hids & Hcount & Hcuts & Hout).
    split; [eapply extends_trans; [exact Hext|]; by eapply extends_trans|].
    exists new. split_and!; [|done|lia|lia| |].
    + rewrite Hnew. destruct Hstep0 as (_ & -> & _). by rewrite Hlv.
    + eapply cuts_weaken; [by right|by left|exact HLr|exact Hcuts].
    + by eapply outer_weaken.
  - cbv beta iota zeta in Hct. inv_bind Hct. destruct a as [p st4].
    cbn [foldM] in Hct. inv_bind Hct.
    injection Hct as <-. rename a into st5. rename a0 into st6.
    apply attach_children_same_shape in Hstep0.
    pose proof (same_shape_extends _ _ Hstep0) as He4.
    destruct (Hchild nl.1 _ lo s st4 st5 p He4 ltac:(lia) Hcl Hstep1)
      as (He5 & new1 & Hnew1 & Hids1 & Hcount1 & Hcuts1 & Hout1).
    assert (He45 : extends nr.2 st5) by by eapply extends_trans.
    destruct (Hchild nr.1 _ s hi st5 st6 p He45 ltac:(lia) Hcr Hstep2)
      as (He6 & new2 & Hnew2 & Hids2 & Hcount2 & Hcuts2 & Hout2).
    split; [eapply extends_trans; [exact Hext|]; by eapply extends_trans|].
    exists (new1 ++ new2). split_and!.
    + rewrite Hnew2, Hnew1. destruct Hstep0 as (_ & -> & _).
      by rewrite Hlv, app_assoc.
    + apply Forall_app. split; [|done].
      eapply Forall_impl; [exact Hids1|]. intros id Hid. destruct He6. simpl in *. lia.
    + rewrite length_app. lia.
    + rewrite length_app. lia.
    + rewrite map_app. apply Forall_app. split.
      * rewrite (map_rng_extends st5 st6) by done.
        eapply cuts_weaken; [by left|by right|exact HLl|exact Hcuts1].
      * eapply cuts_weaken; [by right|by left|exact HLr|exact Hcuts2].
    + rewrite map_app. apply Forall_app. split.
      * rewrite (map_rng_extends st5 st6) by done.
        eapply outer_weaken; [exact Hokl|exact Hout1].
      * eapply outer_weaken; [exact Hokr|exact Hout2].
Qed.
End Cuts.

Lemma filterM_pred {A} (p : A → outcome bool) (l r : list A) (x : A) :
  filterM p l = Return r → x ∈ r → x ∈ l ∧ p x = Return true.
Proof.
  revert r; induction l as [|y l IH]; intros r; simpl.
  - intros [= <-] Hx. by apply elem_of_nil in Hx.
  - intros Hf. inv_bind Hf. injection Hf as <-. destruct a eqn:Ha.
    + intros [->|Hx]%elem_of_cons; [split; [left|done]|].
      destruct (IH _ Hstep0 Hx). split; [by right|done].
    + intros Hx. destruct (IH _ Hstep0 Hx). split; [by right|done].
Qed.

Section ExtractionCuts.
Context {F : Type} `{Float F}.

(** The leaves of the extraction: at least one, at most one more than the
    scan found local maxima; each is cut at the ends of the plot or at local
    maxima that pass the filter of line 74, and has at least
    [min_cluster_size] positions or touches an end of the plot. *)
Lemma extraction_tree_cuts (ordering : list Z) (reach : list F) (m : Z)
    (sig sim mrr : F) (st : heap) :
  extraction_tree ordering reach m sig sim mrr = Return st →
  ∃ R L keys last R_max,
    mapM' (py_get reach) ordering = Return R ∧
    local_maxima R (len ordering) m = Return L ∧
    mapM' (py_get R) L = Return keys ∧
    py_get (sort_by_key keys L) (-1) = Return last ∧
    py_get R last = Return R_max ∧
    (1 ≤ length (leaves st) ≤ length L + 1)%nat ∧
    Forall (fun ab : Z * Z =>
              (ab.1 = 0 ∨ ab.1 ∈ L ∧
                 ∃ Ra, py_get R ab.1 = Return Ra ∧ fleb (fmul mrr R_max) Ra = true) ∧
              (ab.2 = len ordering ∨ ab.2 ∈ L ∧
                 ∃ Rb, py_get R ab.2 = Return Rb ∧ fleb (fmul mrr R_max) Rb = true))
      (leaf_ranges st) ∧
    Forall (large_or_outer (len ordering) m) (leaf_ranges st).
Proof.
  unfold extraction_tree. intros He. inv_bind He.
  rename a into R, a0 into L0, a1 into keys, a2 into last, a3 into Rmax, a4 into L.
  cbv beta iota zeta in He. simpl fst in He. simpl snd in He.
  apply cluster_tree_cuts in He; [|simpl; lia].
  destruct He as (_ & new & Hnew & _ & Hcount & Hcuts & Hout). simpl in Hnew. subst new.
  assert (Hlen : (length L ≤ length L0)%nat).
  { apply filterM_length in Hstep4. rewrite sort_by_key_length in Hstep4; [done|].
    apply mapM'_Return in Hstep1. apply Forall2_length in Hstep1. lia. }
  assert (Hsub : ∀ x, x ∈ L → x ∈ L0 ∧
            ∃ Rx, py_get R x = Return Rx ∧ fleb (fmul mrr Rmax) Rx = true).
  { intros x Hx. destruct (filterM_pred _ _ _ _ Hstep4 Hx) as [Hin Hp].
    split; [by eapply sort_by_key_elem|].
    inv_bind Hp. injection Hp as Hp. eauto. }
  exists R, L0, keys, last, Rmax.
  split; [done|]. split; [done|]. split; [done|]. split; [done|]. split; [done|].
  split; [lia|]. split.
  - eapply Forall_impl; [exact Hcuts|]. intros [a b]. simpl.
    intros [[->|Ha] [->|Hb]]; split; auto.
  - eapply Forall_impl; [exact Hout|]. intros ab [->|Hab]; [|done].
    unfold large_or_outer. simpl. auto.
Qed.
End ExtractionCuts.

(** * Further theorems on the extraction *)

(** X10.  For a permutation [ordering] of [0, n) with [n >= 1], as many
    reachability distances and [0 <= min_cluster_size <= n], the extraction
    has two outcomes only: it returns labels when the scan of lines 61-70
    finds at least one local maximum, and raises [IndexError] at line 73
    ([L[-1]] of an empty list) when it finds none. *)
Theorem extraction_returns_or_index_error {F : Type} `{Float F}
    (ordering : list Z) (reachability_distances : list F) (min_cluster_size : Z)
    (significant_ratio similarity_ratio min_reach_ratio : F) :
  ordering ≡ₚ xrange 0 (len ordering) →
  len reachability_distances = len ordering →
  1 ≤ len ordering → 0 ≤ min_cluster_size ≤ len ordering →
  ∃ R L,
    mapM' (py_get reachability_distances) ordering = Return R ∧
    local_maxima R (len ordering) min_cluster_size = Return L ∧
    (L ≠ [] → ∃ labels,
       hierarchical_extraction ordering reachability_distances min_cluster_size
         significant_ratio similarity_ratio min_reach_ratio = Return labels) ∧
    (L = [] →
       hierarchical_extraction ordering reachability_distances min_cluster_size
         significant_ratio similarity_ratio min_reach_ratio = Raise IndexError).
Proof. apply hierarchical_extraction_returns. Qed.

(** X11.  Under the same conditions, when the greatest value of the
    reachability plot (its first occurrence) lies before the last
    [min_cluster_size] positions, the extraction returns labels. *)
Theorem extraction_returns_when_maximum_not_at_end {F : Type} `{FloatOrder F}
    (ordering : list Z) (reachability_distances : list F) (min_cluster_size : Z)
    (significant_ratio similarity_ratio min_reach_ratio : F) (R : list F) (g : Z) :
  ordering ≡ₚ xrange 0 (len ordering) →
  len reachability_distances = len ordering →
  0 ≤ min_cluster_size ≤ len ordering →
  mapM' (py_get reachability_distances) ordering = Return R →
  np_argmax R = Return g → g < len ordering - min_cluster_size →
  ∃ labels,
    hierarchical_extraction ordering reachability_distances min_cluster_size
      significant_ratio similarity_ratio min_reach_ratio = Return labels.
Proof.
  intros Hperm Hlen Hm HR Hg Hgm.
  pose proof (np_argmax_bounds _ _ Hg) as Hgb.
  assert (HRlen : len R = len ordering).
  { apply mapM'_Return in HR. apply Forall2_length in HR. unfold len. lia. }
  assert (Hn : 1 ≤ len ordering) by lia.
  destruct (hierarchical_extraction_returns ordering reachability_distances
              min_cluster_size significant_ratio similarity_ratio min_reach_ratio
              Hperm Hlen Hn Hm) as (R' & L & HR' & HL & Hne & _).
  assert (R' = R) as -> by congruence.
  apply Hne. intros ->.
  assert (Hin : g ∈ ([] : list Z)); [|by apply elem_of_nil in Hin].
  apply (local_maxima_window R (len ordering) min_cluster_size [] g HRlen); [lia|done|lia|].
  replace g with (Z.of_nat (Z.to_nat g)) in Hg by lia.
  apply np_argmax_iff in Hg as (rv & Hrv & Hle & Hlt).
  split; [lia|]. exists rv. split; [done|].
  intros j v Hj Hv. split; [by eapply Hle|].
  intros Hjg. eapply Hlt; [exact Hv|lia].
Qed.

(** X12.  The labels do not depend on [similarity_ratio]: the ratio decides
    under which node the children are hung (lines 117-125), and the leaves,
    from which alone the labels are read, are the same for every value. *)
Theorem labels_do_not_depend_on_similarity_ratio {F : Type} `{Float F}
    (ordering : list Z) (reachability_distances : list F) (min_cluster_size : Z)
    (significant_ratio similarity_ratio similarity_ratio' min_reach_ratio : F) :
  ordering ≡ₚ xrange 0 (len ordering) →
  len reachability_distances = len ordering →
  1 ≤ len ordering → 0 ≤ min_cluster_size ≤ len ordering →
  hierarchical_extraction ordering reachability_distances min_cluster_size
    significant_ratio similarity_ratio min_reach_ratio
  = hierarchical_extraction ordering reachability_distances min_cluster_size
      significant_ratio similarity_ratio' min_reach_ratio.
Proof.
  intros Hperm Hlen Hn Hm.
  destruct (hierarchical_extraction_returns ordering reachability_distances
              min_cluster_size significant_ratio similarity_ratio min_reach_ratio
              Hperm Hlen Hn Hm) as (R & L & HR & HL & Hne1 & Hnil1).
  destruct (hierarchical_extraction_returns ordering reachability_distances
              min_cluster_size significant_ratio similarity_ratio' min_reach_ratio
              Hperm Hlen Hn Hm) as (R' & L' & HR' & HL' & Hne2 & Hnil2).
  assert (R' = R) as -> by congruence. assert (L' = L) as -> by congruence.
  destruct L as [|x L]; [by rewrite Hnil1, Hnil2|].
  destruct Hne1 as [lab1 H1]; [done|]. destruct Hne2 as [lab2 H2]; [done|].
  rewrite H1, H2. f_equal.
  unfold hierarchical_extraction in H1, H2. inv_bind H1. inv_bind H2.
  pose proof (extraction_tree_shape _ _ _ _ _ _ _ _ _ Hstep Hstep0) as Hs.
  rewrite (assign_labels_shape _ _ _ _ Hs) in H2. congruence.
Qed.

(** X13.  Whenever the extraction returns, its tree has at least one leaf
    and at most one more than the scan found local maxima; for a permutation
    [ordering] and [min_cluster_size <= n] every label is therefore between
    -1 and the number of local maxima. *)
Theorem cluster_count_bounded_by_local_maxima {F : Type} `{Float F}
    (ordering : list Z) (reachability_distances : list F) (min_cluster_size : Z)
    (significant_ratio similarity_ratio min_reach_ratio : F) (labels : list Z) :
  ordering ≡ₚ xrange 0 (len ordering) →
  min_cluster_size ≤ len ordering →
  hierarchical_extraction ordering reachability_distances min_cluster_size
    significant_ratio similarity_ratio min_reach_ratio = Return labels →
  ∃ R L st,
    mapM' (py_get reachability_distances) ordering = Return R ∧
    local_maxima R (len ordering) min_cluster_size = Return L ∧
    extraction_tree ordering reachability_distances min_cluster_size
      significant_ratio similarity_ratio min_reach_ratio = Return st ∧
    1 ≤ len (leaves st) ≤ len L + 1 ∧
    ∀ v, v ∈ labels → -1 ≤ v < len (leaves st).
Proof.
  intros Hperm Hm Hx. unfold hierarchical_extraction in Hx. inv_bind Hx.
  rename a into st.
  destruct (extraction_tree_cuts _ _ _ _ _ _ _ Hstep)
    as (R & L & keys & last & R_max & HR & HL & _ & _ & _ & Hcount & _ & _).
  exists R, L, st. split_and!; try done; try (unfold len; lia).
  destruct (extraction_tree_chain _ _ _ _ _ _ _ Hm Hstep) as [Hchain _].
  destruct (assign_labels_spec ordering st Hperm Hchain) as (pw & Hlab & Hnd & Hrange & Hpw).
  rewrite Hlab in Hx. injection Hx as <-.
  assert (Hnn : Forall (fun pv : Z * Z => 0 ≤ pv.1) pw).
  { eapply Forall_impl; [exact Hrange|]. simpl. intros; lia. }
  intros v [p Hv]%list_elem_of_lookup.
  assert (Hp : (p < length ordering)%nat).
  { apply lookup_lt_Some in Hv. by rewrite put_all_length, length_replicate in Hv. }
  replace p with (Z.to_nat (Z.of_nat p)) in Hv by lia.
  destruct (decide (Z.of_nat p ∈ map fst pw)) as [Hin|Hout].
  - apply list_elem_of_fmap in Hin as ([p' i] & Hp' & Hin). simpl in Hp'. subst p'.
    rewrite (put_all_in _ _ _ i) in Hv; try done.
    2:{ rewrite len_replicate. lia. }
    injection Hv as <-.
    apply Hpw in Hin as (j & a & b & Hi & Hl & Hab & Hj).
    apply lookup_lt_Some in Hl. unfold leaf_ranges in Hl. rewrite length_map in Hl.
    unfold len. lia.
  - rewrite put_all_notin in Hv by (done || lia).
    apply lookup_replicate in Hv as [-> _]. unfold len. lia.
Qed.

(** X14.  Whenever the extraction returns, the range of every leaf starts
    at position 0 or at a local maximum of the scan, and ends at position n
    or at a local maximum; and such a local maximum has passed the filter of
    line 74: its reachability is at least [min_reach_ratio * R_max], where
    [R_max] is the reachability of the last local maximum once they are
    sorted by reachability (line 73). *)
Theorem leaf_ranges_are_cut_at_local_maxima {F : Type} `{Float F}
    (ordering : list Z) (reachability_distances : list F) (min_cluster_size : Z)
    (significant_ratio similarity_ratio min_reach_ratio : F) (st : heap) (a b : Z) :
  extraction_tree ordering reachability_distances min_cluster_size
    significant_ratio similarity_ratio min_reach_ratio = Return st →
  (a, b) ∈ leaf_ranges st →
  ∃ R L keys last R_max,
    mapM' (py_get reachability_distances) ordering = Return R ∧
    local_maxima R (len ordering) min_cluster_size = Return L ∧
    mapM' (py_get R) L = Return keys ∧
    py_get (sort_by_key keys L) (-1) = Return last ∧
    py_get R last = Return R_max ∧
    (a = 0 ∨ a ∈ L ∧
       ∃ Ra, py_get R a = Return Ra ∧ fleb (fmul min_reach_ratio R_max) Ra = true) ∧
    (b = len ordering ∨ b ∈ L ∧
       ∃ Rb, py_get R b = Return Rb ∧ fleb (fmul min_reach_ratio R_max) Rb = true).
Proof.
  intros He Hab.
  destruct (extraction_tree_cuts _ _ _ _ _ _ _ He)
    as (R & L & keys & last & R_max & HR & HL & Hk & Hlast & Hmax & _ & Hcuts & _).
  exists R, L, keys, last, R_max. split_and!; try done.
  - rewrite Forall_forall in Hcuts. apply (Hcuts _ Hab).
  - rewrite Forall_forall in Hcuts. apply (Hcuts _ Hab).
Qed.

(** X15.  For a permutation [ordering] and [min_cluster_size <= n], whenever
    the extraction returns: along the ordering the non-noise labels never
    decrease, and the points of one cluster are consecutive in the ordering
    (a point between two points of a cluster belongs to that cluster). *)
Theorem clusters_are_runs_of_the_ordering {F : Type} `{Float F}
    (ordering : list Z) (reachability_distances : list F) (min_cluster_size : Z)
    (significant_ratio similarity_ratio min_reach_ratio : F) (labels : list Z) :
  ordering ≡ₚ xrange 0 (len ordering) →
  min_cluster_size ≤ len ordering →
  hierarchical_extraction ordering reachability_distances min_cluster_size
    significant_ratio similarity_ratio min_reach_ratio = Return labels →
  (∀ (j j' : nat) p p' v v',
     ordering !! j = Some p → ordering !! j' = Some p' → (j ≤ j')%nat →
     labels !! Z.to_nat p = Some v → labels !! Z.to_nat p' = Some v' →
     v ≠ -1 → v' ≠ -1 → v ≤ v') ∧
  (∀ (j j' k : nat) p p' q v,
     ordering !! j = Some p → ordering !! j' = Some p' → ordering !! k = Some q →
     (j ≤ k ≤ j')%nat →
     labels !! Z.to_nat p = Some v → labels !! Z.to_nat p' = Some v → v ≠ -1 →
     labels !! Z.to_nat q = Some v).
Proof.
  intros Hperm Hm Hx. unfold hierarchical_extraction in Hx. inv_bind Hx.
  rename a into st.
  destruct (extraction_tree_chain _ _ _ _ _ _ _ Hm Hstep) as [Hchain _].
  destruct (assign_labels_spec ordering st Hperm Hchain) as (pw & Hlab & Hnd & Hrange & Hpw).
  rewrite Hlab in Hx. injection Hx as <-.
  assert (Hnn : Forall (fun pv : Z * Z => 0 ≤ pv.1) pw).
  { eapply Forall_impl; [exact Hrange|]. simpl. intros; lia. }
  assert (Hndo : NoDup ordering) by (rewrite Hperm; apply xrange_NoDup).
  assert (Hpt : ∀ (j : nat) p, ordering !! j = Some p → 0 ≤ p < len ordering).
  { intros j p Hj. apply list_elem_of_lookup_2 in Hj. rewrite Hperm in Hj.
    by apply elem_of_xrange in Hj. }
  assert (Hleaf : ∀ (j : nat) p v, ordering !! j = Some p →
            put_all (replicate (length ordering) (-1)) pw !! Z.to_nat p = Some v →
            v ≠ -1 →
            ∃ a b, 0 ≤ v ∧ leaf_ranges st !! Z.to_nat v = Some (a, b) ∧ a ≤ Z.of_nat j < b).
  { intros j p v Hj Hv Hne. pose proof (Hpt _ _ Hj) as Hp.
    destruct (decide (p ∈ map fst pw)) as [Hin|Hout].
    - apply list_elem_of_fmap in Hin as ([p' i] & Hp' & Hin). simpl in Hp'. subst p'.
      rewrite (put_all_in _ _ _ i) in Hv; try done.
      2:{ by rewrite len_replicate. }
      injection Hv as <-.
      apply Hpw in Hin as (j0 & a & b & Hi & Hl & Hab & Hj0).
      pose proof (NoDup_lookup _ _ _ _ Hndo Hj Hj0) as Hjj.
      destruct (chain_within _ _ _ _ _ Hchain (list_elem_of_lookup_2 _ _ _ Hl)) as (Ha0 & _).
      exists a, b. split_and!; [done|done|lia|lia].
    - rewrite put_all_notin in Hv by (done || lia).
      apply lookup_replicate in Hv as [-> _]. done. }
  assert (Hconv : ∀ (j : nat) p v a b, ordering !! j = Some p → 0 ≤ v →
            leaf_ranges st !! Z.to_nat v = Some (a, b) → a ≤ Z.of_nat j < b →
            put_all (replicate (length ordering) (-1)) pw !! Z.to_nat p = Some v).
  { intros j p v a b Hj Hv Hl Hab. pose proof (Hpt _ _ Hj) as Hp.
    apply put_all_in; try done; [by rewrite len_replicate|].
    apply Hpw. exists (Z.of_nat j), a, b. by rewrite Nat2Z.id. }
  split.
  - intros j j' p p' v v' Hj Hj' Hjj Hv Hv' Hne Hne'.
    destruct (Hleaf _ _ _ Hj Hv Hne) as (a & b & H0 & Hl & Hab).
    destruct (Hleaf _ _ _ Hj' Hv' Hne') as (a' & b' & H0' & Hl' & Hab').
    destruct (Z.le_gt_cases v v') as [|Hgt]; [done|]. exfalso.
    assert (Hlt : (Z.to_nat v' < Z.to_nat v)%nat) by lia.
    pose proof (chain_ordered _ _ _ _ _ _ _ _ _ Hchain Hl' Hl Hlt). lia.
  - intros j j' k p p' q v Hj Hj' Hk Hjk Hv Hv' Hne.
    destruct (Hleaf _ _ _ Hj Hv Hne) as (a & b & H0 & Hl & Hab).
    destruct (Hleaf _ _ _ Hj' Hv' Hne) as (a' & b' & _ & Hl' & Hab').
    assert (a' = a ∧ b' = b) as [-> ->] by (split; congruence).
    apply (Hconv k q v a b Hk H0 Hl). lia.
Qed.

(** X16.  Whenever the extraction returns, every leaf has at least
    [min_cluster_size] positions unless it starts at position 0 or ends at
    position n: a cluster smaller than [min_cluster_size] can only sit at an
    end of the ordering. *)
Theorem small_leaves_touch_an_end {F : Type} `{Float F}
    (ordering : list Z) (reachability_distances : list F) (min_cluster_size : Z)
    (significant_ratio similarity_ratio min_reach_ratio : F) (st : heap) (a b : Z) :
  extraction_tree ordering reachability_distances min_cluster_size
    significant_ratio similarity_ratio min_reach_ratio = Return st →
  (a, b) ∈ leaf_ranges st →
  min_cluster_size ≤ b - a ∨ a = 0 ∨ b = len ordering.
Proof.
  intros He Hab.
  destruct (extraction_tree_cuts _ _ _ _ _ _ _ He)
    as (R & L & keys & last & R_max & _ & _ & _ & _ & _ & _ & _ & Hout).
  rewrite Forall_forall in Hout. apply (Hout _ Hab).
Qed.

Lemma take_identity {A} (d : A) (R : list A) :
  mapM' (py_get R) (xrange 0 (len R)) = Return R.
Proof.
  change (mapM' (py_get R) (xrange 0 (len R))) with (np_take R (xrange 0 (len R))).
  rewrite (np_take_ok d).
  2:{ apply Forall_forall. intros i Hi. by apply elem_of_xrange in Hi. }
  f_equal. apply list_eq. intros i. rewrite list_lookup_fmap.
  destruct (decide (i < length R)%nat) as [Hi|Hi].
  - rewrite xrange_lookup by (unfold len; lia). simpl.
    rewrite Z.add_0_l, Nat2Z.id. symmetry. by apply lookup_nth.
  - rewrite !lookup_ge_None_2; [done|lia|].
    rewrite xrange_length. unfold len. lia.
Qed.

Lemma len_xrange (n : Z) : 0 ≤ n → len (xrange 0 n) = n.
Proof. intros Hn. unfold len. rewrite xrange_length. lia. Qed.

(** X17.  The extraction works on the reachability plot alone: the tree is
    the one built for the plot [R] with the identity ordering, and the
    ordering only carries the label of each position of the plot to the
    point at that position. *)
Theorem labels_are_plot_labels_carried_by_ordering {F : Type} `{Float F}
    (ordering : list Z) (reachability_distances : list F) (min_cluster_size : Z)
    (significant_ratio similarity_ratio min_reach_ratio : F) (labels : list Z) :
  ordering ≡ₚ xrange 0 (len ordering) →
  min_cluster_size ≤ len ordering →
  hierarchical_extraction ordering reachability_distances min_cluster_size
    significant_ratio similarity_ratio min_reach_ratio = Return labels →
  ∃ R plot_labels,
    mapM' (py_get reachability_distances) ordering = Return R ∧
    hierarchical_extraction (xrange 0 (len ordering)) R min_cluster_size
      significant_ratio similarity_ratio min_reach_ratio = Return plot_labels ∧
    ∀ (j : nat) p, ordering !! j = Some p →
      labels !! Z.to_nat p = plot_labels !! j.
Proof.
  intros Hperm Hm Hx. unfold hierarchical_extraction in Hx. inv_bind Hx.
  rename a into st. set (n := len ordering) in *.
  assert (∃ R, mapM' (py_get reachability_distances) ordering = Return R) as [R HR].
  { unfold extraction_tree in Hstep. inv_bind Hstep. eauto. }
  assert (HRlen : len R = n).
  { apply mapM'_Return in HR. apply Forall2_length in HR. unfold n, len. lia. }
  assert (Hn0 : 0 ≤ n) by apply len_nonneg.
  assert (Htree : extraction_tree (xrange 0 n) R min_cluster_size
                    significant_ratio similarity_ratio min_reach_ratio = Return st).
  { assert (Hid : mapM' (py_get R) (xrange 0 n) = Return R).
    { rewrite <- HRlen. apply (take_identity fzero). }
    rewrite <- Hstep. unfold extraction_tree.
    rewrite Hid, HR, !bind_ret_l, len_xrange by done. reflexivity. }
  destruct (extraction_tree_chain _ _ _ _ _ _ _ Hm Hstep) as [Hchain _].
  destruct (assign_labels_spec ordering st Hperm Hchain) as (pw & Hlab & Hnd & Hrange & Hpw).
  fold n in Hlab. rewrite Hlab in Hx. injection Hx as <-.
  assert (Hperm' : xrange 0 n ≡ₚ xrange 0 (len (xrange 0 n))) by (by rewrite len_xrange).
  assert (Hchain' : chain 0 (len (xrange 0 n)) (leaf_ranges st)) by (by rewrite len_xrange).
  destruct (assign_labels_spec (xrange 0 n) st Hperm' Hchain')
    as (pw' & Hlab' & Hnd' & Hrange' & Hpw').
  rewrite len_xrange in Hlab', Hrange' by done. rewrite xrange_length in Hlab'.
  exists R, (put_all (replicate (Z.to_nat (n - 0)) (-1)) pw').
  split; [done|]. split.
  { unfold hierarchical_extraction. rewrite Htree, bind_ret_l.
    rewrite len_xrange by done. exact Hlab'. }
  assert (Hnn : Forall (fun pv : Z * Z => 0 ≤ pv.1) pw).
  { eapply Forall_impl; [exact Hrange|]. simpl. intros; lia. }
  assert (Hnn' : Forall (fun pv : Z * Z => 0 ≤ pv.1) pw').
  { eapply Forall_impl; [exact Hrange'|]. simpl. intros; lia. }
  assert (Hndo : NoDup ordering) by (rewrite Hperm; apply xrange_NoDup).
  intros j p Hj.
  assert (Hp : 0 ≤ p < n).
  { apply list_elem_of_lookup_2 in Hj. rewrite Hperm in Hj. by apply elem_of_xrange in Hj. }
  assert (Hjn : (j < Z.to_nat n)%nat).
  { apply lookup_lt_Some in Hj. unfold n, len. lia. }
  assert (Hxj : xrange 0 n !! j = Some (Z.of_nat j)).
  { rewrite xrange_lookup by lia. done. }
  replace (put_all (replicate (Z.to_nat (n - 0)) (-1)) pw' !! j)
    with (put_all (replicate (Z.to_nat (n - 0)) (-1)) pw' !! Z.to_nat (Z.of_nat j))
    by (by rewrite Nat2Z.id).
  destruct (decide (p ∈ map fst pw)) as [Hin|Hout].
  - apply list_elem_of_fmap in Hin as ([p' i] & Hp' & Hin). simpl in Hp'. subst p'.
    rewrite (put_all_in _ _ p i); try done.
    2:{ rewrite len_replicate. unfold n, len in Hp. lia. }
    symmetry. apply put_all_in; try done.
    + rewrite len_replicate. lia.
    + apply Hpw in Hin as (j0 & a & b & Hi & Hl & Hab & Hj0).
      pose proof (NoDup_lookup _ _ _ _ Hndo Hj Hj0) as Hjj.
      destruct (chain_within _ _ _ _ _ Hchain (list_elem_of_lookup_2 _ _ _ Hl)) as (Ha0 & _).
      apply Hpw'. exists (Z.of_nat j), a, b. rewrite Nat2Z.id.
      split_and!; try done; lia.
  - rewrite put_all_notin by (done || lia).
    rewrite put_all_notin; try done; [|lia|].
    + rewrite !lookup_replicate_2; [done|lia|unfold n, len in Hp; lia].
    + intros Hin'. apply Hout.
      apply list_elem_of_fmap in Hin' as ([j' i] & Hj' & Hin'). simpl in Hj'. subst j'.
      apply Hpw' in Hin' as (j1 & a & b & Hi & Hl & Hab & Hj1).
      destruct (chain_within _ _ _ _ _ Hchain (list_elem_of_lookup_2 _ _ _ Hl)) as (Ha0 & _).
      assert (Hj1n : (Z.to_nat j1 < Z.to_nat n)%nat).
      { apply lookup_lt_Some in Hj1. by rewrite xrange_length, Z.sub_0_r in Hj1. }
      rewrite xrange_lookup in Hj1 by lia. injection Hj1 as Hj1.
      apply list_elem_of_fmap. exists (p, i). split; [done|].
      apply Hpw. exists (Z.of_nat j), a, b. rewrite Nat2Z.id.
      split_and!; try done; lia.
Qed.

(** ** A plot without a significant split *)

Section NoSplit.
Context {F : Type} `{Float F}.
Variable R : list F.
Variable n : Z.
Variable min_cluster_size : Z.
Variables significant_ratio similarity_ratio : F.

Lemma significant_ranges (st : heap) (cl cr : nat) (Rs : F) (lo s hi : Z) :
  rng st cl = (lo, s) → rng st cr = (s, hi) →
  significant R significant_ratio st cl cr Rs
  = split_significant R significant_ratio lo hi s Rs.
Proof.
  unfold rng, significant, split_significant. intros [= Hl1 Hl2] [= Hr1 Hr2].
  by rewrite Hl1, Hl2, Hr1, Hr2.
Qed.

(** When no candidate splits the node significantly, every candidate is
    dropped in turn and the node becomes a leaf. *)
Lemma cluster_tree_no_split (fuel : nat) :
  ∀ (node : nat) (parent : option nat) (L : list Z) (st : heap),
    (length L < fuel)%nat → (node < length (nodes st))%nat →
    Forall (fun s => ∃ Rs, py_get R s = Return Rs ∧
              split_significant R significant_ratio
                (rng st node).1 (rng st node).2 s Rs = false) L →
    ∃ st', cluster_tree R n min_cluster_size significant_ratio similarity_ratio
             fuel node parent L st = Return st' ∧
      leaves st' = leaves st ++ [node] ∧ rng st' node = rng st node.
Proof.
  induction fuel as [|fuel IH]; intros node parent L st Hfuel Hnode HL; [lia|].
  destruct (py_pop L) as [[L0 s]|] eqn:Hpop.
  2:{ exists (add_leaf node st). simpl. rewrite Hpop. done. }
  remember (set_split node s st) as st1 eqn:Hst1.
  remember (new_node (left (node_at st1 node)) s st1) as nl eqn:Hnl.
  remember (new_node s (right (node_at nl.2 node)) nl.2) as nr eqn:Hnr.
  rewrite (cluster_tree_S _ _ _ _ _ _ _ _ _ _ _ _ _ _ _ Hpop Hst1 Hnl Hnr).
  apply py_pop_Some in Hpop. subst L.
  apply Forall_app in HL as [HL0 Hs]. rewrite Forall_singleton in Hs.
  destruct Hs as (Rs & HRs & Hsig).
  rewrite length_app in Hfuel. simpl in Hfuel.
  repeat (rewrite np_take_where || rewrite bind_ret_l).
  rewrite HRs, bind_ret_l.
  pose proof (set_split_same_shape node s st) as (Hlen1 & Hlv1 & Hrng1).
  rewrite <- Hst1 in Hlen1, Hlv1, Hrng1.
  pose proof (new_node_spec (left (node_at st1 node)) s st1) as Hl'.
  rewrite <- Hnl in Hl'. cbv zeta in Hl'.
  destruct Hl' as (Hidl & Hlenl & Hlvl & Hrngl & Hextl).
  pose proof (new_node_spec s (right (node_at nl.2 node)) nl.2) as Hr'.
  rewrite <- Hnr in Hr'. cbv zeta in Hr'.
  destruct Hr' as (Hidr & Hlenr & Hlvr & Hrngr & Hextr).
  clear Hst1 Hnl Hnr.
  assert (Hn1 : rng nl.2 node = rng st node).
  { rewrite (proj2 Hextl) by lia. apply Hrng1. }
  assert (Hn2 : rng nr.2 node = rng st node).
  { rewrite (proj2 Hextr) by lia. exact Hn1. }
  assert (Hcl : rng nr.2 nl.1 = ((rng st node).1, s)).
  { rewrite (proj2 Hextr) by lia. rewrite Hrngl. f_equal.
    change (left (node_at st1 node)) with (rng st1 node).1. by rewrite Hrng1. }
  assert (Hcr : rng nr.2 nr.1 = (s, (rng st node).2)).
  { rewrite Hrngr. f_equal.
    change (right (node_at nl.2 node)) with (rng nl.2 node).2. by rewrite Hn1. }
  rewrite (significant_ranges _ _ _ _ _ _ _ Hcl Hcr), Hsig.
  destruct (IH node parent L0 nr.2) as (st' & Hrun & Hlv & Hrng).
  - lia.
  - lia.
  - by rewrite Hn2.
  - exists st'. split; [exact Hrun|]. split; [|by rewrite Hrng].
    rewrite Hlv. congruence.
Qed.
End NoSplit.

(** X18.  When no local maximum of the scan splits the whole plot
    significantly (the test of line 105 fails for the two sides [0, s) and
    [s, n) of every local maximum [s]), every candidate is dropped, the root
    is the only leaf and every point gets the label 0. *)
Theorem no_significant_split_gives_one_cluster {F : Type} `{Float F}
    (ordering : list Z) (reachability_distances : list F) (min_cluster_size : Z)
    (significant_ratio similarity_ratio min_reach_ratio : F) (R : list F) (L : list Z) :
  ordering ≡ₚ xrange 0 (len ordering) →
  min_cluster_size ≤ len ordering →
  mapM' (py_get reachability_distances) ordering = Return R →
  local_maxima R (len ordering) min_cluster_size = Return L → L ≠ [] →
  (∀ s Rs, s ∈ L → py_get R s = Return Rs →
     split_significant R significant_ratio 0 (len ordering) s Rs = false) →
  hierarchical_extraction ordering reachability_distances min_cluster_size
    significant_ratio similarity_ratio min_reach_ratio
  = Return (replicate (length ordering) 0).
Proof.
  intros Hperm Hm HR HL0 Hne Hsig. set (n := len ordering) in *.
  assert (HRlen : len R = n).
  { apply mapM'_Return in HR. apply Forall2_length in HR. unfold n, len. lia. }
  pose proof (local_maxima_range R n min_cluster_size L HRlen Hm HL0) as Hrange.
  assert (Hkeys : mapM' (py_get R) L = Return (map (fun i => nth (Z.to_nat i) R fzero) L)).
  { apply (np_take_ok fzero R L). by rewrite HRlen. }
  set (keys := map (fun i => nth (Z.to_nat i) R fzero) L) in *.
  set (L1 := sort_by_key keys L).
  assert (HL1len : length L1 = length L).
  { apply sort_by_key_length. unfold keys. by rewrite length_map. }
  assert (HL1 : ∀ x, x ∈ L1 → x ∈ L) by (intros x Hx; by eapply sort_by_key_elem).
  assert (HL1r : ∀ x, x ∈ L1 → 0 ≤ x < n).
  { intros x Hx. rewrite Forall_forall in Hrange. by apply Hrange, HL1. }
  destruct (py_get_total L1 (-1)) as [last Hlast].
  { unfold len. rewrite HL1len. destruct L; [done|]. simpl. lia. }
  pose proof (HL1r _ (py_get_elem _ _ _ Hlast)) as Hlastr.
  destruct (filterM_ok (fun x => Rx ← py_get R x;
              Return (fleb (fmul min_reach_ratio (nth (Z.to_nat last) R fzero)) Rx)) L1)
    as [L2 HL2].
  { intros x Hx. rewrite (py_get_ok fzero R x) by (rewrite HRlen; by apply HL1r).
    rewrite bind_ret_l. eauto. }
  destruct (cluster_tree_no_split R n min_cluster_size significant_ratio similarity_ratio
              (S (length L2)) 0%nat None L2 (mkHeap [mkNode 0 n None []] []))
    as (st & Hst & Hlv & Hrng).
  { lia. }
  { simpl. lia. }
  { apply Forall_forall. intros s Hs.
    assert (HsL : s ∈ L) by (apply HL1; by eapply filterM_elem).
    rewrite Forall_forall in Hrange. pose proof (Hrange _ HsL) as Hsr.
    exists (nth (Z.to_nat s) R fzero).
    assert (Hg : py_get R s = Return (nth (Z.to_nat s) R fzero))
      by (apply py_get_ok; by rewrite HRlen).
    split; [exact Hg|]. by apply Hsig. }
  assert (Htree : extraction_tree ordering reachability_distances min_cluster_size
                    significant_ratio similarity_ratio min_reach_ratio = Return st).
  { unfold extraction_tree. rewrite HR, bind_ret_l. fold n.
    rewrite HL0, bind_ret_l, Hkeys, bind_ret_l. fold keys. fold L1.
    rewrite Hlast, bind_ret_l.
    rewrite (py_get_ok fzero R last) by (by rewrite HRlen). rewrite bind_ret_l.
    rewrite HL2, bind_ret_l. exact Hst. }
  unfold hierarchical_extraction. rewrite Htree, bind_ret_l.
  simpl in Hlv, Hrng.
  assert (Hranges : leaf_ranges st = [(0, n)]).
  { unfold leaf_ranges. rewrite Hlv. simpl. by rewrite Hrng. }
  assert (Hchain : chain 0 (len ordering) (leaf_ranges st)).
  { rewrite Hranges. simpl. fold n. pose proof (len_nonneg ordering). unfold n. lia. }
  destruct (assign_labels_spec ordering st Hperm Hchain) as (pw & Hlab & Hnd & Hpr & Hpw).
  rewrite Hlab. f_equal.
  assert (Hnn : Forall (fun pv : Z * Z => 0 ≤ pv.1) pw).
  { eapply Forall_impl; [exact Hpr|]. simpl. intros; lia. }
  apply list_eq. intros i.
  destruct (decide (i < length ordering)%nat) as [Hi|Hi].
  - rewrite lookup_replicate_2 by done.
    assert (Hin : Z.of_nat i ∈ ordering).
    { rewrite Hperm. apply elem_of_xrange. unfold n, len. lia. }
    apply list_elem_of_lookup in Hin as [j Hj].
    replace i with (Z.to_nat (Z.of_nat i)) at 1 by lia.
    apply put_all_in; try done.
    + rewrite len_replicate. lia.
    + apply Hpw. exists (Z.of_nat j), 0, n. rewrite Hranges, Nat2Z.id.
      pose proof (lookup_lt_Some _ _ _ Hj) as Hjlt.
      unfold n, len. split_and!; try done; lia.
  - rewrite !lookup_ge_None_2; [done| |].
    + rewrite length_replicate. lia.
    + rewrite put_all_length, length_replicate. lia.
Qed.

(** X19.  An interior position, and one of the first [min_cluster_size]
    positions that is not also among the last, is a local maximum of the
    scan exactly when it is the arg-max (first occurrence of the greatest
    value) of its window [max(0, k - m), k + m + 1). *)
Theorem leading_and_interior_maxima_are_window_maxima {F : Type} `{FloatOrder F}
    (R : list F) (n min_cluster_size : Z) (L : list Z) (k : Z) :
  len R = n → 0 ≤ min_cluster_size →
  local_maxima R n min_cluster_size = Return L →
  0 ≤ k < n - min_cluster_size →
  k ∈ L ↔ window_argmax R (Z.max 0 (k - min_cluster_size)) (k + min_cluster_size + 1) k.
Proof. apply local_maxima_window. Qed.

Lemma py_slice_nil {A} (a b : Z) : py_slice ([] : list A) a b = [].
Proof. unfold py_slice. by rewrite drop_nil, take_nil. Qed.

(** X20.  On an empty ordering the extraction raises: [ValueError] from
    [np.argmax] of an empty window when [min_cluster_size] is not 0, and
    [IndexError] at line 73 when it is 0. *)
Theorem empty_ordering_raises {F : Type} `{Float F}
    (reachability_distances : list F) (min_cluster_size : Z)
    (significant_ratio similarity_ratio min_reach_ratio : F) :
  hierarchical_extraction [] reachability_distances min_cluster_size
    significant_ratio similarity_ratio min_reach_ratio
  = if min_cluster_size =? 0 then Raise IndexError
    else Raise (ValueError "attempt to get argmax of an empty sequence").
Proof.
  unfold hierarchical_extraction, extraction_tree, local_maxima. simpl mapM'.
  rewrite bind_ret_l. change (len []) with 0.
  destruct (Z.eqb_spec min_cluster_size 0) as [->|Hne]; [reflexivity|].
  destruct (Z.lt_ge_cases 0 min_cluster_size) as [Hpos|Hneg].
  - rewrite (xrange_cons 0 min_cluster_size) by lia. simpl foldM.
    by rewrite !py_slice_nil.
  - rewrite (xrange_nil 0 min_cluster_size) by lia. simpl foldM. rewrite bind_ret_l.
    rewrite (xrange_cons min_cluster_size (0 - min_cluster_size)) by lia. simpl foldM.
    by rewrite !py_slice_nil.
Qed.

(** ** The entry point *)

Lemma lower_ascii_idemp (c : ascii) : lower_ascii (lower_ascii c) = lower_ascii c.
Proof. destruct c as [[] [] [] [] [] [] [] []]; reflexivity. Qed.

Lemma lower_idemp (s : string) : lower (lower s) = lower s.
Proof. induction s as [|c s IH]; simpl; [done|]. by rewrite lower_ascii_idemp, IH. Qed.

(** X21.  The name of the extraction is matched without regard to letter
    case: a string and its lower-cased form give the same result, labels or
    exception. *)
Theorem extraction_name_is_case_insensitive {F : Type} `{Float F} {P : Type}
    (dist : P → P → F) (X : list P) (eps : F) (min_samples : Z)
    (s : string) (ext_kwargs : gmap string F) :
  optics dist X eps min_samples (PyStr s) ext_kwargs
  = optics dist X eps min_samples (PyStr (lower s)) ext_kwargs.
Proof.
  unfold optics. destruct (ordering_engine dist X eps min_samples) as [log r].
  f_equal. destruct r as [[[cd ord] reach]|e]; simpl; [|done].
  by rewrite lower_idemp.
Qed.

(** X22.  With the extraction [hierarchical], keywords among the three
    ratios only and [0 <= min_samples < n], the entry point has two outcomes
    only: it returns its four arrays, or it raises [IndexError] (from line
    73, when the scan finds no local maximum). *)
Theorem optics_returns_or_index_error {F : Type} `{Float F} {P : Type}
    (dist : P → P → F) (X : list P) (eps : F) (min_samples : Z)
    (s : string) (ext_kwargs : gmap string F) :
  lower s = "hierarchical"%string →
  dom ext_kwargs ⊆ ratio_names →
  0 ≤ min_samples < len X →
  (∃ res, (optics dist X eps min_samples (PyStr s) ext_kwargs).2 = Return res) ∨
  (optics dist X eps min_samples (PyStr s) ext_kwargs).2 = Raise IndexError.
Proof.
  intros Hs Hkw Hms.
  destruct (ordering_engine_ok dist X eps min_samples) as [[[cd ord] reach] He];
    [lia|right; unfold rank_ok; lia|].
  pose proof He as He'.
  apply ordering_engine_Return in He' as (Hn & st & Hreach & Hseeds & -> & -> & ->).
  pose proof (reachable_inv _ _ _ _ _ Hn Hreach) as Hinv.
  assert (Hp : ordering st ++ [current st] ≡ₚ xrange 0 (len X)).
  { rewrite <- Hseeds. apply Hinv. }
  assert (Hlo : len (ordering st ++ [current st]) = len X).
  { unfold len. rewrite (Permutation_length Hp), xrange_length. unfold len. lia. }
  assert (Hlr : len (<[0%nat := fzero]> (reachability_distances st)) = len X).
  { unfold len. by rewrite length_insert, (inv_reach_len _ _ Hinv). }
  unfold optics.
  destruct (ordering_engine dist X eps min_samples) as [log r]. simpl in He. subst r.
  simpl. rewrite Hs, registry_lookup.
  destruct (decide _) as [_|Hne]; [|done].
  unfold hierarchical_extraction_kw. fold ratio_names.
  rewrite bool_decide_eq_true_2 by done.
  destruct (hierarchical_extraction_returns (ordering st ++ [current st])
              (<[0%nat := fzero]> (reachability_distances st)) min_samples
              (default (fconst 0.75) (ext_kwargs !! "significant_ratio"%string))
              (default (fconst 0.4) (ext_kwargs !! "similarity_ratio"%string))
              (default (fconst 0.1) (ext_kwargs !! "min_reach_ratio"%string)))
    as (R & L & _ & _ & Hne & Hnil); [by rewrite Hlo|lia|lia|lia|].
  destruct L as [|x L].
  - right. by rewrite Hnil.
  - left. destruct Hne as [labels ->]; [done|]. simpl. eauto.
Qed.

(** ** The sort of the local maxima *)

Section KeySort.
Context {F : Type} `{FloatOrder F}.

Lemma key_insert_sorted (x : F * Z) (l : list (F * Z)) :
  Sorted (fun a b : F * Z => fleb a.1 b.1 = true) l →
  Sorted (fun a b : F * Z => fleb a.1 b.1 = true) (key_insert x l).
Proof.
  induction 1 as [|y l Hs IH Hhd]; simpl.
  - repeat constructor.
  - destruct (fleb x.1 y.1) eqn:Hxy.
    + constructor; [by constructor|by constructor].
    + constructor; [exact IH|].
      destruct l as [|z l]; simpl.
      * constructor. destruct (fleb_total x.1 y.1); congruence.
      * destruct (fleb x.1 z.1).
        -- constructor. destruct (fleb_total x.1 y.1); congruence.
        -- constructor. by inversion Hhd.
Qed.

Lemma key_sort_sorted (l : list (F * Z)) :
  Sorted (fun a b : F * Z => fleb a.1 b.1 = true) (foldr key_insert [] l).
Proof.
  induction l as [|x l IH]; simpl; [constructor|]. by apply key_insert_sorted.
Qed.

(** The last item of a list sorted by key has the greatest key. *)
Lemma sorted_last_greatest (l : list (F * Z)) (y : F * Z) :
  Sorted (fun a b : F * Z => fleb a.1 b.1 = true) l → last l = Some y →
  ∀ x, x ∈ l → fleb x.1 y.1 = true.
Proof.
  intros Hs. apply Sorted_StronglySorted in Hs.
  2:{ intros a b c. apply fleb_trans. }
  induction Hs as [|z l Hs IH Hz]; [done|].
  intros Hlast x Hx. destruct l as [|z' l].
  - injection Hlast as <-. apply list_elem_of_singleton in Hx as ->. apply fleb_refl.
  - change (last (z :: z' :: l)) with (last (z' :: l)) in Hlast.
    apply elem_of_cons in Hx as [->|Hx]; [|by apply IH].
    rewrite Forall_forall in Hz. apply Hz.
    rewrite last_lookup in Hlast. by eapply list_elem_of_lookup_2.
Qed.

(** Lines 72-73: [R_max] is the reachability of a local maximum, and no
    local maximum has a greater one. *)
Lemma r_max_greatest (R : list F) (L : list Z) (keys : list F) (last_ : Z) (R_max : F) :
  mapM' (py_get R) L = Return keys →
  py_get (sort_by_key keys L) (-1) = Return last_ →
  py_get R last_ = Return R_max →
  last_ ∈ L ∧ ∀ x Rx, x ∈ L → py_get R x = Return Rx → fleb Rx R_max = true.
Proof.
  intros Hkeys Hlast Hmax.
  apply mapM'_Return in Hkeys.
  assert (Hpairs : ∀ k x, (k, x) ∈ combine keys L → py_get R x = Return k).
  { clear -Hkeys. induction Hkeys as [|x k L keys Hxk _ IH]; simpl.
    - intros k x Hin. by apply elem_of_nil in Hin.
    - intros k' x' [[= -> ->]|Hin]%elem_of_cons; [done|by apply IH]. }
  assert (Hcov : ∀ x, x ∈ L → ∃ k, (k, x) ∈ combine keys L).
  { clear -Hkeys. induction Hkeys as [|x k L keys Hxk _ IH]; simpl.
    - intros x Hin. by apply elem_of_nil in Hin.
    - intros x' [->|Hin]%elem_of_cons; [exists k; left|].
      destruct (IH _ Hin) as [k' Hk']. exists k'. by right. }
  pose proof (key_sort_perm (combine keys L)) as Hperm.
  pose proof (key_sort_sorted (combine keys L)) as Hsorted.
  unfold sort_by_key in Hlast.
  set (sorted := foldr key_insert [] (combine keys L)) in *.
  assert (Hl : ∃ y, last sorted = Some y ∧ y.2 = last_) .
  { pose proof (py_get_bounds _ _ _ Hlast) as Hb. rewrite len_map in Hb.
    unfold py_get in Hlast. rewrite len_map in Hlast.
    destruct (Z.ltb_spec (-1) 0); [|lia].
    destruct ((0 <=? -1 + len sorted) && (-1 + len sorted <? len sorted)); [|discriminate].
    destruct (map snd sorted !! Z.to_nat (-1 + len sorted)) as [v|] eqn:Hv; [|discriminate].
    injection Hlast as ->.
    apply list_lookup_fmap_Some in Hv as (y & -> & Hy).
    exists y. split; [|done]. rewrite last_lookup.
    replace (pred (length sorted)) with (Z.to_nat (-1 + len sorted)) by (unfold len in *; lia).
    done. }
  destruct Hl as ([kl xl] & Hl & Hxl). simpl in Hxl. subst xl.
  assert (Hin : (kl, last_) ∈ combine keys L).
  { rewrite <- Hperm. rewrite last_lookup in Hl. by eapply list_elem_of_lookup_2. }
  pose proof (Hpairs _ _ Hin) as Hkl.
  assert (kl = R_max) as -> by congruence.
  split.
  - apply list_elem_of_In, in_combine_r, list_elem_of_In in Hin. done.
  - intros x Rx Hx Hg. destruct (Hcov _ Hx) as [k Hk].
    pose proof (Hpairs _ _ Hk) as Hgk. assert (k = Rx) as -> by congruence.
    apply (sorted_last_greatest sorted (R_max, last_) Hsorted Hl (Rx, x)).
    by rewrite Hperm.
Qed.
End KeySort.

(** X23.  Whenever the extraction returns, the value [R_max] that the
    filter of line 74 scales (lines 72-73) is the reachability of one of the
    local maxima of the scan, and no local maximum has a greater
    reachability. *)
Theorem r_max_is_the_greatest_local_maximum {F : Type} `{FloatOrder F}
    (ordering : list Z) (reachability_distances : list F) (min_cluster_size : Z)
    (significant_ratio similarity_ratio min_reach_ratio : F) (st : heap) :
  extraction_tree ordering reachability_distances min_cluster_size
    significant_ratio similarity_ratio min_reach_ratio = Return st →
  ∃ R L keys last_max R_max,
    mapM' (py_get reachability_distances) ordering = Return R ∧
    local_maxima R (len ordering) min_cluster_size = Return L ∧
    mapM' (py_get R) L = Return keys ∧
    py_get (sort_by_key keys L) (-1) = Return last_max ∧
    py_get R last_max = Return R_max ∧
    last_max ∈ L ∧
    ∀ x Rx, x ∈ L → py_get R x = Return Rx → fleb Rx R_max = true.
Proof.
  intros He.
  destruct (extraction_tree_cuts _ _ _ _ _ _ _ He)
    as (R & L & keys & last_max & R_max & HR & HL & Hk & Hlast & Hmax & _).
  exists R, L, keys, last_max, R_max.
  destruct (r_max_greatest R L keys last_max R_max Hk Hlast Hmax) as [Hin Hall].
  split_and!; done.
Qed.

(** ** Empty leaves and the size 0 *)

(** X24.  Whenever the tree of the extraction is built with
    [1 <= min_cluster_size <= n], a leaf has at least one position, or it is
    the leaf [0, 0): the left child that line 108 keeps when position 0 is
    taken as a split. *)
Theorem only_empty_leaf_is_at_zero {F : Type} `{Float F}
    (ordering : list Z) (reachability_distances : list F) (min_cluster_size : Z)
    (significant_ratio similarity_ratio min_reach_ratio : F) (st : heap) (a b : Z) :
  1 ≤ min_cluster_size ≤ len ordering →
  extraction_tree ordering reachability_distances min_cluster_size
    significant_ratio similarity_ratio min_reach_ratio = Return st →
  (a, b) ∈ leaf_ranges st →
  a < b ∨ a = 0 ∧ b = 0.
Proof.
  intros Hm He Hab.
  destruct (extraction_tree_chain _ _ _ _ _ _ _ (proj2 Hm) He) as [Hchain _].
  destruct (chain_within _ _ _ _ _ Hchain Hab) as (Ha0 & Hle & Hbn).
  destruct (extraction_tree_cuts _ _ _ _ _ _ _ He)
    as (R & L & keys & last & R_max & HR & HL & _ & _ & _ & _ & Hcuts & Hout).
  assert (HRlen : len R = len ordering).
  { apply mapM'_Return in HR. apply Forall2_length in HR. unfold len. lia. }
  pose proof (local_maxima_range R _ _ L HRlen (proj2 Hm) HL) as Hrange.
  rewrite Forall_forall in Hcuts. rewrite Forall_forall in Hout.
  rewrite Forall_forall in Hrange.
  destruct (Hcuts _ Hab) as [Hca Hcb]. pose proof (Hout _ Hab) as Ho.
  unfold large_or_outer in Ho. simpl in *.
  destruct (Z.lt_ge_cases a b) as [|Hge]; [by left|]. right.
  assert (a = b) as -> by lia.
  destruct Ho as [Ho|[->|Hbn']]; [lia|done|].
  destruct Hca as [->|[Hin _]]; [done|].
  specialize (Hrange _ Hin). lia.
Qed.

Section EveryPosition.
Context {F : Type} `{Float F}.

Lemma py_slice_one (R : list F) (i : Z) :
  0 ≤ i < len R → ∃ x, py_slice R i (i + 1) = [x].
Proof.
  intros Hi. pose proof (py_slice_length R i (i + 1)) as Hl.
  unfold slice_bound in Hl.
  destruct (Z.ltb_spec (i + 1) 0); [lia|]. destruct (Z.ltb_spec i 0); [lia|].
  rewrite !Z.min_l in Hl by lia.
  destruct (py_slice R i (i + 1)) as [|x [|y l]]; unfold len in Hl; simpl in Hl; try lia.
  eauto.
Qed.

Lemma interior_scan_zero (R : list F) (n k : Z) (acc : list Z) :
  len R = n → 0 ≤ k ≤ n →
  foldM (fun L i =>
     a ← np_argmax (py_slice R (i - 0) (i + 0 + 1));
     Return (if a =? 0 then L ++ [i] else L))
    (xrange k n) acc
  = Return (acc ++ xrange k n).
Proof.
  intros HR Hk. remember (Z.to_nat (n - k)) as d eqn:Hd.
  revert k acc Hk Hd. induction d as [|d IH]; intros k acc Hk Hd.
  - rewrite xrange_nil by lia. simpl. by rewrite app_nil_r.
  - rewrite (xrange_cons k n) by lia. cbn [foldM].
    destruct (py_slice_one R k) as [x Hx]; [lia|].
    replace (k - 0) with k by lia. replace (k + 0 + 1) with (k + 1) by lia.
    rewrite Hx. simpl np_argmax. rewrite !bind_ret_l. simpl.
    rewrite IH by lia. by rewrite <- app_assoc.
Qed.
End EveryPosition.

(** X25.  With [min_cluster_size = 0] every window of the scan holds one
    position: every position of the plot is a local maximum, in the order of
    the positions. *)
Theorem every_position_is_a_maximum_for_size_zero {F : Type} `{Float F}
    (R : list F) (n : Z) :
  len R = n → local_maxima R n 0 = Return (xrange 0 n).
Proof.
  intros HR. unfold local_maxima. simpl foldM. rewrite bind_ret_l.
  replace (n - 0) with n by lia.
  rewrite (interior_scan_zero R n 0 [] HR); [done|].
  pose proof (len_nonneg R). lia.
Qed.

(** ** The seeds and the ordering *)

(** X26.  At every test of the loop the ordering and the seeds together
    hold every point index once: a point is in the ordering or among the
    seeds and never in both; and an iteration moves one point, the current
    one, from the seeds to the end of the ordering. *)
Theorem seeds_and_ordering_partition_the_points {F : Type} `{Float F} {P : Type}
    (dist : P → P → F) (X : list P) (eps : F) (min_samples : Z)
    (st : loop_state F) :
  reachable dist X eps min_samples st →
  ordering st ++ seeds st ≡ₚ xrange 0 (len X) ∧
  (∀ i, i ∈ ordering st → i ∉ seeds st) ∧
  ∀ st', 1 < len (seeds st) → loop_body dist X eps min_samples st = Return st' →
    ordering st' = ordering st ++ [current st] ∧
    (∀ j, j ∈ seeds st' ↔ j ∈ seeds st ∧ j ≠ current st) ∧
    len (seeds st') = len (seeds st) - 1.
Proof.
  intros Hr.
  assert (Hperm : ordering st ++ seeds st ≡ₚ xrange 0 (len X)).
  { destruct (Z.le_gt_cases 1 (len X)) as [Hn|Hn].
    - apply (reachable_inv _ _ _ _ _ Hn Hr).
    - assert (st = initial_state X) as ->; [|done].
      clear -Hr Hn. induction Hr as [|st st' _ IH Hl _]; [done|].
      subst st. unfold initial_state in Hl. simpl in Hl.
      unfold len in Hl at 1. rewrite xrange_length in Hl. lia. }
  assert (Hnd : NoDup (ordering st ++ seeds st)) by (rewrite Hperm; apply xrange_NoDup).
  split; [exact Hperm|]. split.
  - intros i Ho Hs. apply NoDup_app in Hnd as (_ & Hd & _). by apply (Hd i).
  - intros st' Hlen Hb.
    pose proof (reachable_nonempty _ _ _ _ _ Hr Hlen) as Hn.
    pose proof (reachable_inv _ _ _ _ _ Hn Hr) as Hinv.
    destruct (loop_body_inv _ _ _ _ _ _ Hinv Hlen Hb) as (_ & Ho & l1 & l2 & Hs & Hs').
    split; [exact Ho|].
    assert (Hnds : NoDup (l1 ++ current st :: l2)).
    { rewrite <- Hs. by apply NoDup_app in Hnd as (_ & _ & ?). }
    apply NoDup_app in Hnds as (_ & Hd & Hnd2). apply NoDup_cons in Hnd2 as [Hc2 _].
    split.
    + intros j. rewrite Hs, Hs', !elem_of_app, elem_of_cons. split.
      * intros [Hj|Hj]; (split; [tauto|]); intros ->; [|done].
        apply (Hd _ Hj). left.
      * intros [[Hj|[->|Hj]] Hne]; [by left|done|by right].
    + rewrite Hs, Hs'. unfold len. rewrite !length_app. simpl. lia.
Qed.

(** ** The candidate list has no duplicates *)

Lemma NoDup_cond_snoc (a x y : Z) (l : list Z) :
  NoDup l → y ∉ l → NoDup (if a =? x then l ++ [y] else l).
Proof.
  intros Hl Hy. destruct (a =? x); [|done].
  apply NoDup_app. split_and!; [done| |apply NoDup_singleton].
  intros z Hz ->%list_elem_of_singleton. done.
Qed.

Section ScanNoDup.
Context {F : Type} `{Float F}.
Variable R : list F.
Variables n m : Z.

Lemma boundary_scan_NoDup (xs : list Z) (acc L : list Z) :
  foldM (fun L i =>
     a ← np_argmax (py_slice R 0 (i + m + 1));
     let L := if a =? i then L ++ [i] else L in
     b ← np_argmax (py_slice R (n - 2 * m + i) n);
     let L := if b =? i then L ++ [n - m + i] else L in
     Return L) xs acc = Return L →
  NoDup xs → NoDup acc →
  (∀ i, i ∈ xs → (i ∉ acc) ∧ (n - m + i ∉ acc)) →
  (∀ i j, i ∈ xs → j ∈ xs → i ≠ n - m + j) →
  NoDup L.
Proof.
  revert acc; induction xs as [|x xs IH]; intros acc; simpl.
  - by intros [= <-].
  - intros Hf Hnd Hacc Hfresh Hsep. inv_bind Hf. inv_bind Hstep. injection Hstep as <-.
    rename a0 into a, a1 into b.
    apply NoDup_cons in Hnd as [Hx Hnd].
    destruct (Hfresh x ltac:(left)) as [Hx1 Hx2].
    pose proof (Hsep x x ltac:(left) ltac:(left)) as Hxx.
    eapply IH; [exact Hf|exact Hnd| | |].
    + apply NoDup_cond_snoc; [by apply NoDup_cond_snoc|].
      rewrite elem_of_cond_snoc'. intros [Hin|[_ Heq]]; [done|]. by symmetry in Heq.
    + intros i Hi. destruct (Hfresh i ltac:(by right)) as [Hi1 Hi2].
      pose proof (Hsep i x ltac:(by right) ltac:(left)) as H1.
      pose proof (Hsep x i ltac:(left) ltac:(by right)) as H2.
      assert (i ≠ x) by (intros ->; done).
      rewrite !elem_of_cond_snoc'.
      split; intros [[Hin|[_ Heq]]|[_ Heq]]; try done; try lia.
    + intros i j Hi Hj. apply Hsep; by right.
Qed.

Lemma interior_scan_NoDup (xs : list Z) (acc L : list Z) :
  foldM (fun L i =>
     a ← np_argmax (py_slice R (i - m) (i + m + 1));
     Return (if a =? m then L ++ [i] else L)) xs acc = Return L →
  NoDup xs → NoDup acc → (∀ i, i ∈ xs → i ∉ acc) → NoDup L.
Proof.
  revert acc; induction xs as [|x xs IH]; intros acc; simpl.
  - by intros [= <-].
  - intros Hf Hnd Hacc Hfresh. inv_bind Hf. inv_bind Hstep. injection Hstep as <-.
    rename a0 into a.
    apply NoDup_cons in Hnd as [Hx Hnd].
    eapply IH; [exact Hf|exact Hnd| |].
    + apply NoDup_cond_snoc; [done|]. apply Hfresh. left.
    + intros i Hi. rewrite elem_of_cond_snoc'.
      intros [Hin|[_ ->]]; [by apply (Hfresh i ltac:(by right))|done].
Qed.
End ScanNoDup.

(** X27.  When the first and the last [min_cluster_size] positions do not
    overlap ([2 * min_cluster_size <= n]), the scan of lines 61-70 lists no
    position twice. *)
Theorem local_maxima_are_distinct {F : Type} `{Float F}
    (R : list F) (n min_cluster_size : Z) (L : list Z) :
  2 * min_cluster_size ≤ n →
  local_maxima R n min_cluster_size = Return L → NoDup L.
Proof.
  intros Hm. unfold local_maxima. intros HL. inv_bind HL. rename a into L1.
  eapply interior_scan_NoDup; [exact HL|apply xrange_NoDup| |].
  - eapply boundary_scan_NoDup; [exact Hstep|apply xrange_NoDup|constructor| |].
    + intros i _. split; apply not_elem_of_nil.
    + intros i j Hi Hj. apply elem_of_xrange in Hi, Hj. lia.
  - intros i Hi Hin. apply elem_of_xrange in Hi.
    apply (boundary_scan_elem R n min_cluster_size _ _ _ i Hstep) in Hin
      as [Hin|(j & Hj & Hk)]; [by apply elem_of_nil in Hin|].
    apply elem_of_xrange in Hj. destruct Hk as [[-> _]|[-> _]]; lia.
Qed.

(** * The further theorems at concrete inputs *)


(** Two samples and [min_samples = 2]. *)
Lemma rank_out_of_range_raises_witness :
  ordering_engine dist1 [0; 1] Inf 2 = ([0], Raise IndexError) ∧
  optics dist1 [0; 1] Inf 2 (PyStr "hierarchical") ∅ = ([0], Raise IndexError).
Proof.
  apply (rank_out_of_range_raises dist1 [0; 1] Inf 2 (PyStr "hierarchical") ∅).
  - unfold len. simpl. lia.
  - unfold len. simpl. lia.
Defined.

(** The engine on the samples 0, 3, -2 with [min_samples = 1]. *)
Lemma distance_rows_follow_ordering_witness :
  (∃ last, [0; 2; 1] = (ordering_engine dist1 [0; 3; -2] Inf 1).1 ++ [last]) ∧
  NoDup (ordering_engine dist1 [0; 3; -2] Inf 1).1 ∧
  len (ordering_engine dist1 [0; 3; -2] Inf 1).1 = len [0; 3; -2] - 1.
Proof.
  apply (distance_rows_follow_ordering dist1 [0; 3; -2] Inf 1
           [Some (fz 2); None; Some (fz 2)] [0; 2; 1] (map fz [0; 5; 2])).
  vm_compute. reflexivity.
Defined.

Lemma last_point_core_distance_unset_witness :
  len [Some (fz 2); None; Some (fz 2)] = len [0; 3; -2] ∧
  len (map fz [0; 5; 2]) = len [0; 3; -2] ∧
  ∃ p, last [0; 2; 1] = Some p ∧
    py_get [Some (fz 2); None; Some (fz 2)] p = Return None.
Proof.
  apply (last_point_core_distance_unset dist1 [0; 3; -2] Inf 1
           [Some (fz 2); None; Some (fz 2)] [0; 2; 1] (map fz [0; 5; 2])).
  vm_compute. reflexivity.
Defined.

(** The samples 0, 5, 9 with [eps = 1] and [min_samples = 1]: the core
    distances are 5, 4 and 4. *)
Lemma no_core_point_identity_ordering_witness :
  [0; 1; 2] = xrange 0 (len [0; 5; 9]) ∧
  [fz 0; Inf; Inf] = fzero :: replicate (Z.to_nat (len [0; 5; 9] - 1)) finf.
Proof.
  apply (no_core_point_identity_ordering dist1 [0; 5; 9] (fz 1) 1
           [Some (fz 5); Some (fz 4); None] [0; 1; 2] [fz 0; Inf; Inf]).
  - intros i D c HD Hc. unfold cdist_row in HD.
    destruct (py_get [0; 5; 9] i) as [xi|e] eqn:Hxi; [|discriminate].
    apply py_get_elem in Hxi. injection HD as <-.
    repeat (apply elem_of_cons in Hxi as [->|Hxi];
            [vm_compute in Hc; injection Hc as <-; reflexivity|]).
    by apply elem_of_nil in Hxi.
  - vm_compute. reflexivity.
Defined.

(** Point 1 comes after point 2 in the ordering 0, 2, 1: its reachability
    distance 5 is the distance between the two, the core distance of point 2
    being 2. *)
Lemma reachability_from_predecessor_witness :
  ∃ r, py_get (map fz [0; 5; 2]) 1 = Return r ∧ reach_from dist1 [0; 3; -2] 1 2 1 r.
Proof.
  apply (reachability_from_predecessor dist1 [0; 3; -2] Inf 1
           [Some (fz 2); None; Some (fz 2)] [0; 2; 1] (map fz [0; 5; 2]) 1%nat 2 1).
  - intros [q|]; reflexivity.
  - vm_compute. reflexivity.
  - reflexivity.
  - reflexivity.
Defined.

Lemma reachability_comes_from_earlier_core_point_witness :
  fz 5 = finf ∨
  ∃ i, before [0; 2; 1] i 1 ∧ reach_within dist1 [0; 3; -2] Inf 1 i 1 (fz 5).
Proof.
  apply (reachability_comes_from_earlier_core_point dist1 [0; 3; -2] Inf 1
           [Some (fz 2); None; Some (fz 2)] [0; 2; 1] (map fz [0; 5; 2]) 1 (fz 5)).
  - vm_compute. reflexivity.
  - lia.
  - reflexivity.
Defined.

(** The extraction on the plot 0, 2, 1, 2, 1 with [min_cluster_size = 3]:
    the local maxima are 2, 1, 3 and the leaves [0, 1) and [3, 5). *)
Lemma extraction_returns_or_index_error_witness :
  ∃ R L,
    mapM' (py_get (map fz [0; 2; 1; 2; 1])) [0; 1; 2; 3; 4] = Return R ∧
    local_maxima R (len [0; 1; 2; 3; 4]) 3 = Return L ∧
    (L ≠ [] → ∃ labels,
       hierarchical_extraction [0; 1; 2; 3; 4] (map fz [0; 2; 1; 2; 1]) 3
         (Fin 0.75) (Fin 0.4) (Fin 0.1) = Return labels) ∧
    (L = [] →
       hierarchical_extraction [0; 1; 2; 3; 4] (map fz [0; 2; 1; 2; 1]) 3
         (Fin 0.75) (Fin 0.4) (Fin 0.1) = Raise IndexError).
Proof.
  apply (extraction_returns_or_index_error [0; 1; 2; 3; 4] (map fz [0; 2; 1; 2; 1]) 3
           (Fin 0.75) (Fin 0.4) (Fin 0.1)).
  - reflexivity.
  - reflexivity.
  - unfold len. simpl. lia.
  - unfold len. simpl. lia.
Defined.

(** The greatest value of that plot is first met at position 1. *)
Lemma extraction_returns_when_maximum_not_at_end_witness :
  ∃ labels,
    hierarchical_extraction [0; 1; 2; 3; 4] (map fz [0; 2; 1; 2; 1]) 3
      (Fin 0.75) (Fin 0.4) (Fin 0.1) = Return labels.
Proof.
  apply (extraction_returns_when_maximum_not_at_end [0; 1; 2; 3; 4]
           (map fz [0; 2; 1; 2; 1]) 3 (Fin 0.75) (Fin 0.4) (Fin 0.1)
           (map fz [0; 2; 1; 2; 1]) 1).
  - reflexivity.
  - reflexivity.
  - unfold len. simpl. lia.
  - vm_compute. reflexivity.
  - vm_compute. reflexivity.
  - unfold len. simpl. lia.
Defined.

(** With the ratio 0.4 the one child kept below node [0, 3) is hung under
    the root, with the ratio 5 under node [0, 3) itself; the labels are the
    same. *)
Lemma labels_do_not_depend_on_similarity_ratio_witness :
  hierarchical_extraction [0; 1; 2; 3; 4] (map fz [0; 2; 1; 2; 1]) 3
    (Fin 0.75) (Fin 0.4) (Fin 0.1)
  = hierarchical_extraction [0; 1; 2; 3; 4] (map fz [0; 2; 1; 2; 1]) 3
      (Fin 0.75) (Fin 5) (Fin 0.1).
Proof.
  apply (labels_do_not_depend_on_similarity_ratio [0; 1; 2; 3; 4]
           (map fz [0; 2; 1; 2; 1]) 3 (Fin 0.75) (Fin 0.4) (Fin 5) (Fin 0.1)).
  - reflexivity.
  - reflexivity.
  - unfold len. simpl. lia.
  - unfold len. simpl. lia.
Defined.

Lemma cluster_count_bounded_by_local_maxima_witness :
  ∃ R L st,
    mapM' (py_get (map fz [0; 2; 1; 2; 1])) [0; 1; 2; 3; 4] = Return R ∧
    local_maxima R (len [0; 1; 2; 3; 4]) 3 = Return L ∧
    extraction_tree [0; 1; 2; 3; 4] (map fz [0; 2; 1; 2; 1]) 3
      (Fin 0.75) (Fin 0.4) (Fin 0.1) = Return st ∧
    1 ≤ len (leaves st) ≤ len L + 1 ∧
    ∀ v, v ∈ [0; -1; -1; 1; 1] → -1 ≤ v < len (leaves st).
Proof.
  apply (cluster_count_bounded_by_local_maxima [0; 1; 2; 3; 4]
           (map fz [0; 2; 1; 2; 1]) 3 (Fin 0.75) (Fin 0.4) (Fin 0.1) [0; -1; -1; 1; 1]).
  - reflexivity.
  - unfold len. simpl. lia.
  - vm_compute. reflexivity.
Defined.

(** The leaf [3, 5): position 3 is a local maximum of reachability 2, the
    greatest. *)
Lemma leaf_ranges_are_cut_at_local_maxima_witness :
  ∃ R L keys last R_max,
    mapM' (py_get (map fz [0; 2; 1; 2; 1])) [0; 1; 2; 3; 4] = Return R ∧
    local_maxima R (len [0; 1; 2; 3; 4]) 3 = Return L ∧
    mapM' (py_get R) L = Return keys ∧
    py_get (sort_by_key keys L) (-1) = Return last ∧
    py_get R last = Return R_max ∧
    (3 = 0 ∨ 3 ∈ L ∧
       ∃ Ra, py_get R 3 = Return Ra ∧ fleb (fmul (Fin 0.1) R_max) Ra = true) ∧
    (5 = len [0; 1; 2; 3; 4] ∨ 5 ∈ L ∧
       ∃ Rb, py_get R 5 = Return Rb ∧ fleb (fmul (Fin 0.1) R_max) Rb = true).
Proof.
  apply (leaf_ranges_are_cut_at_local_maxima [0; 1; 2; 3; 4]
           (map fz [0; 2; 1; 2; 1]) 3 (Fin 0.75) (Fin 0.4) (Fin 0.1)
           (mkHeap [mkNode 0 5 (Some 3) [2%nat; 3%nat]; mkNode 0 3 (Some 1) [];
                    mkNode 3 5 None []; mkNode 0 1 None []; mkNode 1 3 None []]
              [3%nat; 2%nat]) 3 5).
  - vm_compute. reflexivity.
  - apply list_elem_of_lookup. exists 1%nat. reflexivity.
Defined.

Lemma clusters_are_runs_of_the_ordering_witness :
  (∀ (j j' : nat) p p' v v',
     [0; 1; 2; 3; 4] !! j = Some p → [0; 1; 2; 3; 4] !! j' = Some p' → (j ≤ j')%nat →
     [0; -1; -1; 1; 1] !! Z.to_nat p = Some v →
     [0; -1; -1; 1; 1] !! Z.to_nat p' = Some v' →
     v ≠ -1 → v' ≠ -1 → v ≤ v') ∧
  (∀ (j j' k : nat) p p' q v,
     [0; 1; 2; 3; 4] !! j = Some p → [0; 1; 2; 3; 4] !! j' = Some p' →
     [0; 1; 2; 3; 4] !! k = Some q → (j ≤ k ≤ j')%nat →
     [0; -1; -1; 1; 1] !! Z.to_nat p = Some v →
     [0; -1; -1; 1; 1] !! Z.to_nat p' = Some v → v ≠ -1 →
     [0; -1; -1; 1; 1] !! Z.to_nat q = Some v).
Proof.
  apply (clusters_are_runs_of_the_ordering [0; 1; 2; 3; 4]
           (map fz [0; 2; 1; 2; 1]) 3 (Fin 0.75) (Fin 0.4) (Fin 0.1) [0; -1; -1; 1; 1]).
  - reflexivity.
  - unfold len. simpl. lia.
  - vm_compute. reflexivity.
Defined.

(** The leaf [0, 1) has one position, fewer than 3: it starts at 0. *)
Lemma small_leaves_touch_an_end_witness :
  3 ≤ 1 - 0 ∨ 0 = 0 ∨ 1 = len [0; 1; 2; 3; 4].
Proof.
  apply (small_leaves_touch_an_end [0; 1; 2; 3; 4]
           (map fz [0; 2; 1; 2; 1]) 3 (Fin 0.75) (Fin 0.4) (Fin 0.1)
           (mkHeap [mkNode 0 5 (Some 3) [2%nat; 3%nat]; mkNode 0 3 (Some 1) [];
                    mkNode 3 5 None []; mkNode 0 1 None []; mkNode 1 3 None []]
              [3%nat; 2%nat]) 0 1).
  - vm_compute. reflexivity.
  - apply list_elem_of_lookup. exists 0%nat. reflexivity.
Defined.

(** The plot 0, 1, 1, 1, 1 with [min_cluster_size = 1]: the local maxima are
    4 and 1, and for both the right side has the average 1, above
    0.75 * 1. *)
Lemma no_significant_split_gives_one_cluster_witness :
  hierarchical_extraction [0; 1; 2; 3; 4] (map fz [0; 1; 1; 1; 1]) 1
    (Fin 0.75) (Fin 0.4) (Fin 0.1)
  = Return (replicate (length [0; 1; 2; 3; 4]) 0).
Proof.
  apply (no_significant_split_gives_one_cluster [0; 1; 2; 3; 4]
           (map fz [0; 1; 1; 1; 1]) 1 (Fin 0.75) (Fin 0.4) (Fin 0.1)
           (map fz [0; 1; 1; 1; 1]) [4; 1]).
  - reflexivity.
  - unfold len. simpl. lia.
  - vm_compute. reflexivity.
  - vm_compute. reflexivity.
  - discriminate.
  - intros s Rs Hs Hg.
    repeat (apply elem_of_cons in Hs as [->|Hs];
            [vm_compute in Hg; injection Hg as <-; vm_compute; reflexivity|]).
    by apply elem_of_nil in Hs.
Defined.

(** Position 3 of the plot 0, 1, 1, 5, 1 with [min_cluster_size = 1]. *)
Lemma leading_and_interior_maxima_are_window_maxima_witness :
  3 ∈ [4; 1; 3] ↔ window_argmax (map fz [0; 1; 1; 5; 1]) (Z.max 0 (3 - 1)) (3 + 1 + 1) 3.
Proof.
  apply (leading_and_interior_maxima_are_window_maxima (map fz [0; 1; 1; 5; 1]) 5 1
           [4; 1; 3] 3).
  - reflexivity.
  - lia.
  - vm_compute. reflexivity.
  - lia.
Defined.

(** The samples 0, 2, 3, 1, 1 with [min_samples = 3] and no keyword. *)
Lemma optics_returns_or_index_error_witness :
  (∃ res, (optics dist1 [0; 2; 3; 1; 1] Inf 3 (PyStr "Hierarchical") ∅).2 = Return res) ∨
  (optics dist1 [0; 2; 3; 1; 1] Inf 3 (PyStr "Hierarchical") ∅).2 = Raise IndexError.
Proof.
  apply (optics_returns_or_index_error dist1 [0; 2; 3; 1; 1] Inf 3 "Hierarchical" ∅).
  - reflexivity.
  - rewrite dom_empty_L. apply empty_subseteq.
  - unfold len. simpl. lia.
Defined.

(** The local maxima 2, 1, 3 of the plot 0, 2, 1, 2, 1 have the
    reachabilities 1, 2, 2: sorted they are 2, 1, 3 and [R_max] is 2. *)
Lemma r_max_is_the_greatest_local_maximum_witness :
  ∃ R L keys last_max R_max,
    mapM' (py_get (map fz [0; 2; 1; 2; 1])) [0; 1; 2; 3; 4] = Return R ∧
    local_maxima R (len [0; 1; 2; 3; 4]) 3 = Return L ∧
    mapM' (py_get R) L = Return keys ∧
    py_get (sort_by_key keys L) (-1) = Return last_max ∧
    py_get R last_max = Return R_max ∧
    last_max ∈ L ∧
    ∀ x Rx, x ∈ L → py_get R x = Return Rx → fleb Rx R_max = true.
Proof.
  apply (r_max_is_the_greatest_local_maximum [0; 1; 2; 3; 4]
           (map fz [0; 2; 1; 2; 1]) 3 (Fin 0.75) (Fin 0.4) (Fin 0.1)
           (mkHeap [mkNode 0 5 (Some 3) [2%nat; 3%nat]; mkNode 0 3 (Some 1) [];
                    mkNode 3 5 None []; mkNode 0 1 None []; mkNode 1 3 None []]
              [3%nat; 2%nat])).
  vm_compute. reflexivity.
Defined.

(** The ordering 0, 2, 4, 1, 3, 5 of the samples 0, 10, 1, 11, 2, 12: the
    plot is 0, 1, 1, 8, 1, 1 and its labels 0, 0, 0, 1, 1, 1. *)
Lemma labels_are_plot_labels_carried_by_ordering_witness :
  ∃ R plot_labels,
    mapM' (py_get (map fz [0; 8; 1; 1; 1; 1])) [0; 2; 4; 1; 3; 5] = Return R ∧
    hierarchical_extraction (xrange 0 (len [0; 2; 4; 1; 3; 5])) R 1
      (Fin 0.75) (Fin 0.4) (Fin 0.1) = Return plot_labels ∧
    ∀ (j : nat) p, [0; 2; 4; 1; 3; 5] !! j = Some p →
      [0; 1; 0; 1; 0; 1] !! Z.to_nat p = plot_labels !! j.
Proof.
  apply (labels_are_plot_labels_carried_by_ordering [0; 2; 4; 1; 3; 5]
           (map fz [0; 8; 1; 1; 1; 1]) 1 (Fin 0.75) (Fin 0.4) (Fin 0.1)
           [0; 1; 0; 1; 0; 1]).
  - apply (bool_decide_unpack _). vm_compute. exact I.
  - unfold len. simpl. lia.
  - vm_compute. reflexivity.
Defined.

(** The plot 5, 1, 1, 1 with [min_cluster_size = 1]: position 0 is taken as
    a split and the leaves are [0, 0) and [0, 4). *)
Lemma only_empty_leaf_is_at_zero_witness :
  0 < 0 ∨ 0 = 0 ∧ 0 = 0.
Proof.
  apply (only_empty_leaf_is_at_zero [0; 1; 2; 3] (map fz [5; 1; 1; 1]) 1
           (Fin 0.75) (Fin 0.4) (Fin 0.1)
           (mkHeap [mkNode 0 4 (Some 0) [1%nat; 2%nat]; mkNode 0 0 None [];
                    mkNode 0 4 (Some 3) []; mkNode 0 3 None []; mkNode 3 4 None []]
              [1%nat; 2%nat]) 0 0).
  - unfold len. simpl. lia.
  - vm_compute. reflexivity.
  - apply list_elem_of_lookup. exists 0%nat. reflexivity.
Defined.

Lemma every_position_is_a_maximum_for_size_zero_witness :
  local_maxima (map fz [5; 1; 1; 1]) 4 0 = Return (xrange 0 4).
Proof.
  apply (every_position_is_a_maximum_for_size_zero (map fz [5; 1; 1; 1]) 4).
  reflexivity.
Defined.

(** The state before the first iteration on the samples 0, 3, -2. *)
Lemma seeds_and_ordering_partition_the_points_witness :
  ordering (initial_state (F:=xq) [0; 3; -2]) ++ seeds (initial_state (F:=xq) [0; 3; -2])
    ≡ₚ xrange 0 (len [0; 3; -2]) ∧
  (∀ i, i ∈ ordering (initial_state (F:=xq) [0; 3; -2]) →
        i ∉ seeds (initial_state (F:=xq) [0; 3; -2])) ∧
  ∀ st', 1 < len (seeds (initial_state (F:=xq) [0; 3; -2])) →
    loop_body dist1 [0; 3; -2] Inf 1 (initial_state [0; 3; -2]) = Return st' →
    ordering st' = ordering (initial_state (F:=xq) [0; 3; -2])
                   ++ [current (initial_state (F:=xq) [0; 3; -2])] ∧
    (∀ j, j ∈ seeds st' ↔
          j ∈ seeds (initial_state (F:=xq) [0; 3; -2]) ∧
          j ≠ current (initial_state (F:=xq) [0; 3; -2])) ∧
    len (seeds st') = len (seeds (initial_state (F:=xq) [0; 3; -2])) - 1.
Proof.
  apply (seeds_and_ordering_partition_the_points dist1 [0; 3; -2] Inf 1
           (initial_state [0; 3; -2])).
  apply reachable_init.
Defined.

(** The plot 0, 2, 1, 2, 1 with [min_cluster_size = 2]. *)
Lemma local_maxima_are_distinct_witness :
  2 * 2 ≤ 5 ∧ NoDup [3; 1; 4].
Proof.
  split; [lia|].
  apply (local_maxima_are_distinct (map fz [0; 2; 1; 2; 1]) 5 2 [3; 1; 4]).
  - lia.
  - vm_compute. reflexivity.
Defined.
